(** * depviz: the Airtable synchronisation command ([cmd_airtable.go])

    A shallow embedding of [airtableSync]: the de-duplication of the
    features reachable from the filtered issues, the classification of
    every desired entry against the cached remote tables, and the pass
    that issues the create, update and delete calls. *)

From stdpp Require Import base strings list gmap.
From Stdlib Require Import DecimalString DecimalNat.

#[local] Set Warnings "-clear-no-such-hyp".

Open Scope string_scope.
Open Scope list_scope.

(** ** Table kinds

    [airtabledb.IssueIndex] ... [airtabledb.ProviderIndex] index the slices
    [features], [cache.Tables], [unmatched.Tables] and [opts.TableNames].
    A slice of [airtabledb.NumTables] entries indexed by these constants is
    a total function on [TableKind]. *)

Inductive TableKind :=
  | IssueIndex
  | RepositoryIndex
  | AccountIndex
  | LabelIndex
  | MilestoneIndex
  | ProviderIndex.

#[global] Instance TableKind_eq_dec : EqDecision TableKind.
Proof. solve_decision. Defined.

(** ** The entities of package [repo]

    Modelled from the spec: the struct declarations of package [repo] are
    not part of the sources at hand.  Each entity carries its [ID] (the
    ExternalID), the fields [airtableSync] reads, and [Attrs] for its
    remaining domain attributes.  A field that [airtableSync] compares with
    [nil] is an [option]; the others are dereferenced unconditionally by
    the source and are plain values here. *)

Module Provider.
Record t := mk { ID : string; Attrs : string }.
End Provider.

Module Account.
Record t := mk { ID : string; Attrs : string }.
End Account.

Module Label.
Record t := mk { ID : string; Attrs : string }.
End Label.

Module Repository.
Record t := mk
  { ID : string; Attrs : string; Provider : Provider.t; Owner : option Account.t }.
End Repository.

Module Milestone.
Record t := mk { ID : string; Attrs : string; Creator : option Account.t }.
End Milestone.

Module Issue.
Record t := mk
  { ID : string;
    Attrs : string;
    Repository : Repository.t;
    Labels : list Label.t;
    Author : Account.t;
    Assignees : list Account.t;
    Milestone : option Milestone.t }.
End Issue.

(** [repo.Feature]: the interface implemented by every entity. *)
Inductive Feature :=
  | FProvider (p : Provider.t)
  | FAccount (a : Account.t)
  | FRepository (r : Repository.t)
  | FLabel (l : Label.t)
  | FMilestone (m : Milestone.t)
  | FIssue (i : Issue.t).

(** Modelled from the spec: the method [GetID] of the entities is declared
    in package [repo]; it returns the ExternalID, the field [ID] under which
    [airtableSync] files the entity. *)
Definition GetID (f : Feature) : string :=
  match f with
  | FProvider p => Provider.ID p
  | FAccount a => Account.ID a
  | FRepository r => Repository.ID r
  | FLabel l => Label.ID l
  | FMilestone m => Milestone.ID m
  | FIssue i => Issue.ID i
  end.

(** ** Unique entries: [features]

    [features := make([]map[string]repo.Feature, airtabledb.NumTables)],
    every entry an empty map. *)

Definition FeatureMaps := TableKind → gmap string Feature.

Definition emptyFeatures : FeatureMaps := λ _, ∅.

(** [features[kind][id] = f] *)
Definition assign (features : FeatureMaps) (kind : TableKind) (id : string)
    (f : Feature) : FeatureMaps :=
  λ k, if decide (k = kind) then <[id := f]> (features k) else features k.

(** The body of [for _, issue := range filtered]. *)
Definition visit (features : FeatureMaps) (issue : Issue.t) : FeatureMaps :=
  let repository := Issue.Repository issue in
  (* providers *)
  let features :=
    assign features ProviderIndex
      (Provider.ID (Repository.Provider repository))
      (FProvider (Repository.Provider repository)) in
  (* labels *)
  let features :=
    foldl (λ fs label, assign fs LabelIndex (Label.ID label) (FLabel label))
      features (Issue.Labels issue) in
  (* accounts *)
  let features :=
    match Repository.Owner repository with
    | Some owner => assign features AccountIndex (Account.ID owner) (FAccount owner)
    | None => features
    end in
  let features :=
    assign features AccountIndex (Account.ID (Issue.Author issue))
      (FAccount (Issue.Author issue)) in
  let features :=
    foldl (λ fs assignee,
             assign fs AccountIndex (Account.ID assignee) (FAccount assignee))
      features (Issue.Assignees issue) in
  let features :=
    match Issue.Milestone issue with
    | Some milestone =>
        match Milestone.Creator milestone with
        | Some creator =>
            assign features AccountIndex (Account.ID creator) (FAccount creator)
        | None => features
        end
    | None => features
    end in
  (* repositories *)
  let features :=
    assign features RepositoryIndex (Repository.ID repository)
      (FRepository repository) in
  (* milestones *)
  let features :=
    match Issue.Milestone issue with
    | Some milestone =>
        assign features MilestoneIndex (Milestone.ID milestone)
          (FMilestone milestone)
    | None => features
    end in
  (* issue *)
  assign features IssueIndex (Issue.ID issue) (FIssue issue).

Definition collectFeatures (filtered : list Issue.t) : FeatureMaps :=
  foldl visit emptyFeatures filtered.

(** The discoveries made while visiting one issue, in the order in which
    the loop body meets them: the kind under which the entity is filed and
    the entity.  This is the traversal the spec speaks of; [visit] is the
    code. *)
Definition discoveries (issue : Issue.t) : list (TableKind * Feature) :=
  let repository := Issue.Repository issue in
  [(ProviderIndex, FProvider (Repository.Provider repository))]
  ++ ((λ label, (LabelIndex, FLabel label)) <$> Issue.Labels issue)
  ++ (match Repository.Owner repository with
      | Some owner => [(AccountIndex, FAccount owner)]
      | None => []
      end)
  ++ [(AccountIndex, FAccount (Issue.Author issue))]
  ++ ((λ assignee, (AccountIndex, FAccount assignee)) <$> Issue.Assignees issue)
  ++ (match Issue.Milestone issue with
      | Some milestone =>
          match Milestone.Creator milestone with
          | Some creator => [(AccountIndex, FAccount creator)]
          | None => []
          end
      | None => []
      end)
  ++ [(RepositoryIndex, FRepository repository)]
  ++ (match Issue.Milestone issue with
      | Some milestone => [(MilestoneIndex, FMilestone milestone)]
      | None => []
      end)
  ++ [(IssueIndex, FIssue issue)].

Definition traversal (filtered : list Issue.t) : list (TableKind * Feature) :=
  filtered ≫= discoveries.

(** The discoveries of one ExternalID under one kind. *)
Definition discovered (kind : TableKind) (id : string)
    (ds : list (TableKind * Feature)) : list Feature :=
  snd <$> filter (λ d, d.1 = kind ∧ GetID d.2 = id) ds.

(** Filing one discovery. *)
Definition file (features : FeatureMaps) (d : TableKind * Feature) : FeatureMaps :=
  assign features d.1 (GetID d.2) d.2.

(** ** Records and tables of package [airtabledb]

    Package [airtabledb] (states, records, tables, [DB]) is not part of the
    sources at hand; [airtableSync] shows the names and the arities of what
    it uses. *)

(** Modelled from the spec: the synchronisation states declared in
    [airtabledb]; [StateUnknown], the state of a fetched record, is the
    spec's Unmatched. *)
Inductive State := StateUnknown | StateUnchanged | StateChanged | StateNew.

#[global] Instance State_eq_dec : EqDecision State.
Proof. solve_decision. Defined.

(** Modelled from the spec: the synchronised fields of a record of
    [airtabledb]: the ExternalID used for matching, the scalars, and the
    link fields, each a name with the RemoteInternalIDs it holds. *)
Module Fields.
Record t := mk
  { ID : string; Scalars : string; Links : list (string * list string) }.
#[global] Instance eq_dec : EqDecision t.
Proof. solve_decision. Defined.
End Fields.

(** Modelled from the spec: a record of [airtabledb]: the
    RemoteInternalID (empty until the remote store assigns one), the
    synchronised fields and the synchronisation state. *)
Module Rec.
Record t := mk { ID : string; Fields : Fields.t; State : State }.
#[global] Instance eq_dec : EqDecision t.
Proof. solve_decision. Defined.
End Rec.

(** Modelled from the spec: a table of [airtabledb], the records of one
    kind in the order they were fetched or appended. *)
Abbreviation Table := (list Rec.t).

(** Modelled from the spec: [t.Len()] of [airtabledb]. *)
Definition Len (t : Table) : nat := List.length t.

(** Modelled from the spec: [t.GetFieldID(idx)] of [airtabledb], on the
    record found at [idx]: its ExternalID field. *)
Definition GetFieldID (r : Rec.t) : string := Fields.ID (Rec.Fields r).

(** Modelled from the spec: [t.RecordsEqual(idx, b)] of [airtabledb]:
    equality of the synchronised fields only, not of the internal ID or
    the state.  The loop calls it with [idx < t.Len()] only. *)
Definition RecordsEqual (t : Table) (idx : nat) (b : Rec.t) : bool :=
  match t !! idx with
  | Some a => bool_decide (Rec.Fields a = Rec.Fields b)
  | None => false
  end.

Definition withState (s : State) (r : Rec.t) : Rec.t :=
  Rec.mk (Rec.ID r) (Rec.Fields r) s.

Definition withFields (src : Rec.t) (r : Rec.t) : Rec.t :=
  Rec.mk (Rec.ID r) (Rec.Fields src) (Rec.State r).

(** Modelled from the spec: [t.SetState(idx, s)] of [airtabledb]. *)
Definition SetState (t : Table) (idx : nat) (s : State) : Table :=
  alter (withState s) idx t.

(** Modelled from the spec: [t.CopyFields(idx, src)] of [airtabledb]: the
    fields of [src] are staged onto the record at [idx], which keeps its
    internal ID. *)
Definition CopyFields (t : Table) (idx : nat) (src : Rec.t) : Table :=
  alter (withFields src) idx t.

(** Modelled from the spec: [t.Append(r)] of [airtabledb]. *)
Definition Append (t : Table) (r : Rec.t) : Table := t ++ [r].

(** Modelled from the spec: [airtabledb.DB], whose [Tables] holds one table
    per kind. *)
Definition DB := TableKind → Table.

(** Modelled from the spec: [airtabledb.NewDB()], every table empty. *)
Definition NewDB : DB := λ _, [].

(** [db.Tables[kind]] after the table of [kind] was mutated to [t]. *)
Definition setTable (db : DB) (kind : TableKind) (t : Table) : DB :=
  λ k, if decide (k = kind) then t else db k.

(** ** The remote store

    The Airtable client is an external collaborator; [Client] is the
    interface [airtableSync] uses through [at.Table(tableName)].  A row is
    a RemoteInternalID with its fields; an [error] is the message of a Go
    [error]. *)

Definition error := string.
Definition Row : Type := string * Fields.t.

Class Client (R : Type) := {
  (* table.List, as used by Fetch *)
  TableList : R → string → error + list Row;
  (* table.Create(ptr): on success the record receives its internal ID *)
  TableCreate : R → string → Rec.t → R * (error + string);
  TableUpdate : R → string → Rec.t → R * option error;
  TableDelete : R → string → Rec.t → R * option error
}.

(** The remote calls of a run, in the order they are issued: the kind, the
    position the passed pointer refers to in the table of that kind, the
    record as it is passed, and the error the call returns. *)
Inductive Call :=
  | CallList (kind : TableKind) (err : option error)
  | CallCreate (kind : TableKind) (r : Rec.t) (err : option error)
  | CallUpdate (kind : TableKind) (idx : nat) (r : Rec.t) (err : option error)
  | CallDelete (kind : TableKind) (idx : nat) (r : Rec.t) (err : option error).

Definition isCreate (c : Call) : bool :=
  match c with CallCreate _ _ _ => true | _ => false end.
Definition isUpdate (c : Call) : bool :=
  match c with CallUpdate _ _ _ _ => true | _ => false end.
Definition isDelete (c : Call) : bool :=
  match c with CallDelete _ _ _ _ => true | _ => false end.
Definition isMutation (c : Call) : bool := isCreate c || isUpdate c || isDelete c.

Definition callKind (c : Call) : TableKind :=
  match c with
  | CallList kind _ => kind
  | CallCreate kind _ _ => kind
  | CallUpdate kind _ _ _ => kind
  | CallDelete kind _ _ _ => kind
  end.

(** [airtableOptions]; [TableNames] is indexed by kind. *)
Record airtableOptions := {
  BaseID : string;
  Token : string;
  DestroyInvalidRecords : bool;
  TableNames : TableKind → string;
  Targets : list string
}.

(** What a run leaves behind. *)
Record Outcome (R : Type) := mkOutcome {
  out_remote : R;
  out_cache : DB;
  out_calls : list Call;
  out_err : option error
}.
Arguments mkOutcome {R}.
Arguments out_remote {R}.
Arguments out_cache {R}.
Arguments out_calls {R}.
Arguments out_err {R}.

(** Modelled from the spec: [t.Fetch(table)] of [airtabledb] loads every
    row of the remote table, each in the zero state [StateUnknown]. *)
Definition fetched (rows : list Row) : Table :=
  (λ row, Rec.mk row.1 row.2 StateUnknown) <$> rows.

(** The inner loop of the classification and the [if !matched] after it:
    the first [idx] whose field ID is the entry's ID is staged and the loop
    left; an entry that matches nothing is queued in [unmatched]. *)
Definition place (tableKind : TableKind) (cu : DB * DB) (dbEntry : Feature)
    (dbRecord : Rec.t) : DB * DB :=
  let '(cache, unmatched) := cu in
  let t := cache tableKind in
  match list_find (λ r, GetFieldID r = GetID dbEntry) t with
  | Some (idx, _) =>
      if RecordsEqual t idx dbRecord
      then (setTable cache tableKind (SetState t idx StateUnchanged), unmatched)
      else (setTable cache tableKind
              (SetState (CopyFields t idx dbRecord) idx StateChanged),
            unmatched)
  | None =>
      (cache, setTable unmatched tableKind (Append (unmatched tableKind) dbRecord))
  end.

Section Sync.
Context {R : Type} `{Client R}.

(** The kinds in ascending index order, which is the order of
    [range features] and of [range opts.TableNames]; the values of the
    index constants are declared in [airtabledb]. *)
Variable tableKinds : list TableKind.

(** The order in which [range featureMap] yields the entries of a map;
    Go leaves it unspecified. *)
Variable mapRange : gmap string Feature → list (string * Feature).

(** [dbEntry.ToRecord(cache)]: declared in package [repo]; it returns a
    record and nothing else. *)
Variable ToRecord : Feature → DB → Rec.t.

(** [issues.FilterByTargets(opts.Targets)] *)
Variable FilterByTargets : list Issue.t → list string → list Issue.t.

(** *** compute fields *)

(** The body of [for _, dbEntry := range featureMap]. *)
Definition classify (tableKind : TableKind) (cu : DB * DB) (dbEntry : Feature)
    : DB * DB :=
  let dbRecord := ToRecord dbEntry cu.1 in
  place tableKind cu dbEntry dbRecord.

Definition classifyKind (features : FeatureMaps) (cu : DB * DB)
    (tableKind : TableKind) : DB * DB :=
  foldl (classify tableKind) cu ((mapRange (features tableKind)).*2).

Definition computeFields (features : FeatureMaps) (cache : DB) : DB * DB :=
  foldl (classifyKind features) (cache, NewDB) tableKinds.

(** The entries in the order the two nested loops meet them, and the
    record built for each of them, from the cache as it is when the
    entry is met. *)
Definition workList (features : FeatureMaps) : list (TableKind * Feature) :=
  tableKinds ≫= λ kind, (λ f, (kind, f)) <$> (mapRange (features kind)).*2.

Fixpoint builtRecords (cu : DB * DB) (work : list (TableKind * Feature))
    : list (TableKind * Feature * Rec.t) :=
  match work with
  | [] => []
  | (kind, f) :: work' =>
      (kind, f, ToRecord f cu.1) :: builtRecords (classify kind cu f) work'
  end.

(** *** update airtable *)

(** [for i := 0; i < ut.Len(); i++]: the records of [ut] from [i] on. *)
Fixpoint createRecords (tableName : string) (kind : TableKind)
    (ut : list Rec.t) (r : R) (ct : Table)
    : R * Table * list Call * option error :=
  match ut with
  | [] => (r, ct, [], None)
  | u :: ut' =>
      match TableCreate r tableName u with
      | (r', inl e) => (r', ct, [CallCreate kind u (Some e)], Some e)
      | (r', inr id) =>
          let u' := withState StateNew (Rec.mk id (Rec.Fields u) (Rec.State u)) in
          let '(r'', ct', cs, e) := createRecords tableName kind ut' r' (Append ct u') in
          (r'', ct', CallCreate kind u None :: cs, e)
      end
  end.

(** [for i := 0; i < ct.Len(); i++ { switch ct.GetState(i) ... }]: the
    records of [ct] from [i] on. *)
Fixpoint sweep (tableName : string) (kind : TableKind) (i : nat)
    (ct : list Rec.t) (r : R) : R * list Call :=
  match ct with
  | [] => (r, [])
  | c :: ct' =>
      match Rec.State c with
      | StateUnknown =>
          let '(r', e) := TableDelete r tableName c in
          let '(r'', cs) := sweep tableName kind (S i) ct' r' in
          (r'', CallDelete kind i c e :: cs)
      | StateChanged =>
          let '(r', e) := TableUpdate r tableName c in
          let '(r'', cs) := sweep tableName kind (S i) ct' r' in
          (r'', CallUpdate kind i c e :: cs)
      | StateUnchanged => sweep tableName kind (S i) ct' r
      | StateNew => sweep tableName kind (S i) ct' r
      end
  end.

(** The body of the second [for tableKind, tableName := range
    opts.TableNames]: the creations, then the pass over the cached table;
    a failed creation returns its error at once. *)
Definition applyKind (tableName : string) (tableKind : TableKind)
    (ut ct : Table) (r : R) : R * Table * list Call * option error :=
  match createRecords tableName tableKind ut r ct with
  | (r1, ct', cs1, Some e) => (r1, ct', cs1, Some e)
  | (r1, ct', cs1, None) =>
      let '(r2, cs2) := sweep tableName tableKind 0 ct' r1 in
      (r2, ct', cs1 ++ cs2, None)
  end.

Fixpoint updateAirtable (opts : airtableOptions) (kinds : list TableKind)
    (unmatched : DB) (r : R) (cache : DB) : Outcome R :=
  match kinds with
  | [] => mkOutcome r cache [] None
  | tableKind :: kinds' =>
      match applyKind (TableNames opts tableKind) tableKind
              (unmatched tableKind) (cache tableKind) r with
      | (r', ct, cs, Some e) =>
          mkOutcome r' (setTable cache tableKind ct) cs (Some e)
      | (r', ct, cs, None) =>
          let out :=
            updateAirtable opts kinds' unmatched r' (setTable cache tableKind ct) in
          mkOutcome (out_remote out) (out_cache out) (cs ++ out_calls out)
            (out_err out)
      end
  end.

(** *** fetch remote data

    [for tableKind, tableName := range opts.TableNames], first loop. *)
Fixpoint fetchTables (opts : airtableOptions) (kinds : list TableKind)
    (r : R) (cache : DB) : DB * list Call * option error :=
  match kinds with
  | [] => (cache, [], None)
  | tableKind :: kinds' =>
      match TableList r (TableNames opts tableKind) with
      | inl e => (cache, [CallList tableKind (Some e)], Some e)
      | inr rows =>
          let '(cache', cs, e) :=
            fetchTables opts kinds' r (setTable cache tableKind (fetched rows)) in
          (cache', CallList tableKind None :: cs, e)
      end
  end.

(** *** [airtableSync]

    [loaded] is what [loadIssues(nil)] returns. *)
Definition airtableSync (opts : airtableOptions)
    (loaded : error + list Issue.t) (r : R) : Outcome R :=
  if bool_decide (BaseID opts = "") || bool_decide (Token opts = "")
  then mkOutcome r NewDB [] (Some "missing token or baseid, check '-h'")
  else
    match loaded with
    | inl e => mkOutcome r NewDB [] (Some (String.append "failed to load issues: " e))
    | inr issues =>
        let filtered := FilterByTargets issues (Targets opts) in
        let features := collectFeatures filtered in
        match fetchTables opts tableKinds r NewDB with
        | (cache, cs, Some e) => mkOutcome r cache cs (Some e)
        | (cache, cs, None) =>
            let '(cache, unmatched) := computeFields features cache in
            let out := updateAirtable opts tableKinds unmatched r cache in
            mkOutcome (out_remote out) (out_cache out) (cs ++ out_calls out) (out_err out)
        end
    end.

End Sync.

(** ** The [sync] subcommand

    The [RunE] closure of [airtableSyncCommand]. *)

(** [opts.Targets = targets] *)
Definition withTargets (targets : list string) (opts : airtableOptions)
    : airtableOptions :=
  {| BaseID := BaseID opts; Token := Token opts;
     DestroyInvalidRecords := DestroyInvalidRecords opts;
     TableNames := TableNames opts; Targets := targets |}.

Section SyncCommand.
Context {R : Type} `{Client R}.
Variable tableKinds : list TableKind.
Variable mapRange : gmap string Feature → list (string * Feature).
Variable ToRecord : Feature → DB → Rec.t.
Variable FilterByTargets : list Issue.t → list string → list Issue.t.

(** [repo.ParseTargets(args)], declared in package [repo]. *)
Variable ParseTargets : list string → error + list string.

(** [opts := cmd.opts] copies the options of the command, the parsed
    arguments become the [Targets] of the copy, and [airtableSync] runs on
    it; arguments that do not parse return the wrapped error at once. *)
Definition airtableSyncCommand (cmd_opts : airtableOptions) (args : list string)
    (loaded : error + list Issue.t) (r : R) : Outcome R :=
  match ParseTargets args with
  | inl e => mkOutcome r NewDB [] (Some (String.append "invalid targets: " e))
  | inr targets =>
      airtableSync tableKinds mapRange ToRecord FilterByTargets
        (withTargets targets cmd_opts) loaded r
  end.

End SyncCommand.

(** ** A record builder and a remote store to run the command against *)

(** Modelled from the spec: the lookup of a referenced ExternalID in a
    cached table: the internal ID of the first record of [t] whose field
    ID is [id], the empty string when there is none. *)
Definition FindByID (t : Table) (id : string) : string :=
  match list_find (λ r, GetFieldID r = id) t with
  | Some (_, r) => Rec.ID r
  | None => ""
  end.

(** Modelled from the spec: [ToRecord] of package [repo] is not part of the
    sources at hand.  Scalar fields copy directly; a reference field
    resolves by looking up the referenced entity's ExternalID in the cached
    table of the referenced kind and substituting its RemoteInternalID.
    The call site binds one result, a record: a reference without a cached
    target yields a record all the same, with the empty internal ID. *)
Definition toRecord (f : Feature) (cache : DB) : Rec.t :=
  let account (a : Account.t) := FindByID (cache AccountIndex) (Account.ID a) in
  let build id attrs links := Rec.mk "" (Fields.mk id attrs links) StateUnknown in
  match f with
  | FProvider p => build (Provider.ID p) (Provider.Attrs p) []
  | FAccount a => build (Account.ID a) (Account.Attrs a) []
  | FLabel l => build (Label.ID l) (Label.Attrs l) []
  | FRepository r =>
      build (Repository.ID r) (Repository.Attrs r)
        [("Provider",
          [FindByID (cache ProviderIndex) (Provider.ID (Repository.Provider r))]);
         ("Owner", account <$> from_option (λ a, [a]) [] (Repository.Owner r))]
  | FMilestone m =>
      build (Milestone.ID m) (Milestone.Attrs m)
        [("Creator", account <$> from_option (λ a, [a]) [] (Milestone.Creator m))]
  | FIssue i =>
      build (Issue.ID i) (Issue.Attrs i)
        [("Repository",
          [FindByID (cache RepositoryIndex) (Repository.ID (Issue.Repository i))]);
         ("Labels",
          (λ l, FindByID (cache LabelIndex) (Label.ID l)) <$> Issue.Labels i);
         ("Author", [account (Issue.Author i)]);
         ("Assignees", account <$> Issue.Assignees i);
         ("Milestone",
          (λ m, FindByID (cache MilestoneIndex) (Milestone.ID m))
            <$> from_option (λ m, [m]) [] (Issue.Milestone i))]
  end.

(** Modelled from the spec: the remote tabular service is an external
    collaborator.  One named table of rows per kind; [Create] assigns a
    fresh internal ID, [Update] replaces the fields of the row with the
    given internal ID, [Delete] removes it.  A call on a table that does
    not exist fails; so does a write of a row whose ExternalID the service
    refuses ([refused]), and an update or delete of a row that is not
    there. *)
Record Store := mkStore {
  tables : gmap string (list Row);
  nextID : nat;
  refused : list string
}.

Definition freshID (n : nat) : string :=
  String.append "rec" (NilEmpty.string_of_uint (Nat.to_uint n)).

Definition storeList (s : Store) (name : string) : error + list Row :=
  match tables s !! name with
  | Some rows => inr rows
  | None => inl "TABLE_NOT_FOUND"
  end.

Definition storeCreate (s : Store) (name : string) (r : Rec.t)
    : Store * (error + string) :=
  match tables s !! name with
  | None => (s, inl "TABLE_NOT_FOUND")
  | Some rows =>
      if decide (GetFieldID r ∈ refused s) then (s, inl "INVALID_REQUEST")
      else
        let id := freshID (nextID s) in
        (mkStore (<[name := rows ++ [(id, Rec.Fields r)]]> (tables s))
           (S (nextID s)) (refused s),
         inr id)
  end.

Definition storeUpdate (s : Store) (name : string) (r : Rec.t)
    : Store * option error :=
  match tables s !! name with
  | None => (s, Some "TABLE_NOT_FOUND")
  | Some rows =>
      if decide (GetFieldID r ∈ refused s) then (s, Some "INVALID_REQUEST")
      else if decide (Rec.ID r ∈ rows.*1) then
        (mkStore
           (<[name := (λ row : Row, if decide (row.1 = Rec.ID r)
                                    then (row.1, Rec.Fields r) else row) <$> rows]>
              (tables s))
           (nextID s) (refused s),
         None)
      else (s, Some "NOT_FOUND")
  end.

Definition storeDelete (s : Store) (name : string) (r : Rec.t)
    : Store * option error :=
  match tables s !! name with
  | None => (s, Some "TABLE_NOT_FOUND")
  | Some rows =>
      if decide (Rec.ID r ∈ rows.*1) then
        (mkStore (<[name := filter (λ row : Row, row.1 ≠ Rec.ID r) rows]> (tables s))
           (nextID s) (refused s),
         None)
      else (s, Some "NOT_FOUND")
  end.

#[global] Instance Store_Client : Client Store := {
  TableList := storeList;
  TableCreate := storeCreate;
  TableUpdate := storeUpdate;
  TableDelete := storeDelete
}.

(** The table names [ParseFlags] installs. *)
Definition defaultTableNames (kind : TableKind) : string :=
  match kind with
  | IssueIndex => "Issues and PRs"
  | RepositoryIndex => "Repositories"
  | AccountIndex => "Accounts"
  | LabelIndex => "Labels"
  | MilestoneIndex => "Milestones"
  | ProviderIndex => "Providers"
  end.

(** The kinds in the order the dependencies run: a kind comes after the
    kinds it references. *)
Definition dependencyOrder : list TableKind :=
  [ProviderIndex; AccountIndex; RepositoryIndex; LabelIndex; MilestoneIndex;
   IssueIndex].

Definition emptyStore : Store :=
  mkStore (list_to_map ((λ k, (defaultTableNames k, [])) <$> dependencyOrder)) 0 [].

Definition syncStore (opts : airtableOptions) (issues : list Issue.t) (s : Store)
    : Outcome Store :=
  airtableSync dependencyOrder map_to_list toRecord (λ issues _, issues)
    opts (inr issues) s.

(** ** Vocabulary of the properties *)

(** A call the pass over the table [ct] can issue: a Delete for a record
    it finds in [StateUnknown], an Update for one it finds in
    [StateChanged], with the place of the record in the table. *)
Definition sweepCall (kind : TableKind) (ct : Table) (c : Call) : Prop :=
  ∃ j rec e, ct !! j = Some rec
    ∧ ((Rec.State rec = StateUnknown ∧ c = CallDelete kind j rec e)
       ∨ (Rec.State rec = StateChanged ∧ c = CallUpdate kind j rec e)).

(** The first record of [t] whose field ID is [id], with its place: what
    the inner loop of the classification looks for. *)
Definition findIdx (t : Table) (id : string) : option (nat * Rec.t) :=
  list_find (λ r, GetFieldID r = id) t.

(** What the classification leaves in place of a matched record [rec0]
    when the record built for the entry is [b]. *)
Definition staged (rec0 b : Rec.t) : Rec.t :=
  if decide (Rec.Fields rec0 = Rec.Fields b) then withState StateUnchanged rec0
  else withState StateChanged (withFields b rec0).

(** An entry of the feature maps with the record built for it. *)
Definition entry : Type := TableKind * Feature * Rec.t.

Definition entryKey (e : entry) : TableKind * string := (e.1.1, GetID e.1.2).

(** The classification of one entry, its record given. *)
Definition stage (cu : DB * DB) (e : entry) : DB * DB := place e.1.1 cu e.1.2 e.2.

(** The entry matches the record cached at [idx] in the table of [k]. *)
Definition hits (c0 : DB) (e : entry) (k : TableKind) (idx : nat) : Prop :=
  e.1.1 = k ∧ fst <$> findIdx (c0 k) (GetID e.1.2) = Some idx.

#[global] Instance hits_dec c0 e k idx : Decision (hits c0 e k idx).
Proof. unfold hits. apply _. Defined.

(** The entry is of kind [k] and matches no cached record. *)
Definition misses (c0 : DB) (k : TableKind) (e : entry) : Prop :=
  e.1.1 = k ∧ findIdx (c0 k) (GetID e.1.2) = None.

#[global] Instance misses_dec c0 k e : Decision (misses c0 k e).
Proof. unfold misses. apply _. Defined.

(** The outcome [cu] of classifying the entries [es] against the cache
    [c0], with [u0] already queued. *)
Record Classified (c0 u0 : DB) (es : list entry) (cu : DB * DB) : Prop := {
  cl_fieldIDs : ∀ k, GetFieldID <$> cu.1 k = GetFieldID <$> c0 k;
  cl_IDs : ∀ k, Rec.ID <$> cu.1 k = Rec.ID <$> c0 k;
  cl_hit : ∀ e k idx rec0,
    e ∈ es → hits c0 e k idx → c0 k !! idx = Some rec0 →
    cu.1 k !! idx = Some (staged rec0 e.2);
  cl_rest : ∀ k idx,
    (∀ e, e ∈ es → ¬ hits c0 e k idx) → cu.1 k !! idx = c0 k !! idx;
  cl_unmatched : ∀ k, cu.2 k = u0 k ++ (snd <$> filter (misses c0 k) es)
}.

#[global] Instance Call_eq_dec : EqDecision Call.
Proof. solve_decision. Defined.

(** The call returned no error. *)
Definition callOk (c : Call) : Prop :=
  match c with
  | CallList _ e | CallCreate _ _ e | CallUpdate _ _ _ e | CallDelete _ _ _ e =>
      e = None
  end.

#[global] Instance callOk_dec c : Decision (callOk c).
Proof. destruct c; simpl; apply _. Defined.

(** Internal IDs are unique within a table, and the IDs the store has yet
    to hand out are in no table. *)
Definition wfStore (s : Store) : Prop :=
  ∀ name rows, tables s !! name = Some rows →
    NoDup rows.*1 ∧ ∀ m, (nextID s ≤ m)%nat → freshID m ∉ rows.*1.

(** The row a cached record stands for, unless the pass deletes it. *)
Definition kept (rec : Rec.t) : option Row :=
  match Rec.State rec with
  | StateUnknown => None
  | _ => Some (Rec.ID rec, Rec.Fields rec)
  end.

(** The rows the creations add, from the next free ID on. *)
Definition createdRows (next : nat) (ut : Table) : list Row :=
  zip (freshID <$> seq next (length ut)) (Rec.Fields <$> ut).

(** The records the creations append to the cached table. *)
Definition createdRecords (next : nat) (ut : Table) : Table :=
  (λ row : Row, Rec.mk row.1 row.2 StateNew) <$> createdRows next ut.

(** The table of [kind] in the store and the cached table of [kind] hold
    the same rows: the same internal IDs in the same places, and the same
    fields wherever the classification staged nothing. *)
Definition inSync (opts : airtableOptions) (s : Store) (cache : DB)
    (kind : TableKind) : Prop :=
  ∃ rows, tables s !! TableNames opts kind = Some rows
    ∧ rows.*1 = Rec.ID <$> cache kind
    ∧ ∀ j rec row, cache kind !! j = Some rec → rows !! j = Some row →
        Rec.State rec = StateUnchanged ∨ Rec.State rec = StateNew →
        row.2 = Rec.Fields rec.

(** The row of the remote table [name] whose ExternalID is [id], its
    internal ID, and what it stores in the link field [field]. *)
Definition rowOf (s : Store) (name id : string) : option Row :=
  rows ← tables s !! name;
  snd <$> list_find (λ row : Row, Fields.ID row.2 = id) rows.

Definition internalID (s : Store) (name id : string) : option string :=
  fst <$> rowOf s name id.

Definition storedLink (s : Store) (name id field : string) : option (list string) :=
  row ← rowOf s name id;
  (λ p : nat * (string * list string), p.2.2)
    <$> list_find (λ l : string * list string, l.1 = field) (Fields.Links row.2).

(** The options with the destructive-action flag set to [b]. *)
Definition withDestroy (b : bool) (opts : airtableOptions) : airtableOptions :=
  {| BaseID := BaseID opts; Token := Token opts; DestroyInvalidRecords := b;
     TableNames := TableNames opts; Targets := Targets opts |}.

(** The slice index under which the loop body of the de-duplication files
    an entity of each type. *)
Definition kindOf (f : Feature) : TableKind :=
  match f with
  | FProvider _ => ProviderIndex
  | FAccount _ => AccountIndex
  | FRepository _ => RepositoryIndex
  | FLabel _ => LabelIndex
  | FMilestone _ => MilestoneIndex
  | FIssue _ => IssueIndex
  end.

(** The entities an entity points to, each with the kind it is filed
    under and its ExternalID: the fields the loop body follows. *)
Definition referencesOf (f : Feature) : list (TableKind * string) :=
  match f with
  | FProvider _ | FAccount _ | FLabel _ => []
  | FRepository r =>
      (ProviderIndex, Provider.ID (Repository.Provider r))
      :: ((λ a, (AccountIndex, Account.ID a)) <$> option_list (Repository.Owner r))
  | FMilestone m =>
      (λ a, (AccountIndex, Account.ID a)) <$> option_list (Milestone.Creator m)
  | FIssue i =>
      (RepositoryIndex, Repository.ID (Issue.Repository i))
      :: ((λ l, (LabelIndex, Label.ID l)) <$> Issue.Labels i)
      ++ (AccountIndex, Account.ID (Issue.Author i))
      :: ((λ a, (AccountIndex, Account.ID a)) <$> Issue.Assignees i)
      ++ ((λ m, (MilestoneIndex, Milestone.ID m)) <$> option_list (Issue.Milestone i))
  end.

(** The place in the cached table an Update or a Delete refers to. *)
Definition callIdx (c : Call) : option nat :=
  match c with
  | CallUpdate _ idx _ _ | CallDelete _ idx _ _ => Some idx
  | CallList _ _ | CallCreate _ _ _ => None
  end.

(** The calls of a log issued for the record at [idx] of the cached table
    of [kind]. *)
Definition callsAt (kind : TableKind) (idx : nat) (cs : list Call) : list Call :=
  filter (λ c, callKind c = kind ∧ callIdx c = Some idx) cs.

(** What the pass over a cached table issues for the record [rec] it
    finds at [idx], [e] being what the remote call returns. *)
Definition callFor (kind : TableKind) (idx : nat) (rec : Rec.t) (e : option error)
    : list Call :=
  match Rec.State rec with
  | StateUnknown => [CallDelete kind idx rec e]
  | StateChanged => [CallUpdate kind idx rec e]
  | StateUnchanged | StateNew => []
  end.

(** The store [s'] has the tables of [s] and differs from it in the
    tables [names] at most. *)
Definition sameTablesBut (names : list string) (s s' : Store) : Prop :=
  dom (tables s') = dom (tables s)
  ∧ ∀ n, n ∉ names → tables s' !! n = tables s !! n.

(** The caches [c] and [c'] hold, kind by kind and place by place,
    records with the same internal IDs and the same ExternalIDs. *)
Definition sameColumns (c c' : DB) : Prop :=
  ∀ k, Rec.ID <$> c k = Rec.ID <$> c' k ∧ GetFieldID <$> c k = GetFieldID <$> c' k.

(** ** Graphs and stores to run the command on *)

Definition exProvider : Provider.t := Provider.mk "github" "GitHub".
Definition exAlice : Account.t := Account.mk "ext-42" "alice".
Definition exBob : Account.t := Account.mk "ext-43" "bob".
Definition exRepository : Repository.t :=
  Repository.mk "repo-1" "depviz" exProvider (Some exAlice).

(** An issue of [exRepository], which [exAlice] owns, written by [exAlice]. *)
Definition exIssue : Issue.t :=
  Issue.mk "issue-1" "sync" exRepository [] exAlice [] None.

(** The same issue, assigned to [exBob]. *)
Definition exAssigned : Issue.t :=
  Issue.mk "issue-1" "sync" exRepository [] exAlice [exBob] None.

Definition exOpts : airtableOptions :=
  {| BaseID := "appBase"; Token := "keyToken"; DestroyInvalidRecords := false;
     TableNames := defaultTableNames; Targets := [] |}.

(** The order in which [ParseFlags] fills [TableNames]. *)
Definition flagOrder : list TableKind :=
  [IssueIndex; RepositoryIndex; AccountIndex; LabelIndex; MilestoneIndex;
   ProviderIndex].

(** A base without tables. *)
Definition noTables : Store := mkStore ∅ 0 [].

(** A store whose Accounts table holds a row no issue accounts for. *)
Definition strayStore : Store :=
  mkStore (<["Accounts" := [("rec0", Fields.mk "ext-7" "carol" [])]]> (tables emptyStore))
    1 [].

(** The cache after fetching [strayStore]. *)
Definition strayCache : DB := (fetchTables exOpts dependencyOrder strayStore NewDB).1.1.

(** A store that refuses to write [exBob]'s account. *)
Definition refusingBob : Store := mkStore (tables emptyStore) 0 ["ext-43"].

Definition bobRecord : Rec.t := Rec.mk "" (Fields.mk "ext-43" "bob" []) StateUnknown.
Definition aliceRecord : Rec.t := Rec.mk "" (Fields.mk "ext-42" "alice" []) StateUnknown.

(** The record built for [exRepository] against a cache without its
    provider and its owner. *)
Definition repositoryRecord : Rec.t :=
  Rec.mk "" (Fields.mk "repo-1" "depviz" [("Provider", [""]); ("Owner", [""])])
    StateUnknown.

Definition issueRecord : Rec.t :=
  Rec.mk ""
    (Fields.mk "issue-1" "sync"
       [("Repository", [""]); ("Labels", []); ("Author", [""]);
        ("Assignees", []); ("Milestone", [])])
    StateUnknown.

(** The store after a first run for [exIssue] from nothing: the rows of
    the repository and of the issue carry empty references. *)
Definition staleStore : Store := out_remote (syncStore exOpts [exIssue] emptyStore).

(** A base with the Providers table only. *)
Definition providersOnly : Store := mkStore {["Providers" := []]} 0 [].

(** A store whose Accounts table holds [exAlice]'s row twice. *)
Definition duplicateStore : Store :=
  mkStore
    (<["Accounts" := [("rec0", Fields.mk "ext-42" "alice" []);
                      ("rec1", Fields.mk "ext-42" "alice" [])]]> (tables emptyStore))
    2 [].

(** [staleStore] with one more account, which no issue accounts for. *)
Definition driftedStore : Store :=
  mkStore
    (<["Accounts" := [("rec1", Fields.mk "ext-42" "alice" []);
                      ("rec4", Fields.mk "ext-7" "carol" [])]]> (tables staleStore))
    5 [].

(** A target parser that refuses an empty target. *)
Definition exParseTargets (args : list string) : error + list string :=
  if decide ("" ∈ args) then inl "empty target" else inr args.

(** ** Properties of the de-duplication *)

Lemma foldl_file_fmap {A} (g : A → TableKind * Feature) (l : list A) fs :
  foldl file fs (g <$> l) = foldl (λ fs a, file fs (g a)) fs l.
Proof. revert fs. induction l as [|a l IH]; intros fs; [done|]. apply IH. Qed.

Lemma visit_discoveries features issue :
  visit features issue = foldl file features (discoveries issue).
Proof.
  unfold visit, discoveries.
  rewrite !foldl_app, !foldl_file_fmap. unfold file. simpl.
  destruct (Repository.Owner (Issue.Repository issue));
    destruct (Issue.Milestone issue) as [m|]; simpl; try done.
  all: destruct (Milestone.Creator m); done.
Qed.

Lemma collectFeatures_traversal filtered :
  collectFeatures filtered = foldl file emptyFeatures (traversal filtered).
Proof.
  unfold collectFeatures, traversal. generalize emptyFeatures.
  induction filtered as [|issue filtered IH]; intros fs; [done|].
  rewrite bind_cons, foldl_app, <- visit_discoveries. apply IH.
Qed.

Lemma file_lookup features d kind id :
  file features d kind !! id
  = if decide (d.1 = kind ∧ GetID d.2 = id) then Some d.2 else features kind !! id.
Proof.
  unfold file, assign. destruct d as [k f]; simpl.
  destruct (decide (kind = k)) as [->|Hk].
  - destruct (decide (GetID f = id)) as [->|Hid].
    + rewrite lookup_insert_eq. by rewrite decide_True.
    + rewrite lookup_insert_ne by done. rewrite decide_False; [done|]. naive_solver.
  - rewrite decide_False; [done|]. naive_solver.
Qed.

Lemma foldl_file_lookup ds features kind id :
  foldl file features ds kind !! id
  = match last (discovered kind id ds) with
    | Some f => Some f
    | None => features kind !! id
    end.
Proof.
  revert features. induction ds as [|d ds IH]; intros features; [done|].
  simpl. rewrite IH. unfold discovered. rewrite filter_cons.
  rewrite file_lookup.
  destruct (decide (d.1 = kind ∧ GetID d.2 = id)) as [Hd|Hd]; [|done].
  rewrite fmap_cons, last_cons.
  by destruct (last _).
Qed.

Lemma collectFeatures_lookup filtered kind id :
  collectFeatures filtered kind !! id
  = last (discovered kind id (traversal filtered)).
Proof.
  rewrite collectFeatures_traversal, foldl_file_lookup.
  by destruct (last _).
Qed.

Lemma last_discovered_id kind id ds f :
  last (discovered kind id ds) = Some f → GetID f = id.
Proof.
  intros H. apply last_Some_elem_of in H. unfold discovered in H.
  apply list_elem_of_fmap in H as ([k g] & -> & Hin).
  apply list_elem_of_filter in Hin as [[_ Hid] _]. done.
Qed.

(** Every entry of [features] is filed under its own [GetID]. *)
Lemma collectFeatures_key filtered kind id f :
  collectFeatures filtered kind !! id = Some f → GetID f = id.
Proof. rewrite collectFeatures_lookup. apply last_discovered_id. Qed.

Lemma NoDup_fst_filter_length {A} (l : list (string * A)) (id : string) :
  NoDup (l.*1) →
  length (filter (λ kv, kv.1 = id) l) = if decide (id ∈ l.*1) then 1 else 0.
Proof.
  induction l as [|[k w] l IH]; intros Hnd; [done|].
  rewrite fmap_cons in Hnd. apply NoDup_cons in Hnd as [Hk Hnd].
  specialize (IH Hnd). rewrite filter_cons, fmap_cons. simpl in *.
  destruct (decide (k = id)) as [->|Hne].
  - rewrite decide_True by set_solver. simpl. f_equal.
    by rewrite IH, decide_False.
  - rewrite IH. destruct (decide (id ∈ l.*1)).
    + by rewrite decide_True by set_solver.
    + by rewrite decide_False by set_solver.
Qed.

Lemma map_to_list_key_count {A} (m : gmap string A) (id : string) :
  length (filter (λ kv, kv.1 = id) (map_to_list m))
  = match m !! id with Some _ => 1 | None => 0 end.
Proof.
  rewrite NoDup_fst_filter_length by apply NoDup_fst_map_to_list.
  destruct (m !! id) as [v|] eqn:Hm.
  - rewrite decide_True; [done|].
    apply list_elem_of_fmap. exists (id, v). split; [done|].
    by apply elem_of_map_to_list.
  - rewrite decide_False; [done|].
    intros ([k v] & -> & Hin)%list_elem_of_fmap.
    apply elem_of_map_to_list in Hin. simpl in Hm. congruence.
Qed.

(** C8: for every kind and every ExternalID, the entry of [features] is the
    latest discovery of that ExternalID under that kind in the traversal
    of the filtered issues (none when it was never discovered), the map of
    the kind holds exactly one entry for a discovered ExternalID, and
    [collectFeatures] is a total function: it has no error result. *)
Theorem dedup_latest_discovery_wins (filtered : list Issue.t)
    (kind : TableKind) (id : string) :
  let found := discovered kind id (traversal filtered) in
  collectFeatures filtered kind !! id = last found
  ∧ length (filter (λ kv, kv.1 = id) (map_to_list (collectFeatures filtered kind)))
    = match last found with Some _ => 1 | None => 0 end.
Proof.
  simpl. split; [apply collectFeatures_lookup|].
  by rewrite map_to_list_key_count, collectFeatures_lookup.
Qed.

(** ** The calls of the update phase *)

Section Apply.
Context {R : Type} `{Client R}.

Lemma createRecords_inv tableName kind ut : ∀ r ct r' ct' cs e,
  createRecords tableName kind ut r ct = (r', ct', cs, e) →
  ∃ created n,
    ct' = ct ++ created
    ∧ Forall (λ u, Rec.State u = StateNew) created
    ∧ Rec.Fields <$> created = Rec.Fields <$> take n ut
    ∧ match e with
      | None => n = length ut ∧ cs = (λ u, CallCreate kind u None) <$> ut
      | Some msg =>
          ∃ u, ut !! n = Some u
               ∧ cs = ((λ u, CallCreate kind u None) <$> take n ut)
                      ++ [CallCreate kind u (Some msg)]
      end.
Proof.
  induction ut as [|u ut IH]; intros r ct r' ct' cs e Hrun; simpl in Hrun.
  - inversion Hrun; subst. exists [], 0. by rewrite app_nil_r.
  - destruct (TableCreate r tableName u) as [r1 [msg|id]].
    + inversion Hrun; subst. exists [], 0. rewrite app_nil_r.
      repeat split; [constructor|]. by exists u.
    + destruct (createRecords tableName kind ut r1 _)
        as [[[r2 ct2] cs2] e2] eqn:Hrec.
      inversion Hrun; subst. clear Hrun.
      apply IH in Hrec as (created & n & -> & Hnew & Hfields & Hcalls).
      exists (withState StateNew (Rec.mk id (Rec.Fields u) (Rec.State u)) :: created),
        (S n).
      unfold Append. rewrite <- app_assoc. csimpl.
      repeat split; [by constructor | by rewrite Hfields |].
      destruct e as [msg|].
      * destruct Hcalls as (v & Hv & ->). by exists v.
      * destruct Hcalls as [-> ->]. done.
Qed.

Lemma sweep_sound tableName kind ct : ∀ i r r' cs c,
  sweep tableName kind i ct r = (r', cs) → c ∈ cs →
  ∃ j rec e, ct !! j = Some rec
    ∧ ((Rec.State rec = StateUnknown ∧ c = CallDelete kind (i + j) rec e)
       ∨ (Rec.State rec = StateChanged ∧ c = CallUpdate kind (i + j) rec e)).
Proof.
  induction ct as [|rec ct IH]; intros i r r' cs c Hrun Hc; simpl in Hrun.
  - inversion Hrun; subst. by apply elem_of_nil in Hc.
  - assert (Hshift : ∀ r1 cs1, sweep tableName kind (S i) ct r1 = (r', cs1) →
              c ∈ cs1 →
              ∃ j rec0 e, (rec :: ct) !! j = Some rec0
                ∧ ((Rec.State rec0 = StateUnknown
                    ∧ c = CallDelete kind (i + j) rec0 e)
                   ∨ (Rec.State rec0 = StateChanged
                      ∧ c = CallUpdate kind (i + j) rec0 e))).
    { intros r1 cs1 Hrec Hin.
      destruct (IH _ _ _ _ _ Hrec Hin) as (j & rec0 & e & Hj & Hcase).
      exists (S j), rec0, e. split; [done|].
      by replace (i + S j) with (S i + j) by lia. }
    destruct (Rec.State rec) eqn:Hstate; eauto.
    + destruct (TableDelete r tableName rec) as [r1 e].
      destruct (sweep tableName kind (S i) ct r1) as [r2 cs1] eqn:Hrec.
      inversion Hrun; subst. apply elem_of_cons in Hc as [->|Hc]; eauto.
      exists 0, rec, e. rewrite Nat.add_0_r. auto.
    + destruct (TableUpdate r tableName rec) as [r1 e].
      destruct (sweep tableName kind (S i) ct r1) as [r2 cs1] eqn:Hrec.
      inversion Hrun; subst. apply elem_of_cons in Hc as [->|Hc]; eauto.
      exists 0, rec, e. rewrite Nat.add_0_r. auto.
Qed.

Lemma sweep_complete tableName kind ct : ∀ i r r' cs j rec,
  sweep tableName kind i ct r = (r', cs) → ct !! j = Some rec →
  (Rec.State rec = StateUnknown → ∃ e, CallDelete kind (i + j) rec e ∈ cs)
  ∧ (Rec.State rec = StateChanged → ∃ e, CallUpdate kind (i + j) rec e ∈ cs).
Proof.
  induction ct as [|rec0 ct IH]; intros i r r' cs j rec Hrun Hj; [done|].
  simpl in Hrun.
  assert (Hshift : ∀ r1 cs1 j', sweep tableName kind (S i) ct r1 = (r', cs1) →
            ct !! j' = Some rec → cs1 ⊆ cs →
            (Rec.State rec = StateUnknown →
             ∃ e, CallDelete kind (i + S j') rec e ∈ cs)
            ∧ (Rec.State rec = StateChanged →
               ∃ e, CallUpdate kind (i + S j') rec e ∈ cs)).
  { intros r1 cs1 j' Hrec Hj' Hsub.
    destruct (IH _ _ _ _ _ _ Hrec Hj') as [Hd Hu].
    replace (i + S j') with (S i + j') by lia.
    split; intros Hs; [destruct (Hd Hs) as [e He]|destruct (Hu Hs) as [e He]];
      exists e; by apply Hsub. }
  destruct j as [|j]; simpl in Hj.
  - inversion Hj; subst rec0. rewrite Nat.add_0_r.
    split; intros Hs; rewrite Hs in Hrun.
    + destruct (TableDelete r tableName rec) as [r1 e].
      destruct (sweep tableName kind (S i) ct r1) as [r2 cs1].
      inversion Hrun; subst. exists e. apply elem_of_cons; auto.
    + destruct (TableUpdate r tableName rec) as [r1 e].
      destruct (sweep tableName kind (S i) ct r1) as [r2 cs1].
      inversion Hrun; subst. exists e. apply elem_of_cons; auto.
  - destruct (Rec.State rec0); eauto.
    + destruct (TableDelete r tableName rec0) as [r1 e].
      destruct (sweep tableName kind (S i) ct r1) as [r2 cs1] eqn:Hrec.
      inversion Hrun; subst. eapply Hshift; eauto. set_solver.
    + destruct (TableUpdate r tableName rec0) as [r1 e].
      destruct (sweep tableName kind (S i) ct r1) as [r2 cs1] eqn:Hrec.
      inversion Hrun; subst. eapply Hshift; eauto. set_solver.
Qed.

Lemma applyKind_inv tableName kind ut ct r r' ct' cs e :
  applyKind tableName kind ut ct r = (r', ct', cs, e) →
  ∃ created n sweeps,
    ct' = ct ++ created
    ∧ Forall (λ u, Rec.State u = StateNew) created
    ∧ Rec.Fields <$> created = Rec.Fields <$> take n ut
    ∧ Forall (sweepCall kind ct) sweeps
    ∧ match e with
      | None =>
          n = length ut
          ∧ cs = ((λ u, CallCreate kind u None) <$> ut) ++ sweeps
      | Some msg =>
          ∃ u, ut !! n = Some u ∧ sweeps = []
               ∧ cs = ((λ u, CallCreate kind u None) <$> take n ut)
                      ++ [CallCreate kind u (Some msg)]
      end.
Proof.
  unfold applyKind. intros Hrun.
  destruct (createRecords tableName kind ut r ct) as [[[r1 ct1] cs1] e1] eqn:Hc.
  apply createRecords_inv in Hc as (created & n & -> & Hnew & Hfields & Hcalls).
  destruct e1 as [msg|].
  - inversion Hrun; subst. destruct Hcalls as (u & Hu & ->).
    exists created, n, []. repeat split; try done. by exists u.
  - destruct (sweep tableName kind 0 (ct ++ created) r1) as [r2 cs2] eqn:Hs.
    inversion Hrun; subst. destruct Hcalls as [-> ->].
    exists created, (length ut), cs2. repeat split; try done.
    apply Forall_forall. intros c Hin.
    destruct (sweep_sound _ _ _ _ _ _ _ _ Hs Hin) as (j & rec & e & Hj & Hcase).
    exists j, rec, e. split; [|done].
    apply lookup_app_Some in Hj as [Hj|[_ Hj]]; [done|].
    apply list_elem_of_lookup_2 in Hj.
    rewrite Forall_forall in Hnew. apply Hnew in Hj.
    destruct Hcase as [[Hst _]|[Hst _]]; congruence.
Qed.

Lemma applyKind_complete tableName kind ut ct r r' ct' cs j rec :
  applyKind tableName kind ut ct r = (r', ct', cs, None) →
  ct !! j = Some rec →
  (Rec.State rec = StateUnknown → ∃ e, CallDelete kind j rec e ∈ cs)
  ∧ (Rec.State rec = StateChanged → ∃ e, CallUpdate kind j rec e ∈ cs).
Proof.
  unfold applyKind. intros Hrun Hj.
  destruct (createRecords tableName kind ut r ct) as [[[r1 ct1] cs1] e1] eqn:Hc.
  apply createRecords_inv in Hc as (created & n & -> & _).
  destruct e1 as [msg|]; [done|].
  destruct (sweep tableName kind 0 (ct ++ created) r1) as [r2 cs2] eqn:Hs.
  inversion Hrun; subst.
  destruct (sweep_complete _ _ _ _ _ _ _ j rec Hs) as [Hd Hu].
  { by apply lookup_app_l_Some. }
  split; intros Hst; [destruct (Hd Hst) as [e He]|destruct (Hu Hst) as [e He]];
    exists e; apply elem_of_app; by right.
Qed.

Lemma applyKind_callKind tableName kind ut ct r r' ct' cs e c :
  applyKind tableName kind ut ct r = (r', ct', cs, e) → c ∈ cs →
  callKind c = kind.
Proof.
  intros Hrun Hc.
  apply applyKind_inv in Hrun as (created & n & sweeps & _ & _ & _ & Hsw & Hcs).
  assert (Hsweeps : c ∈ sweeps → callKind c = kind).
  { rewrite Forall_forall in Hsw. intros Hin.
    destruct (Hsw _ Hin) as (j & rec & e' & _ & [[_ ->]|[_ ->]]); done. }
  destruct e as [msg|].
  - destruct Hcs as (u & _ & _ & ->).
    apply elem_of_app in Hc as [Hc|Hc].
    + apply list_elem_of_fmap in Hc as (v & -> & _). done.
    + apply list_elem_of_singleton in Hc as ->. done.
  - destruct Hcs as [_ ->]. apply elem_of_app in Hc as [Hc|Hc]; [|auto].
    apply list_elem_of_fmap in Hc as (v & -> & _). done.
Qed.

(** *** The loop over the kinds *)

Lemma updateAirtable_callKind opts kinds : ∀ unmatched r cache c,
  c ∈ out_calls (updateAirtable opts kinds unmatched r cache) →
  callKind c ∈ kinds.
Proof.
  induction kinds as [|kind kinds IH]; intros unmatched r cache c Hc; simpl in Hc.
  - by apply elem_of_nil in Hc.
  - destruct (applyKind _ kind _ _ r) as [[[r' ct] cs] [msg|]] eqn:Hrun;
      simpl in Hc.
    + apply (applyKind_callKind _ _ _ _ _ _ _ _ _ _ Hrun) in Hc. set_solver.
    + apply elem_of_app in Hc as [Hc|Hc].
      * apply (applyKind_callKind _ _ _ _ _ _ _ _ _ _ Hrun) in Hc. set_solver.
      * apply IH in Hc. set_solver.
Qed.

Lemma updateAirtable_cache_other opts kinds : ∀ unmatched r cache kind,
  kind ∉ kinds →
  out_cache (updateAirtable opts kinds unmatched r cache) kind = cache kind.
Proof.
  induction kinds as [|k kinds IH]; intros unmatched r cache kind Hk; [done|].
  apply not_elem_of_cons in Hk as [Hne Hk]. simpl.
  destruct (applyKind _ k _ _ r) as [[[r' ct] cs] [msg|]]; simpl.
  - unfold setTable. by rewrite decide_False.
  - rewrite IH by done. unfold setTable. by rewrite decide_False.
Qed.

(** With every kind met once, a call of kind [kind] was issued by the
    turn of that kind, which started from the table as the update phase
    received it and left it as the phase returns it. *)
Lemma updateAirtable_turn opts kinds : ∀ unmatched r cache c,
  NoDup kinds →
  c ∈ out_calls (updateAirtable opts kinds unmatched r cache) →
  ∃ r0 r' ct' cs e,
    applyKind (TableNames opts (callKind c)) (callKind c)
      (unmatched (callKind c)) (cache (callKind c)) r0 = (r', ct', cs, e)
    ∧ c ∈ cs
    ∧ out_cache (updateAirtable opts kinds unmatched r cache) (callKind c) = ct'.
Proof.
  induction kinds as [|kind kinds IH]; intros unmatched r cache c Hnd Hc;
    simpl in Hc.
  { by apply elem_of_nil in Hc. }
  apply NoDup_cons in Hnd as [Hkind Hnd]. simpl.
  destruct (applyKind _ kind _ _ r) as [[[r' ct] cs] e] eqn:Hrun.
  assert (Hhead : c ∈ cs → callKind c = kind)
    by apply (applyKind_callKind _ _ _ _ _ _ _ _ _ _ Hrun).
  destruct e as [msg|]; simpl in *.
  - specialize (Hhead Hc). subst kind.
    exists r, r', ct, cs, (Some msg). repeat split; try done.
    unfold setTable. by rewrite decide_True.
  - apply elem_of_app in Hc as [Hc|Hc].
    + specialize (Hhead Hc). subst kind.
      exists r, r', ct, cs, None. repeat split; try done.
      rewrite updateAirtable_cache_other by done.
      unfold setTable. by rewrite decide_True.
    + pose proof (updateAirtable_callKind _ _ _ _ _ _ Hc) as Hin.
      destruct (IH _ _ _ _ Hnd Hc) as (r0 & r1 & ct' & cs' & e & Hturn & Hcs & Hout).
      assert (callKind c ≠ kind) as Hne by (intros Heq; by rewrite Heq in Hin).
      unfold setTable in Hturn. rewrite decide_False in Hturn by done.
      exists r0, r1, ct', cs', e. repeat split; try done.
Qed.

End Apply.

(** ** The classification pass *)

Lemma alter_lookup_insert {A} (f : A → A) (l : list A) i x :
  l !! i = Some x → alter f i l = <[i := f x]> l.
Proof.
  intros Hi. rewrite list_insert_alter. apply list_alter_ext; [|done].
  intros y Hy. congruence.
Qed.

Lemma place_hit kind c u f b idx rec0 :
  findIdx (c kind) (GetID f) = Some (idx, rec0) →
  place kind (c, u) f b = (setTable c kind (<[idx := staged rec0 b]> (c kind)), u).
Proof.
  intros Hfind. unfold place. unfold findIdx in Hfind. rewrite Hfind.
  apply list_find_Some in Hfind as (Hidx & _ & _).
  unfold RecordsEqual, staged. rewrite Hidx.
  destruct (decide (Rec.Fields rec0 = Rec.Fields b)) as [Heq|Hne].
  - rewrite bool_decide_eq_true_2 by done. unfold SetState.
    by erewrite alter_lookup_insert.
  - rewrite bool_decide_eq_false_2 by done. unfold SetState, CopyFields.
    rewrite list_alter_alter_eq. by erewrite alter_lookup_insert.
Qed.

Lemma place_miss kind c u f b :
  findIdx (c kind) (GetID f) = None →
  place kind (c, u) f b = (c, setTable u kind (u kind ++ [b])).
Proof. intros Hfind. unfold place. unfold findIdx in Hfind. by rewrite Hfind. Qed.

Lemma findIdx_Some t id idx rec :
  findIdx t id = Some (idx, rec) → t !! idx = Some rec ∧ GetFieldID rec = id.
Proof. intros (? & ? & _)%list_find_Some. done. Qed.

Lemma findIdx_fieldIDs t t0 id :
  GetFieldID <$> t = GetFieldID <$> t0 →
  fst <$> findIdx t id = fst <$> findIdx t0 id.
Proof.
  intros Heq. unfold findIdx.
  pose proof (list_find_fmap GetFieldID (λ s, s = id) t) as H1.
  pose proof (list_find_fmap GetFieldID (λ s, s = id) t0) as H2.
  rewrite Heq in H1. rewrite H1 in H2. unfold compose in H2.
  destruct (list_find _ t) as [[i r]|], (list_find _ t0) as [[i0 r0]|];
    simpl in *; congruence.
Qed.

Lemma staged_ID rec0 b : Rec.ID (staged rec0 b) = Rec.ID rec0.
Proof. unfold staged. by case_decide. Qed.

Lemma staged_fieldID rec0 b :
  GetFieldID b = GetFieldID rec0 → GetFieldID (staged rec0 b) = GetFieldID rec0.
Proof. unfold staged. by case_decide. Qed.

Lemma setTable_eq (db : DB) kind t : setTable db kind t kind = t.
Proof. unfold setTable. by rewrite decide_True. Qed.

Lemma setTable_ne (db : DB) kind t k : k ≠ kind → setTable db kind t k = db k.
Proof. intros. unfold setTable. by rewrite decide_False. Qed.

Lemma hits_same_key c0 e e' k idx :
  hits c0 e k idx → hits c0 e' k idx → entryKey e = entryKey e'.
Proof.
  intros [<- He] [Hk He']. unfold entryKey. rewrite Hk. f_equal.
  destruct (findIdx (c0 e.1.1) (GetID e.1.2)) as [[i r]|] eqn:H1; [|done].
  destruct (findIdx (c0 e.1.1) (GetID e'.1.2)) as [[i' r']|] eqn:H2; [|done].
  simpl in *. simplify_eq.
  apply findIdx_Some in H1 as [H1 <-]. apply findIdx_Some in H2 as [H2 <-].
  congruence.
Qed.

Lemma stage_fold c0 u0 es :
  Forall (λ e : entry, GetFieldID e.2 = GetID e.1.2) es →
  NoDup (entryKey <$> es) →
  Classified c0 u0 es (foldl stage (c0, u0) es).
Proof.
  induction es as [|e es IH] using rev_ind; intros Hfid Hnd.
  { split; simpl; try done.
    - intros e k idx rec0 Hin. by apply elem_of_nil in Hin.
    - intros k. by rewrite app_nil_r. }
  rewrite foldl_app. cbn [foldl].
  apply Forall_app in Hfid as [Hfid He]. rewrite Forall_singleton in He.
  rewrite fmap_app in Hnd. apply NoDup_app in Hnd as (Hnd & Hfresh & _).
  specialize (IH Hfid Hnd).
  destruct (foldl stage (c0, u0) es) as [c' u'] eqn:Hfold.
  destruct IH as [IHf IHi IHh IHr IHu]. cbn [fst snd] in IHf, IHi, IHh, IHr, IHu.
  assert (Hnohit : ∀ idx e', e' ∈ es → hits c0 e e.1.1 idx → ¬ hits c0 e' e.1.1 idx).
  { intros idx e' Hin Hh Hh'. apply (Hfresh (entryKey e')).
    - apply list_elem_of_fmap. by exists e'.
    - rewrite (hits_same_key _ _ _ _ _ Hh' Hh). apply list_elem_of_singleton. done. }
  unfold stage.
  destruct (findIdx (c0 e.1.1) (GetID e.1.2)) as [[idx rec0]|] eqn:Hfind0.
  - (* the entry matches the record cached at [idx] *)
    assert (Hh : hits c0 e e.1.1 idx) by (split; [done|by rewrite Hfind0]).
    pose proof (findIdx_Some _ _ _ _ Hfind0) as [Hidx0 Hfid0].
    assert (Hidx' : c' e.1.1 !! idx = Some rec0).
    { rewrite IHr; [done|]. intros e' Hin. by apply Hnohit. }
    assert (Hfind' : findIdx (c' e.1.1) (GetID e.1.2) = Some (idx, rec0)).
    { pose proof (findIdx_fieldIDs _ _ (GetID e.1.2) (IHf e.1.1)) as Hi.
      rewrite Hfind0 in Hi. simpl in Hi.
      destruct (findIdx (c' e.1.1) (GetID e.1.2)) as [[i r]|] eqn:Hf; [|done].
      simpl in Hi. simplify_eq. apply findIdx_Some in Hf as [Hf _]. congruence. }
    rewrite (place_hit _ _ _ _ _ _ _ Hfind').
    assert (Hlen : idx < length (c' e.1.1)) by by eapply lookup_lt_Some.
    split; simpl.
    + intros k. destruct (decide (k = e.1.1)) as [->|Hk];
        [rewrite setTable_eq|by rewrite setTable_ne].
      rewrite list_fmap_insert, staged_fieldID by congruence.
      rewrite list_insert_id; [done|].
      by rewrite list_lookup_fmap, Hidx'.
    + intros k. destruct (decide (k = e.1.1)) as [->|Hk];
        [rewrite setTable_eq|by rewrite setTable_ne].
      rewrite list_fmap_insert, staged_ID.
      rewrite list_insert_id; [done|].
      by rewrite list_lookup_fmap, Hidx'.
    + intros e' k idx' r0' Hin Hh' Hr0'.
      apply elem_of_app in Hin as [Hin|Hin].
      * specialize (IHh _ _ _ _ Hin Hh' Hr0').
        destruct (decide (k = e.1.1)) as [->|Hk]; [|by rewrite setTable_ne].
        rewrite setTable_eq.
        destruct (decide (idx = idx')) as [<-|Hne];
          [by destruct (Hnohit idx e' Hin Hh)|].
        by rewrite list_lookup_insert_ne.
      * apply list_elem_of_singleton in Hin as ->.
        destruct Hh' as [<- Hh']. rewrite Hfind0 in Hh'. simpl in Hh'.
        simplify_eq. rewrite setTable_eq.
        by rewrite list_lookup_insert_eq.
    + intros k idx' Hno.
      rewrite <- IHr by (intros e' Hin; apply Hno, elem_of_app; by left).
      destruct (decide (k = e.1.1)) as [->|Hk]; [|by rewrite setTable_ne].
      rewrite setTable_eq.
      destruct (decide (idx = idx')) as [<-|Hne].
      * destruct (Hno e); [apply elem_of_app; right; by apply list_elem_of_singleton|done].
      * by rewrite list_lookup_insert_ne.
    + intros k. rewrite filter_app, fmap_app, IHu.
      rewrite (filter_cons (misses c0 k)), filter_nil.
      rewrite decide_False; [by rewrite app_nil_r|].
      intros [<- Hm]. congruence.
  - (* the entry matches nothing *)
    assert (Hfind' : findIdx (c' e.1.1) (GetID e.1.2) = None).
    { pose proof (findIdx_fieldIDs _ _ (GetID e.1.2) (IHf e.1.1)) as Hi.
      rewrite Hfind0 in Hi. by destruct (findIdx (c' e.1.1) _). }
    rewrite (place_miss _ _ _ _ _ Hfind').
    split; simpl; try done.
    + intros e' k idx' r0' Hin Hh' Hr0'.
      apply elem_of_app in Hin as [Hin|Hin]; [eauto|].
      apply list_elem_of_singleton in Hin as ->.
      destruct Hh' as [<- Hh']. by rewrite Hfind0 in Hh'.
    + intros k idx' Hno. apply IHr. intros e' Hin. apply Hno, elem_of_app. by left.
    + intros k. rewrite filter_app, fmap_app, app_assoc, <- IHu.
      rewrite (filter_cons (misses c0 k)), filter_nil.
      destruct (decide (k = e.1.1)) as [->|Hk].
      * rewrite setTable_eq, decide_True; done.
      * rewrite setTable_ne by done. rewrite decide_False; [by rewrite app_nil_r|].
        intros [Hk' _]. done.
Qed.

Lemma stage_IDs cu e k : Rec.ID <$> (stage cu e).1 k = Rec.ID <$> cu.1 k.
Proof.
  destruct cu as [c u]. unfold stage, place. cbn [fst snd].
  destruct (list_find _ (c e.1.1)) as [[idx rec]|]; [|done].
  destruct (RecordsEqual _ _ _); cbn [fst];
    (destruct (decide (k = e.1.1)) as [->|Hk];
     [rewrite setTable_eq|by rewrite setTable_ne]);
    unfold SetState, CopyFields; rewrite ?list_alter_alter_eq;
    apply list_eq; intros i; rewrite !list_lookup_fmap, list_lookup_alter;
    case_decide; subst; by destruct (c e.1.1 !! _).
Qed.

Lemma foldl_stage_IDs es : ∀ cu k,
  Rec.ID <$> (foldl stage cu es).1 k = Rec.ID <$> cu.1 k.
Proof.
  induction es as [|e es IH]; intros cu k; [done|].
  simpl. by rewrite IH, stage_IDs.
Qed.

Lemma stage_unmatched cu e k b :
  b ∈ (stage cu e).2 k → b ∈ cu.2 k ∨ (e.1.1 = k ∧ e.2 = b).
Proof.
  destruct cu as [c u]. unfold stage, place. cbn [fst snd].
  destruct (list_find _ (c e.1.1)) as [[idx rec]|].
  - destruct (RecordsEqual _ _ _); auto.
  - cbn [snd]. destruct (decide (k = e.1.1)) as [->|Hk].
    + rewrite setTable_eq. unfold Append. rewrite elem_of_app, list_elem_of_singleton.
      naive_solver.
    + rewrite setTable_ne by done. auto.
Qed.

Lemma foldl_stage_unmatched es : ∀ cu k b,
  b ∈ (foldl stage cu es).2 k → b ∈ cu.2 k ∨ ∃ e, e ∈ es ∧ e.1.1 = k ∧ e.2 = b.
Proof.
  induction es as [|e es IH]; intros cu k b Hb; [by left|].
  simpl in Hb. apply IH in Hb as [Hb|(e' & Hin & Hk & Hb)].
  - apply stage_unmatched in Hb as [Hb|[Hk Hb]]; [by left|].
    right. exists e. split; [apply elem_of_cons; by left|done].
  - right. exists e'. split; [apply elem_of_cons; by right|done].
Qed.

Lemma fmap_list_bind {A B C} (f : B → C) (g : A → list B) (l : list A) :
  f <$> (l ≫= g) = l ≫= λ x, f <$> g x.
Proof.
  induction l as [|x l IH]; [done|].
  rewrite !bind_cons, fmap_app. by f_equal.
Qed.

Section Classification.
Variable tableKinds : list TableKind.
Variable mapRange : gmap string Feature → list (string * Feature).
Variable ToRecord : Feature → DB → Rec.t.

Implicit Types (features : FeatureMaps) (cu : DB * DB).

Lemma classify_stage kind cu f :
  classify ToRecord kind cu f = stage cu (kind, f, ToRecord f cu.1).
Proof. done. Qed.

Lemma computeFields_workList features cache :
  computeFields tableKinds mapRange ToRecord features cache
  = foldl (λ cu kf, classify ToRecord kf.1 cu kf.2) (cache, NewDB)
      (workList tableKinds mapRange features).
Proof.
  unfold computeFields, workList. generalize (cache, NewDB).
  induction tableKinds as [|kind kinds IH]; intros cu; [done|].
  rewrite bind_cons, foldl_app. cbn [foldl]. rewrite IH. f_equal.
  unfold classifyKind. generalize (mapRange (features kind)).*2.
  intros fs. revert cu. induction fs as [|f fs IHf]; intros cu; [done|].
  csimpl. apply IHf.
Qed.

Lemma fold_classify_built work : ∀ cu,
  foldl (λ cu kf, classify ToRecord kf.1 cu kf.2) cu work
  = foldl stage cu (builtRecords ToRecord cu work).
Proof.
  induction work as [|[kind f] work IH]; intros cu; [done|].
  simpl. apply IH.
Qed.

Lemma computeFields_built features cache :
  computeFields tableKinds mapRange ToRecord features cache
  = foldl stage (cache, NewDB)
      (builtRecords ToRecord (cache, NewDB) (workList tableKinds mapRange features)).
Proof. by rewrite computeFields_workList, fold_classify_built. Qed.

Lemma builtRecords_work work : ∀ cu, (builtRecords ToRecord cu work).*1 = work.
Proof.
  induction work as [|[kind f] work IH]; intros cu; [done|].
  csimpl. by rewrite IH.
Qed.

(** Every record is built from a cache that holds the internal IDs the
    pass started with, in the same places. *)
Lemma builtRecords_from work : ∀ cu kind f b,
  (kind, f, b) ∈ builtRecords ToRecord cu work →
  ∃ c, b = ToRecord f c ∧ ∀ k, Rec.ID <$> c k = Rec.ID <$> cu.1 k.
Proof.
  induction work as [|[kind0 f0] work IH]; intros cu kind f b Hin.
  { by apply elem_of_nil in Hin. }
  simpl in Hin. apply elem_of_cons in Hin as [Heq|Hin].
  - inversion Heq; subst. by exists cu.1.
  - apply IH in Hin as (c & -> & Hc). exists c. split; [done|].
    intros k. rewrite Hc. rewrite classify_stage. apply stage_IDs.
Qed.

Lemma builtRecords_fieldID work : ∀ cu,
  (∀ f c, GetFieldID (ToRecord f c) = GetID f) →
  Forall (λ e : entry, GetFieldID e.2 = GetID e.1.2) (builtRecords ToRecord cu work).
Proof.
  intros cu Hfid. revert cu.
  induction work as [|[kind f] work IH]; intros cu; simpl; constructor.
  - apply Hfid.
  - apply IH.
Qed.

(** *** The entries of the feature maps *)

Hypothesis tableKinds_NoDup : NoDup tableKinds.
Hypothesis mapRange_perm : ∀ m, mapRange m ≡ₚ map_to_list m.

Lemma elem_of_workList features kind f :
  (kind, f) ∈ workList tableKinds mapRange features
  ↔ kind ∈ tableKinds ∧ ∃ id, features kind !! id = Some f.
Proof.
  unfold workList. rewrite list_elem_of_bind. split.
  - intros (k & Hin & Hk). apply list_elem_of_fmap in Hin as (g & Heq & Hg).
    inversion Heq; subst. split; [done|].
    apply list_elem_of_fmap in Hg as ([id g'] & -> & Hg).
    rewrite mapRange_perm in Hg. apply elem_of_map_to_list in Hg. by exists id.
  - intros (Hk & id & Hf). exists kind. split; [|done].
    apply list_elem_of_fmap. exists f. split; [done|].
    apply list_elem_of_fmap. exists (id, f). split; [done|].
    rewrite mapRange_perm. by apply elem_of_map_to_list.
Qed.

Lemma workList_NoDup features :
  (∀ kind id f, features kind !! id = Some f → GetID f = id) →
  NoDup ((λ kf : TableKind * Feature, (kf.1, GetID kf.2))
           <$> workList tableKinds mapRange features).
Proof.
  intros Hkeys. unfold workList. rewrite fmap_list_bind.
  apply NoDup_bind; [| |done].
  - intros k1 k2 [k id] _ _ H1 H2.
    apply list_elem_of_fmap in H1 as ([k1' f1] & Heq1 & H1).
    apply list_elem_of_fmap in H1 as (g1 & Hg1 & _).
    apply list_elem_of_fmap in H2 as ([k2' f2] & Heq2 & H2).
    apply list_elem_of_fmap in H2 as (g2 & Hg2 & _).
    simpl in *. congruence.
  - intros kind _. rewrite <- list_fmap_compose.
    assert (Heq : (((λ kf : TableKind * Feature, (kf.1, GetID kf.2))
                     ∘ (λ f, (kind, f))) <$> (mapRange (features kind)).*2)
                  = (λ id, (kind, id)) <$> (mapRange (features kind)).*1).
    { rewrite <- !list_fmap_compose. apply list_fmap_ext.
      intros i [id f] Hi. simpl. f_equal. apply (Hkeys kind).
      apply elem_of_map_to_list. rewrite <- mapRange_perm.
      by eapply list_elem_of_lookup_2. }
    rewrite Heq. apply NoDup_fmap_2; [intros ?? ?; congruence|].
    rewrite mapRange_perm. apply NoDup_fst_map_to_list.
Qed.

Lemma computeFields_classified features cache :
  (∀ kind id f, features kind !! id = Some f → GetID f = id) →
  (∀ f c, GetFieldID (ToRecord f c) = GetID f) →
  Classified cache NewDB
    (builtRecords ToRecord (cache, NewDB) (workList tableKinds mapRange features))
    (computeFields tableKinds mapRange ToRecord features cache).
Proof.
  intros Hkeys Hfid. rewrite computeFields_built. apply stage_fold.
  - by apply builtRecords_fieldID.
  - pose proof (workList_NoDup features Hkeys) as Hnd.
    rewrite <- (builtRecords_work _ (cache, NewDB)), <- list_fmap_compose in Hnd.
    exact Hnd.
Qed.

End Classification.

(** ** The run *)

Section Run.
Context {R : Type} `{Client R}.
Variable tableKinds : list TableKind.
Variable mapRange : gmap string Feature → list (string * Feature).
Variable ToRecord : Feature → DB → Rec.t.
Variable FilterByTargets : list Issue.t → list string → list Issue.t.

Abbreviation run := (airtableSync tableKinds mapRange ToRecord FilterByTargets).
Abbreviation desired opts issues :=
  (collectFeatures (FilterByTargets issues (Targets opts))).
Abbreviation classified opts issues cache0 :=
  (computeFields tableKinds mapRange ToRecord (desired opts issues) cache0).

Lemma fetchTables_calls opts kinds : ∀ r cache c,
  c ∈ (fetchTables opts kinds r cache).1.2 → ∃ e, c = CallList (callKind c) e.
Proof.
  induction kinds as [|kind kinds IH]; intros r cache c Hc; simpl in Hc.
  { by apply elem_of_nil in Hc. }
  destruct (TableList r (TableNames opts kind)) as [e|rows]; simpl in Hc.
  - apply list_elem_of_singleton in Hc as ->. by eexists.
  - destruct (fetchTables opts kinds r _) as [[cache' cs] e] eqn:Hrec.
    simpl in Hc. apply elem_of_cons in Hc as [->|Hc]; [by eexists|].
    apply (IH r (setTable cache kind (fetched rows))). by rewrite Hrec.
Qed.

Lemma fetchTables_fails opts kinds : ∀ r cache kind e,
  kind ∈ kinds → TableList r (TableNames opts kind) = inl e →
  is_Some (fetchTables opts kinds r cache).2.
Proof.
  induction kinds as [|k kinds IH]; intros r cache kind e Hin Hlist.
  { by apply elem_of_nil in Hin. }
  simpl. destruct (TableList r (TableNames opts k)) as [e'|rows] eqn:Hk; [by eexists|].
  apply elem_of_cons in Hin as [->|Hin]; [congruence|].
  specialize (IH r (setTable cache k (fetched rows)) kind e Hin Hlist).
  by destruct (fetchTables opts kinds r _) as [[cache' cs] e'].
Qed.

(** A successful fetch leaves in the table of every kind the rows the
    remote store lists for it. *)
Lemma fetchTables_fetched opts kinds : ∀ r cache cache' cs kind,
  fetchTables opts kinds r cache = (cache', cs, None) →
  (kind ∈ kinds →
   ∃ rows, TableList r (TableNames opts kind) = inr rows
           ∧ cache' kind = fetched rows)
  ∧ (kind ∉ kinds → cache' kind = cache kind).
Proof.
  induction kinds as [|k kinds IH]; intros r cache cache' cs kind Hrun;
    simpl in Hrun.
  { inversion Hrun; subst. split; [intros Hin; by apply elem_of_nil in Hin|done]. }
  destruct (TableList r (TableNames opts k)) as [e'|rows] eqn:Hk; [done|].
  destruct (fetchTables opts kinds r _) as [[cache1 cs1] e1] eqn:Hrec.
  inversion Hrun; subst.
  destruct (IH _ _ _ _ kind Hrec) as [IHin IHout].
  destruct (decide (kind ∈ kinds)) as [Hin|Hnin].
  - split; [auto|]. intros Hn. destruct Hn. apply elem_of_cons. by right.
  - split.
    + intros [->|Hin]%elem_of_cons; [|done].
      exists rows. split; [done|]. by rewrite IHout, setTable_eq.
    + intros [Hne _]%not_elem_of_cons. rewrite IHout by done.
      by rewrite setTable_ne.
Qed.

Lemma fetched_Unknown rows rec : rec ∈ fetched rows → Rec.State rec = StateUnknown.
Proof. intros (row & -> & _)%list_elem_of_fmap. done. Qed.

(** The run past its three early returns. *)
Lemma sync_proceeds opts issues r cache0 cs0 :
  BaseID opts ≠ "" → Token opts ≠ "" →
  fetchTables opts tableKinds r NewDB = (cache0, cs0, None) →
  let cu := classified opts issues cache0 in
  let out := updateAirtable opts tableKinds cu.2 r cu.1 in
  run opts (inr issues) r
  = mkOutcome (out_remote out) (out_cache out) (cs0 ++ out_calls out) (out_err out).
Proof.
  intros Hbase Htoken Hfetch. unfold airtableSync.
  rewrite !bool_decide_eq_false_2 by done. simpl. rewrite Hfetch.
  by destruct (computeFields _ _ _ _ _) as [cache unmatched].
Qed.

(** Whatever the run did, its mutating calls are those of an update phase
    that followed a successful fetch. *)
Lemma sync_mutation opts loaded r c :
  c ∈ out_calls (run opts loaded r) → isMutation c = true →
  ∃ issues cache0 cs0,
    loaded = inr issues
    ∧ BaseID opts ≠ "" ∧ Token opts ≠ ""
    ∧ fetchTables opts tableKinds r NewDB = (cache0, cs0, None)
    ∧ c ∈ out_calls
            (updateAirtable opts tableKinds (classified opts issues cache0).2 r
               (classified opts issues cache0).1).
Proof.
  intros Hc Hmut.
  destruct (decide (BaseID opts = "")) as [Hb|Hb].
  { unfold airtableSync in Hc. rewrite (bool_decide_eq_true_2 _ Hb) in Hc.
    by apply elem_of_nil in Hc. }
  destruct (decide (Token opts = "")) as [Ht|Ht].
  { unfold airtableSync in Hc. rewrite (bool_decide_eq_true_2 _ Ht) in Hc.
    rewrite orb_true_r in Hc. by apply elem_of_nil in Hc. }
  destruct loaded as [e|issues].
  { unfold airtableSync in Hc. rewrite !bool_decide_eq_false_2 in Hc by done.
    by apply elem_of_nil in Hc. }
  destruct (fetchTables opts tableKinds r NewDB) as [[cache0 cs0] e] eqn:Hfetch.
  assert (Hlist : c ∈ cs0 → False).
  { intros Hin. destruct (fetchTables_calls opts tableKinds r NewDB c) as [e' He'].
    - by rewrite Hfetch.
    - rewrite He' in Hmut. done. }
  destruct e as [e|].
  { unfold airtableSync in Hc. rewrite !bool_decide_eq_false_2 in Hc by done.
    simpl in Hc. rewrite Hfetch in Hc. simpl in Hc. done. }
  rewrite (sync_proceeds _ _ _ _ _ Hb Ht Hfetch) in Hc. simpl in Hc.
  apply elem_of_app in Hc as [Hc|Hc]; [done|].
  by exists issues, cache0, cs0.
Qed.

(** *** Early returns *)

(** C7: when the base ID or the token is missing the run returns an
    error without a single remote call, and when the initial fetch of
    some kind fails the run returns an error as well; in both cases no
    create, update or delete is issued and the remote store is left as
    it was. *)
Theorem fatal_error_aborts_before_any_mutation opts loaded r :
  (BaseID opts = "" ∨ Token opts = "")
  ∨ (∃ kind e, kind ∈ tableKinds ∧ TableList r (TableNames opts kind) = inl e) →
  let out := airtableSync tableKinds mapRange ToRecord FilterByTargets opts loaded r in
  is_Some (out_err out)
  ∧ Forall (λ c, isMutation c = false) (out_calls out)
  ∧ out_remote out = r
  ∧ (BaseID opts = "" ∨ Token opts = "" → out_calls out = []).
Proof.
  intros Hfatal. cbn zeta.
  assert (Hcreds : BaseID opts = "" ∨ Token opts = "" →
            run opts loaded r
            = mkOutcome r NewDB [] (Some "missing token or baseid, check '-h'")).
  { intros Hmiss. unfold airtableSync.
    destruct Hmiss as [Hb|Ht].
    - by rewrite (bool_decide_eq_true_2 _ Hb).
    - rewrite (bool_decide_eq_true_2 _ Ht). by rewrite orb_true_r. }
  destruct (decide (BaseID opts = "" ∨ Token opts = "")) as [Hmiss|Hpresent].
  { rewrite (Hcreds Hmiss). simpl. repeat split; done. }
  destruct Hfatal as [Hmiss|(kind & e & Hkind & Hlist)]; [done|].
  assert (Hb : BaseID opts ≠ "") by tauto.
  assert (Ht : Token opts ≠ "") by tauto.
  split; [|split; [|split; [|done]]].
  - unfold airtableSync. rewrite !bool_decide_eq_false_2 by done. simpl.
    destruct loaded as [e'|issues]; [by eexists|].
    destruct (fetchTables_fails opts tableKinds r NewDB kind e Hkind Hlist)
      as [e' He'].
    destruct (fetchTables opts tableKinds r NewDB) as [[cache0 cs0] e0].
    simpl in He'. subst e0. by eexists.
  - apply Forall_forall. intros c Hc.
    destruct (isMutation c) eqn:Hmut; [|done].
    destruct (sync_mutation _ _ _ _ Hc Hmut)
      as (issues & cache0 & cs0 & _ & _ & _ & Hfetch & _).
    destruct (fetchTables_fails opts tableKinds r NewDB kind e Hkind Hlist)
      as [e' He'].
    rewrite Hfetch in He'. done.
  - unfold airtableSync. rewrite !bool_decide_eq_false_2 by done. simpl.
    destruct loaded as [e'|issues]; [done|].
    destruct (fetchTables_fails opts tableKinds r NewDB kind e Hkind Hlist)
      as [e' He'].
    destruct (fetchTables opts tableKinds r NewDB) as [[cache0 cs0] e0].
    simpl in He'. by subst e0.
Qed.

End Run.

(** ** Order and failure in the update phase *)

Section UpdatePhase.
Context {R : Type} `{Client R}.

Lemma sweepCall_not_create kind ct c : sweepCall kind ct c → isCreate c = false.
Proof. intros (j & rec & e & _ & [[_ ->]|[_ ->]]); done. Qed.

Lemma sweepCall_kind kind ct c : sweepCall kind ct c → callKind c = kind.
Proof. intros (j & rec & e & _ & [[_ ->]|[_ ->]]); done. Qed.

(** A failed creation is the last call of its turn. *)
Lemma applyKind_failed_create tableName kind ut ct r r' ct' cs e k u msg :
  applyKind tableName kind ut ct r = (r', ct', cs, e) →
  CallCreate k u (Some msg) ∈ cs →
  e = Some msg ∧ ∃ cs0, cs = cs0 ++ [CallCreate k u (Some msg)].
Proof.
  intros Hrun Hin.
  apply applyKind_inv in Hrun as (created & n & sweeps & _ & _ & _ & Hsw & Hcs).
  destruct e as [msg'|].
  - destruct Hcs as (v & _ & _ & ->).
    apply elem_of_app in Hin as [Hin|Hin].
    + apply list_elem_of_fmap in Hin as (w & Hw & _). done.
    + apply list_elem_of_singleton in Hin. inversion Hin; subst. eauto.
  - destruct Hcs as [_ ->]. apply elem_of_app in Hin as [Hin|Hin].
    + apply list_elem_of_fmap in Hin as (w & Hw & _). done.
    + rewrite Forall_forall in Hsw. apply Hsw, sweepCall_not_create in Hin. done.
Qed.

Lemma updateAirtable_failed_create opts kinds : ∀ unmatched r cache k u msg,
  CallCreate k u (Some msg) ∈ out_calls (updateAirtable opts kinds unmatched r cache) →
  out_err (updateAirtable opts kinds unmatched r cache) = Some msg
  ∧ ∃ cs0, out_calls (updateAirtable opts kinds unmatched r cache)
           = cs0 ++ [CallCreate k u (Some msg)].
Proof.
  induction kinds as [|kind kinds IH]; intros unmatched r cache k u msg Hin;
    simpl in *.
  { by apply elem_of_nil in Hin. }
  destruct (applyKind _ kind _ _ r) as [[[r' ct] cs] e] eqn:Hrun.
  destruct e as [msg'|]; simpl in *.
  - destruct (applyKind_failed_create _ _ _ _ _ _ _ _ _ _ _ _ Hrun Hin)
      as [Hmsg Hlast]. by inversion Hmsg; subst.
  - apply elem_of_app in Hin as [Hin|Hin].
    + by destruct (applyKind_failed_create _ _ _ _ _ _ _ _ _ _ _ _ Hrun Hin).
    + destruct (IH _ _ _ _ _ _ Hin) as [Herr [cs0 Hcs0]].
      split; [done|]. exists (cs ++ cs0). by rewrite Hcs0, app_assoc.
Qed.

(** Within a turn the creations come first. *)
Lemma applyKind_order tableName kind ut ct r r' ct' cs e i j c c' :
  applyKind tableName kind ut ct r = (r', ct', cs, e) →
  cs !! i = Some c → cs !! j = Some c' →
  isCreate c = false → isCreate c' = true → j < i.
Proof.
  intros Hrun Hi Hj Hc Hc'.
  apply applyKind_inv in Hrun as (created & n & sweeps & _ & _ & _ & Hsw & Hcs).
  rewrite Forall_forall in Hsw.
  assert (Hsplit : ∃ creates rest,
             cs = creates ++ rest
             ∧ Forall (λ x, isCreate x = true) creates
             ∧ Forall (λ x, isCreate x = false ∨ rest = [x]) rest).
  { destruct e as [msg|].
    - destruct Hcs as (v & _ & _ & ->).
      eexists _, [CallCreate kind v (Some msg)]. split; [done|]. split.
      + apply Forall_fmap, Forall_forall. done.
      + apply Forall_singleton. by right.
    - destruct Hcs as [_ ->]. eexists _, sweeps. split; [done|]. split.
      + apply Forall_fmap, Forall_forall. done.
      + apply Forall_forall. intros x Hx. left. eapply sweepCall_not_create; eauto. }
  destruct Hsplit as (creates & rest & -> & Hcreates & Hrest).
  rewrite Forall_forall in Hcreates. rewrite Forall_forall in Hrest.
  apply lookup_app_Some in Hi as [Hi|[Hle Hi]].
  { apply list_elem_of_lookup_2, Hcreates in Hi. congruence. }
  apply lookup_app_Some in Hj as [Hj|[Hle' Hj]].
  { apply lookup_lt_Some in Hj. lia. }
  pose proof (list_elem_of_lookup_2 _ _ _ Hj) as Hin'.
  destruct (Hrest _ Hin') as [Hno|Hone]; [congruence|].
  rewrite Hone in Hi. apply list_lookup_singleton_Some in Hi as [_ <-]. congruence.
Qed.

Lemma updateAirtable_order opts kinds : ∀ unmatched r cache i j c c',
  NoDup kinds →
  out_calls (updateAirtable opts kinds unmatched r cache) !! i = Some c →
  out_calls (updateAirtable opts kinds unmatched r cache) !! j = Some c' →
  callKind c = callKind c' →
  isCreate c = false → isCreate c' = true → j < i.
Proof.
  induction kinds as [|kind kinds IH];
    intros unmatched r cache i j c c' Hnd Hi Hj Hkind Hc Hc'; [done|].
  apply NoDup_cons in Hnd as [Hfresh Hnd]. simpl in Hi, Hj.
  destruct (applyKind _ kind _ _ r) as [[[r' ct] cs] e] eqn:Hrun.
  assert (Hhead : ∀ x, x ∈ cs → callKind x = kind)
    by (intros x Hx; eapply applyKind_callKind; eauto).
  destruct e as [msg|]; simpl in Hi, Hj.
  { eapply applyKind_order; eauto. }
  apply lookup_app_Some in Hi as [Hi|[Hle Hi]];
    apply lookup_app_Some in Hj as [Hj|[Hle' Hj]].
  - eapply applyKind_order; eauto.
  - apply list_elem_of_lookup_2 in Hi, Hj.
    apply Hhead in Hi. apply updateAirtable_callKind in Hj.
    destruct Hfresh. congruence.
  - apply lookup_lt_Some in Hj. lia.
  - specialize (IH _ _ _ _ _ _ _ Hnd Hi Hj Hkind Hc Hc'). lia.
Qed.

(** A phase that returns no error has gone through the turn of every
    kind. *)
Lemma updateAirtable_complete opts kinds : ∀ unmatched r cache kind,
  NoDup kinds → kind ∈ kinds →
  out_err (updateAirtable opts kinds unmatched r cache) = None →
  ∃ r0 r' ct' cs,
    applyKind (TableNames opts kind) kind (unmatched kind) (cache kind) r0
    = (r', ct', cs, None)
    ∧ cs ⊆ out_calls (updateAirtable opts kinds unmatched r cache)
    ∧ out_cache (updateAirtable opts kinds unmatched r cache) kind = ct'.
Proof.
  induction kinds as [|k kinds IH]; intros unmatched r cache kind Hnd Hin Herr.
  { by apply elem_of_nil in Hin. }
  apply NoDup_cons in Hnd as [Hfresh Hnd]. simpl in *.
  destruct (applyKind _ k _ _ r) as [[[r' ct] cs] e] eqn:Hrun.
  destruct e as [msg|]; simpl in *; [done|].
  destruct (decide (kind = k)) as [->|Hne].
  - exists r, r', ct, cs. split; [done|]. split; [set_solver|].
    by rewrite updateAirtable_cache_other, setTable_eq.
  - apply elem_of_cons in Hin as [?|Hin]; [done|].
    destruct (IH _ _ _ _ Hnd Hin Herr) as (r0 & r1 & ct' & cs' & Hturn & Hsub & Hc).
    rewrite setTable_ne in Hturn by done.
    exists r0, r1, ct', cs'. split; [done|]. split; [set_solver|done].
Qed.

End UpdatePhase.

Section Claims.
Context {R : Type} `{Client R}.
Variable tableKinds : list TableKind.
Variable mapRange : gmap string Feature → list (string * Feature).
Variable ToRecord : Feature → DB → Rec.t.
Variable FilterByTargets : list Issue.t → list string → list Issue.t.

Abbreviation run := (airtableSync tableKinds mapRange ToRecord FilterByTargets).
Abbreviation desired opts issues :=
  (collectFeatures (FilterByTargets issues (Targets opts))).
Abbreviation classified features cache0 :=
  (computeFields tableKinds mapRange ToRecord features cache0).
Abbreviation built features cache0 :=
  (builtRecords ToRecord (cache0, NewDB) (workList tableKinds mapRange features)).

Lemma classified_IDs features cache0 k :
  Rec.ID <$> (classified features cache0).1 k = Rec.ID <$> cache0 k.
Proof. rewrite computeFields_built. apply foldl_stage_IDs. Qed.

Lemma classified_length features cache0 k :
  length ((classified features cache0).1 k) = length (cache0 k).
Proof.
  rewrite <- (length_fmap Rec.ID), classified_IDs. apply length_fmap.
Qed.

Lemma classified_unmatched features cache0 kind b :
  b ∈ (classified features cache0).2 kind →
  ∃ f, (kind, f, b) ∈ built features cache0.
Proof.
  rewrite computeFields_built. intros Hb.
  apply foldl_stage_unmatched in Hb as [Hb|([[k f] b'] & Hin & Hk & Hb)].
  - by apply elem_of_nil in Hb.
  - simpl in *. subst. by exists f.
Qed.

Lemma updateAirtable_creates opts kinds : ∀ unmatched r cache k u e,
  CallCreate k u e ∈ out_calls (updateAirtable opts kinds unmatched r cache) →
  u ∈ unmatched k.
Proof.
  induction kinds as [|kind kinds IH]; intros unmatched r cache k u e Hin;
    simpl in Hin.
  { by apply elem_of_nil in Hin. }
  destruct (applyKind _ kind _ _ r) as [[[r' ct] cs] e'] eqn:Hrun.
  assert (Hhead : CallCreate k u e ∈ cs → u ∈ unmatched k).
  { intros Hcs.
    pose proof (applyKind_callKind _ _ _ _ _ _ _ _ _ _ Hrun Hcs) as Hk.
    simpl in Hk. subst kind.
    apply applyKind_inv in Hrun as (created & n & sweeps & _ & _ & _ & Hsw & Hc).
    destruct e' as [msg|].
    - destruct Hc as (v & Hv & _ & ->).
      apply elem_of_app in Hcs as [Hcs|Hcs].
      + apply list_elem_of_fmap in Hcs as (w & Hw & Hin').
        inversion Hw; subst. by eapply subseteq_take.
      + apply list_elem_of_singleton in Hcs. inversion Hcs; subst.
        by eapply list_elem_of_lookup_2.
    - destruct Hc as [_ ->]. apply elem_of_app in Hcs as [Hcs|Hcs].
      + apply list_elem_of_fmap in Hcs as (w & Hw & Hin'). by inversion Hw; subst.
      + rewrite Forall_forall in Hsw. by apply Hsw, sweepCall_not_create in Hcs. }
  destruct e' as [msg|]; simpl in Hin; [auto|].
  apply elem_of_app in Hin as [Hin|Hin]; eauto.
Qed.

(** *** Failure of a creation *)

(** C2 (amended): a failed Create ends the run.  It is the last remote
    call of the run and the run returns its error: the creations before
    it were issued, no creation, update or deletion follows it, for that
    kind or for any later kind. *)
Theorem failed_create_aborts_run opts loaded r kind u msg :
  let out := airtableSync tableKinds mapRange ToRecord FilterByTargets opts loaded r in
  CallCreate kind u (Some msg) ∈ out_calls out →
  out_err out = Some msg
  ∧ ∃ cs, out_calls out = cs ++ [CallCreate kind u (Some msg)].
Proof.
  cbn zeta. intros Hin.
  destruct (sync_mutation _ _ _ _ _ _ _ _ Hin eq_refl)
    as (issues & cache0 & cs0 & -> & Hb & Ht & Hfetch & Hupd).
  rewrite (sync_proceeds _ _ _ _ _ _ _ _ _ Hb Ht Hfetch). simpl.
  apply updateAirtable_failed_create in Hupd as [Herr [cs Hcs]].
  split; [done|]. exists (cs0 ++ cs). by rewrite Hcs, app_assoc.
Qed.

(** *** Records are built before anything is created *)

(** C3 (amended): every record passed to Create was built during the
    classification pass, which precedes every creation of every kind:
    the cache its builder read held, for every kind, the internal IDs of
    the rows the remote store listed at the start of the run and no
    other, so a reference can only resolve to a row that existed before
    the run. *)
Theorem records_built_before_any_create opts issues r kind u e :
  CallCreate kind u e
  ∈ out_calls (airtableSync tableKinds mapRange ToRecord FilterByTargets opts
                 (inr issues) r) →
  ∃ cache0 cs0 f c,
    fetchTables opts tableKinds r NewDB = (cache0, cs0, None)
    ∧ (kind, f, u) ∈ built (desired opts issues) cache0
    ∧ u = ToRecord f c
    ∧ ∀ k, k ∈ tableKinds →
        ∃ rows, TableList r (TableNames opts k) = inr rows
                ∧ Rec.ID <$> c k = rows.*1.
Proof.
  intros Hin.
  destruct (sync_mutation _ _ _ _ _ _ _ _ Hin eq_refl)
    as (issues' & cache0 & cs0 & Heq & Hb & Ht & Hfetch & Hupd).
  inversion Heq; subst issues'. clear Heq.
  apply updateAirtable_creates, classified_unmatched in Hupd as [f Hbuilt].
  destruct (builtRecords_from _ _ _ _ _ _ Hbuilt) as (c & -> & Hc).
  exists cache0, cs0, f, c. repeat split; try done.
  intros k Hk.
  destruct (fetchTables_fetched _ _ _ _ _ _ k Hfetch) as [Hrows _].
  destruct (Hrows Hk) as (rows & Hlist & Hcache).
  exists rows. split; [done|]. rewrite Hc. simpl. rewrite Hcache.
  unfold fetched. rewrite <- list_fmap_compose. done.
Qed.

(** *** Created records and the pass over the table *)

Lemma updateAirtable_sweep_call opts kinds unmatched r cache c :
  NoDup kinds →
  c ∈ out_calls (updateAirtable opts kinds unmatched r cache) →
  isCreate c = false →
  sweepCall (callKind c) (cache (callKind c)) c
  ∧ ∃ created,
      out_cache (updateAirtable opts kinds unmatched r cache) (callKind c)
      = cache (callKind c) ++ created.
Proof.
  intros Hnd Hc Hno.
  destruct (updateAirtable_turn _ _ _ _ _ _ Hnd Hc)
    as (r0 & r' & ct' & cs & e & Hturn & Hcs & Hout).
  apply applyKind_inv in Hturn as (created & n & sweeps & -> & _ & _ & Hsw & Hshape).
  rewrite Forall_forall in Hsw.
  split; [|by exists created].
  destruct e as [msg|].
  - destruct Hshape as (v & _ & _ & ->).
    apply elem_of_app in Hcs as [Hcs|Hcs].
    + apply list_elem_of_fmap in Hcs as (w & Hw & _). by rewrite Hw in Hno.
    + apply list_elem_of_singleton in Hcs. by rewrite Hcs in Hno.
  - destruct Hshape as [_ ->]. apply elem_of_app in Hcs as [Hcs|Hcs]; [|auto].
    apply list_elem_of_fmap in Hcs as (w & Hw & _). by rewrite Hw in Hno.
Qed.

Lemma updateAirtable_created opts kinds unmatched r cache kind u :
  NoDup kinds →
  CallCreate kind u None ∈ out_calls (updateAirtable opts kinds unmatched r cache) →
  ∃ p id,
    out_cache (updateAirtable opts kinds unmatched r cache) kind
      !! (length (cache kind) + p)
    = Some (Rec.mk id (Rec.Fields u) StateNew).
Proof.
  intros Hnd Hc.
  destruct (updateAirtable_turn _ _ _ _ _ _ Hnd Hc)
    as (r0 & r' & ct' & cs & e & Hturn & Hcs & Hout).
  simpl in *.
  apply applyKind_inv in Hturn
    as (created & n & sweeps & -> & Hnew & Hfields & Hsw & Hshape).
  rewrite Forall_forall in Hsw.
  assert (Hu : u ∈ take n (unmatched kind)).
  { destruct e as [msg|].
    - destruct Hshape as (v & _ & _ & ->).
      apply elem_of_app in Hcs as [Hcs|Hcs].
      + apply list_elem_of_fmap in Hcs as (w & Hw & Hin). by inversion Hw; subst.
      + apply list_elem_of_singleton in Hcs. done.
    - destruct Hshape as [-> ->]. rewrite take_ge by done.
      apply elem_of_app in Hcs as [Hcs|Hcs].
      + apply list_elem_of_fmap in Hcs as (w & Hw & Hin). by inversion Hw; subst.
      + by apply Hsw, sweepCall_not_create in Hcs. }
  apply list_elem_of_lookup in Hu as [p Hp].
  assert (Hf : (Rec.Fields <$> created) !! p = Some (Rec.Fields u))
    by (by rewrite Hfields, list_lookup_fmap, Hp).
  apply list_lookup_fmap_Some in Hf as (rec & Hrec & Hp').
  rewrite Forall_forall in Hnew.
  pose proof (Hnew _ (list_elem_of_lookup_2 _ _ _ Hp')) as Hst.
  exists p, (Rec.ID rec). rewrite Hout.
  rewrite lookup_app_r by lia. replace (_ + p - _) with p by lia.
  rewrite Hp'. destruct rec; simpl in *. by subst.
Qed.

(** C10: in a run whose fetch succeeded, every record successfully
    created sits in the cached table of its kind behind the fetched
    records, in state [StateNew]; every Update and every Delete is issued
    for a fetched record, found in state [StateChanged] or
    [StateUnknown]; and no Create of a kind is issued after an Update or
    a Delete of that kind.  So no record created in a run is updated or
    deleted in that run. *)
Theorem created_records_never_updated_or_deleted opts loaded r cache0 cs0 :
  NoDup tableKinds →
  fetchTables opts tableKinds r NewDB = (cache0, cs0, None) →
  let out := airtableSync tableKinds mapRange ToRecord FilterByTargets opts loaded r in
  (∀ kind u, CallCreate kind u None ∈ out_calls out →
     ∃ idx id, (length (cache0 kind) ≤ idx)%nat
       ∧ out_cache out kind !! idx = Some (Rec.mk id (Rec.Fields u) StateNew))
  ∧ (∀ kind idx rec e,
       CallUpdate kind idx rec e ∈ out_calls out
       ∨ CallDelete kind idx rec e ∈ out_calls out →
       (idx < length (cache0 kind))%nat
       ∧ out_cache out kind !! idx = Some rec
       ∧ (Rec.State rec = StateUnknown ∨ Rec.State rec = StateChanged))
  ∧ (∀ i j c c',
       out_calls out !! i = Some c → out_calls out !! j = Some c' →
       callKind c = callKind c' →
       isUpdate c = true ∨ isDelete c = true → isCreate c' = true → (j < i)%nat).
Proof.
  intros Hnd Hfetch. cbn zeta.
  assert (Hrun : ∀ c, c ∈ out_calls (run opts loaded r) → isMutation c = true →
            ∃ issues,
              run opts loaded r
              = (let cu := classified (desired opts issues) cache0 in
                 let out := updateAirtable opts tableKinds cu.2 r cu.1 in
                 mkOutcome (out_remote out) (out_cache out)
                   (cs0 ++ out_calls out) (out_err out))).
  { intros c Hc Hmut.
    destruct (sync_mutation _ _ _ _ _ _ _ _ Hc Hmut)
      as (issues & cache0' & cs0' & -> & Hb & Ht & Hfetch' & _).
    exists issues. by apply sync_proceeds. }
  assert (Hlists : ∀ c, c ∈ cs0 → isMutation c = false).
  { intros c Hc. destruct (fetchTables_calls opts tableKinds r NewDB c) as [e He].
    - by rewrite Hfetch.
    - by rewrite He. }
  split; [|split].
  - intros kind u Hin.
    destruct (Hrun _ Hin eq_refl) as [issues Heq]. rewrite Heq in Hin |- *.
    cbn zeta in *. simpl in *.
    apply elem_of_app in Hin as [Hin|Hin]; [by apply Hlists in Hin|].
    destruct (updateAirtable_created _ _ _ _ _ _ _ Hnd Hin) as (p & id & Hp).
    rewrite classified_length in Hp.
    exists (length (cache0 kind) + p), id. split; [lia|done].
  - intros kind idx rec e Hin.
    assert (Hsweep : ∀ c, c ∈ out_calls (run opts loaded r) →
              isCreate c = false → isMutation c = true → callKind c = kind →
              ∃ ct created,
                length ct = length (cache0 kind) ∧ sweepCall kind ct c
                ∧ out_cache (run opts loaded r) kind = ct ++ created).
    { intros c Hc Hno Hmut Hk.
      destruct (Hrun _ Hc Hmut) as [issues Heq]. rewrite Heq in Hc |- *.
      cbn zeta in *. simpl in *.
      apply elem_of_app in Hc as [Hc|Hc]; [apply Hlists in Hc; congruence|].
      destruct (updateAirtable_sweep_call _ _ _ _ _ _ Hnd Hc Hno)
        as [Hsw [created Hout]].
      rewrite Hk in Hsw, Hout. eexists _, created.
      split; [apply classified_length|]. split; [exact Hsw|exact Hout]. }
    assert (∃ ct created j rec' e',
              length ct = length (cache0 kind)
              ∧ out_cache (run opts loaded r) kind = ct ++ created
              ∧ ct !! j = Some rec'
              ∧ ((Rec.State rec' = StateUnknown
                  ∧ (CallUpdate kind idx rec e = CallDelete kind j rec' e'
                     ∨ CallDelete kind idx rec e = CallDelete kind j rec' e'))
                 ∨ (Rec.State rec' = StateChanged
                    ∧ (CallUpdate kind idx rec e = CallUpdate kind j rec' e'
                       ∨ CallDelete kind idx rec e = CallUpdate kind j rec' e'))))
      as (ct & created & j & rec' & e' & Hlen & Hout & Hj & Hcase).
    { destruct Hin as [Hin|Hin];
        destruct (Hsweep _ Hin eq_refl eq_refl eq_refl)
          as (ct & created & Hlen & (j & rec' & e' & Hj & Hcase) & Hout);
        exists ct, created, j, rec', e'; repeat split; try done;
        destruct Hcase as [[Hst Heq]|[Hst Heq]]; auto. }
    assert (idx = j ∧ rec = rec'
            ∧ (Rec.State rec' = StateUnknown ∨ Rec.State rec' = StateChanged))
      as (-> & -> & Hst).
    { destruct Hcase as [[Hst [Heq|Heq]]|[Hst [Heq|Heq]]];
        inversion Heq; subst; auto. }
    rewrite Hout. split; [|split; [|done]].
    + apply lookup_lt_Some in Hj. lia.
    + by apply lookup_app_l_Some.
  - intros i j c c' Hi Hj Hkind Hc Hc'.
    assert (isMutation c = true ∧ isCreate c = false) as [Hmut Hno].
    { destruct c; simpl in *; destruct Hc; done. }
    destruct (Hrun c (list_elem_of_lookup_2 _ _ _ Hi) Hmut) as [issues Heq].
    rewrite Heq in Hi, Hj. cbn zeta in *. simpl in *.
    apply lookup_app_Some in Hi as [Hi|[Hle Hi]].
    { apply list_elem_of_lookup_2, Hlists in Hi. congruence. }
    apply lookup_app_Some in Hj as [Hj|[Hle' Hj]].
    { apply list_elem_of_lookup_2, Hlists in Hj.
      destruct c'; simpl in *; done. }
    pose proof (updateAirtable_order _ _ _ _ _ _ _ _ _ Hnd Hi Hj Hkind Hno Hc').
    lia.
Qed.

(** *** Classification *)

Hypothesis tableKinds_NoDup : NoDup tableKinds.
Hypothesis mapRange_perm : ∀ m, mapRange m ≡ₚ map_to_list m.
Hypothesis ToRecord_fieldID : ∀ f c, GetFieldID (ToRecord f c) = GetID f.

Lemma built_entry features kind id f :
  kind ∈ tableKinds → features kind !! id = Some f →
  ∀ cache0, ∃ b, (kind, f, b) ∈ built features cache0.
Proof.
  intros Hkind Hf cache0.
  assert (Hw : (kind, f) ∈ workList tableKinds mapRange features)
    by (apply elem_of_workList; eauto).
  rewrite <- (builtRecords_work ToRecord _ (cache0, NewDB)) in Hw.
  apply list_elem_of_fmap in Hw as ([[k g] b] & Heq & Hin).
  simpl in Heq. inversion Heq; subst. by exists b.
Qed.

Lemma built_entry_inv features kind f b cache0 :
  (∀ kind id f, features kind !! id = Some f → GetID f = id) →
  (kind, f, b) ∈ built features cache0 →
  kind ∈ tableKinds ∧ features kind !! GetID f = Some f.
Proof.
  intros Hkeys Hin.
  assert (Hw : (kind, f) ∈ workList tableKinds mapRange features).
  { rewrite <- (builtRecords_work ToRecord _ (cache0, NewDB)).
    apply list_elem_of_fmap. by exists (kind, f, b). }
  apply elem_of_workList in Hw as [Hk [id Hf]]; [|done].
  split; [done|]. by rewrite (Hkeys _ _ _ Hf).
Qed.

(** C6: every entry of the feature maps is classified against the
    cached table of its kind by ExternalID.  With no cached record of
    that ExternalID the record built for it is queued in [unmatched]
    (New).  Otherwise the first such cached record is switched to
    [StateUnchanged] when its fields equal those of the built record,
    and to [StateChanged], with the built fields copied onto it, when
    they differ.  A cached record that no entry matches is left as it
    was fetched, in [StateUnknown]. *)
Theorem classification_by_external_id filtered cache0 :
  (∀ k rec, rec ∈ cache0 k → Rec.State rec = StateUnknown) →
  let features := collectFeatures filtered in
  let cu := classified features cache0 in
  (∀ kind id f, kind ∈ tableKinds → features kind !! id = Some f →
     ∃ b, (kind, f, b) ∈ built features cache0
       ∧ match findIdx (cache0 kind) id with
         | None => b ∈ cu.2 kind
         | Some (idx, rec0) =>
             cu.1 kind !! idx
             = Some (if decide (Rec.Fields rec0 = Rec.Fields b)
                     then Rec.mk (Rec.ID rec0) (Rec.Fields rec0) StateUnchanged
                     else Rec.mk (Rec.ID rec0) (Rec.Fields b) StateChanged)
         end)
  ∧ (∀ kind idx rec0, cache0 kind !! idx = Some rec0 →
       (∀ id f, kind ∈ tableKinds → features kind !! id = Some f →
          fst <$> findIdx (cache0 kind) id ≠ Some idx) →
       cu.1 kind !! idx = Some rec0 ∧ Rec.State rec0 = StateUnknown).
Proof.
  intros Hfetched. cbn zeta.
  pose proof (collectFeatures_key filtered) as Hkeys.
  pose proof (computeFields_classified tableKinds mapRange ToRecord
                tableKinds_NoDup mapRange_perm (collectFeatures filtered) cache0
                Hkeys ToRecord_fieldID) as [_ _ Hhit Hrest Hum].
  split.
  - intros kind id f Hkind Hf.
    destruct (built_entry _ _ _ _ Hkind Hf cache0) as [b Hb].
    exists b. split; [done|].
    pose proof (Hkeys _ _ _ Hf) as Hid.
    destruct (findIdx (cache0 kind) id) as [[idx rec0]|] eqn:Hfind.
    + rewrite (Hhit (kind, f, b) kind idx rec0 Hb).
      * unfold staged. simpl. by case_decide.
      * split; [done|]. simpl. by rewrite Hid, Hfind.
      * by apply findIdx_Some in Hfind as [? _].
    + rewrite Hum. simpl. apply list_elem_of_fmap. exists (kind, f, b).
      split; [done|]. apply list_elem_of_filter. split; [|done].
      split; [done|]. simpl. by rewrite Hid.
  - intros kind idx rec0 Hidx Hno. split.
    + rewrite Hrest; [done|]. intros [[k f] b] Hin [Hk Hfind]. simpl in *. subst k.
      destruct (built_entry_inv _ _ _ _ _ Hkeys Hin) as [Hkind Hf].
      by apply (Hno _ _ Hkind Hf).
    + by eapply Hfetched, list_elem_of_lookup_2.
Qed.

(** C9 (amended): the record builder has no error result, and no entry
    is skipped.  For every entry of the feature maps a record is built,
    from a cache holding the fetched rows, whether or not its references
    resolve there; the entry is then matched against the cached record
    of its ExternalID and staged on it, an Update following when the
    fields differ, or it is queued and passed to Create.  The calls are
    issued unless a failed Create has ended the run before. *)
Theorem every_entry_is_processed opts issues r cache0 cs0 :
  BaseID opts ≠ "" → Token opts ≠ "" →
  fetchTables opts tableKinds r NewDB = (cache0, cs0, None) →
  let out :=
    airtableSync tableKinds mapRange ToRecord FilterByTargets opts (inr issues) r in
  ∀ kind id f, kind ∈ tableKinds → desired opts issues kind !! id = Some f →
    ∃ c, let b := ToRecord f c in
      (∀ k, Rec.ID <$> c k = Rec.ID <$> cache0 k)
      ∧ ((∃ idx rec0,
            findIdx (cache0 kind) id = Some (idx, rec0)
            ∧ (classified (desired opts issues) cache0).1 kind !! idx
              = Some (staged rec0 b)
            ∧ (Rec.Fields rec0 ≠ Rec.Fields b → out_err out = None →
               ∃ e, CallUpdate kind idx (staged rec0 b) e ∈ out_calls out))
         ∨ (findIdx (cache0 kind) id = None
            ∧ b ∈ (classified (desired opts issues) cache0).2 kind
            ∧ (out_err out = None → CallCreate kind b None ∈ out_calls out))).
Proof.
  intros Hbase Htoken Hfetch. cbn zeta. intros kind id f Hkind Hf.
  pose proof (collectFeatures_key (FilterByTargets issues (Targets opts))) as Hkeys.
  pose proof (computeFields_classified tableKinds mapRange ToRecord
                tableKinds_NoDup mapRange_perm (desired opts issues) cache0
                Hkeys ToRecord_fieldID) as [_ _ Hhit _ Hum].
  destruct (built_entry _ _ _ _ Hkind Hf cache0) as [b Hb].
  destruct (builtRecords_from _ _ _ _ _ _ Hb) as (c & -> & Hc).
  exists c. split; [done|].
  pose proof (Hkeys _ _ _ Hf) as Hid.
  rewrite (sync_proceeds _ _ _ _ _ _ _ _ _ Hbase Htoken Hfetch). simpl.
  assert (Hturn : out_err (updateAirtable opts tableKinds
                    (classified (desired opts issues) cache0).2 r
                    (classified (desired opts issues) cache0).1) = None →
            ∃ r0 r' ct' cs,
              applyKind (TableNames opts kind) kind
                ((classified (desired opts issues) cache0).2 kind)
                ((classified (desired opts issues) cache0).1 kind) r0
              = (r', ct', cs, None)
              ∧ ∀ x, x ∈ cs → x ∈ cs0 ++ out_calls (updateAirtable opts tableKinds
                    (classified (desired opts issues) cache0).2 r
                    (classified (desired opts issues) cache0).1)).
  { intros Herr.
    destruct (updateAirtable_complete _ _ _ _ _ _ tableKinds_NoDup Hkind Herr)
      as (r0 & r' & ct' & cs & Happly & Hsub & _).
    exists r0, r', ct', cs. split; [done|]. intros x Hx.
    apply elem_of_app. right. by apply Hsub. }
  destruct (findIdx (cache0 kind) id) as [[idx rec0]|] eqn:Hfind.
  - left. exists idx, rec0. split; [done|].
    assert (Hst : (classified (desired opts issues) cache0).1 kind !! idx
                  = Some (staged rec0 (ToRecord f c))).
    { apply (Hhit (kind, f, ToRecord f c) kind idx rec0 Hb).
      - split; [done|]. simpl. by rewrite Hid, Hfind.
      - by apply findIdx_Some in Hfind as [? _]. }
    split; [done|]. intros Hne Herr.
    destruct (Hturn Herr) as (r0 & r' & ct' & cs & Happly & Hsub).
    destruct (applyKind_complete _ _ _ _ _ _ _ _ _ _ Happly Hst) as [_ Hupd].
    destruct Hupd as [e He].
    { unfold staged. by rewrite decide_False. }
    exists e. by apply Hsub.
  - right. split; [done|].
    assert (Hin : ToRecord f c ∈ (classified (desired opts issues) cache0).2 kind).
    { rewrite Hum. simpl. apply list_elem_of_fmap. exists (kind, f, ToRecord f c).
      split; [done|]. apply list_elem_of_filter. split; [|done].
      split; [done|]. simpl. by rewrite Hid. }
    split; [done|]. intros Herr.
    destruct (Hturn Herr) as (r0 & r' & ct' & cs & Happly & Hsub).
    apply Hsub.
    apply applyKind_inv in Happly as (created & n & sweeps & _ & _ & _ & _ & _ & ->).
    apply elem_of_app. left. apply list_elem_of_fmap. by exists (ToRecord f c).
Qed.

End Claims.

(** ** Runs against the store *)

Lemma toRecord_fieldID f c : GetFieldID (toRecord f c) = GetID f.
Proof. by destruct f. Qed.

Lemma dependencyOrder_NoDup : NoDup dependencyOrder.
Proof. compute_done. Defined.

Lemma fatal_error_aborts_before_any_mutation_witness :
  TableList noTables (TableNames exOpts ProviderIndex) = inl "TABLE_NOT_FOUND"
  ∧ let out := syncStore exOpts [exIssue] noTables in
    is_Some (out_err out)
    ∧ Forall (λ c, isMutation c = false) (out_calls out)
    ∧ out_remote out = noTables
    ∧ (BaseID exOpts = "" ∨ Token exOpts = "" → out_calls out = []).
Proof.
  split; [reflexivity|].
  apply (fatal_error_aborts_before_any_mutation dependencyOrder map_to_list
           toRecord (λ issues _, issues) exOpts (inr [exIssue]) noTables).
  right. exists ProviderIndex, "TABLE_NOT_FOUND". split; [|reflexivity].
  compute_done.
Defined.

Lemma fetchTables_names {R : Type} `{Client R} opts opts' kinds (r : R) :
  TableNames opts' = TableNames opts →
  ∀ cache, fetchTables opts' kinds r cache = fetchTables opts kinds r cache.
Proof.
  intros Hnames. induction kinds as [|kind kinds IH]; intros cache; [done|].
  simpl. rewrite Hnames. destruct (TableList r _); [done|]. by rewrite IH.
Qed.

Lemma updateAirtable_names {R : Type} `{Client R} opts opts' kinds unmatched :
  TableNames opts' = TableNames opts →
  ∀ (r : R) cache,
    updateAirtable opts' kinds unmatched r cache
    = updateAirtable opts kinds unmatched r cache.
Proof.
  intros Hnames. induction kinds as [|kind kinds IH]; intros r cache; [done|].
  simpl. rewrite Hnames. destruct (applyKind _ _ _ _ _) as [[[r' ct] cs] [e|]]; [done|].
  by rewrite IH.
Qed.

(** Whatever the destructive-action flag says, the run is the same. *)
Lemma airtableSync_ignores_DestroyInvalidRecords {R : Type} `{Client R}
    tableKinds mapRange ToRecord FilterByTargets b opts loaded (r : R) :
  airtableSync tableKinds mapRange ToRecord FilterByTargets (withDestroy b opts)
    loaded r
  = airtableSync tableKinds mapRange ToRecord FilterByTargets opts loaded r.
Proof.
  unfold airtableSync. simpl.
  rewrite (fetchTables_names opts (withDestroy b opts)) by done.
  destruct (_ || _); [done|]. destruct loaded as [e|issues]; [done|].
  destruct (fetchTables _ _ _ _) as [[cache cs] [e|]]; [done|].
  destruct (computeFields _ _ _ _ _) as [cache' unmatched].
  by rewrite (updateAirtable_names opts (withDestroy b opts)).
Qed.

(** C1: the run never reads [DestroyInvalidRecords].  With the flag unset,
    a cached row that no desired entry matches is deleted all the same:
    the run against [strayStore] issues a Delete for the stray row and the
    row is gone from the remote table. *)
Theorem unflagged_run_deletes_unmatched_record :
  let out := syncStore exOpts [] strayStore in
  DestroyInvalidRecords exOpts = false
  ∧ tables strayStore !! "Accounts" = Some [("rec0", Fields.mk "ext-7" "carol" [])]
  ∧ filter (λ c, isMutation c = true) (out_calls out)
    = [CallDelete AccountIndex 0
         (Rec.mk "rec0" (Fields.mk "ext-7" "carol" []) StateUnknown) None]
  ∧ out_err out = None
  ∧ tables (out_remote out) !! "Accounts" = Some [].
Proof. vm_compute. repeat split. Qed.

Lemma failed_create_aborts_run_witness :
  let out := syncStore exOpts [exAssigned] refusingBob in
  CallCreate AccountIndex bobRecord (Some "INVALID_REQUEST") ∈ out_calls out
  ∧ out_err out = Some "INVALID_REQUEST"
  ∧ ∃ cs, out_calls out = cs ++ [CallCreate AccountIndex bobRecord (Some "INVALID_REQUEST")].
Proof.
  cbn zeta.
  assert (Hin : CallCreate AccountIndex bobRecord (Some "INVALID_REQUEST")
                ∈ out_calls (syncStore exOpts [exAssigned] refusingBob))
    by compute_done.
  split; [exact Hin|].
  exact (failed_create_aborts_run dependencyOrder map_to_list toRecord
           (λ issues _, issues) exOpts (inr [exAssigned]) refusingBob
           AccountIndex bobRecord "INVALID_REQUEST" Hin).
Defined.

(** C2 is false on the code: [exAssigned] brings two new accounts; the
    Create of [exBob]'s fails, the Create of [exAlice]'s is never issued,
    and the run returns the error. *)
Lemma failed_create_prevents_remaining_creates :
  let out := syncStore exOpts [exAssigned] refusingBob in
  (computeFields dependencyOrder map_to_list toRecord (collectFeatures [exAssigned])
     (fetchTables exOpts dependencyOrder refusingBob NewDB).1.1).2 AccountIndex
  = [bobRecord; aliceRecord]
  ∧ CallCreate AccountIndex bobRecord (Some "INVALID_REQUEST") ∈ out_calls out
  ∧ (∀ e, CallCreate AccountIndex aliceRecord e ∉ out_calls out)
  ∧ out_err out = Some "INVALID_REQUEST".
Proof.
  cbn zeta. split; [by vm_compute|]. split; [compute_done|]. split; [|by vm_compute].
  intros e Hin.
  assert (Hcalls : existsb (λ c, match c with
                                 | CallCreate k u _ =>
                                     bool_decide (k = AccountIndex ∧ u = aliceRecord)
                                 | _ => false
                                 end)
                     (out_calls (syncStore exOpts [exAssigned] refusingBob)) = false)
    by (by vm_compute).
  apply not_true_iff_false in Hcalls. apply Hcalls.
  apply existsb_exists. exists (CallCreate AccountIndex aliceRecord e).
  split; [by apply list_elem_of_In|]. by apply bool_decide_eq_true_2.
Qed.

Lemma records_built_before_any_create_witness :
  let out := syncStore exOpts [exIssue] emptyStore in
  CallCreate RepositoryIndex repositoryRecord None ∈ out_calls out
  ∧ ∃ cache0 cs0 f c,
      fetchTables exOpts dependencyOrder emptyStore NewDB = (cache0, cs0, None)
      ∧ (RepositoryIndex, f, repositoryRecord)
          ∈ builtRecords toRecord (cache0, NewDB)
              (workList dependencyOrder map_to_list (collectFeatures [exIssue]))
      ∧ repositoryRecord = toRecord f c
      ∧ ∀ k, k ∈ dependencyOrder →
          ∃ rows, TableList emptyStore (TableNames exOpts k) = inr rows
                  ∧ Rec.ID <$> c k = rows.*1.
Proof.
  cbn zeta.
  assert (Hin : CallCreate RepositoryIndex repositoryRecord None
                ∈ out_calls (syncStore exOpts [exIssue] emptyStore))
    by compute_done.
  split; [exact Hin|].
  exact (records_built_before_any_create dependencyOrder map_to_list toRecord
           (λ issues _, issues) exOpts [exIssue] emptyStore
           RepositoryIndex repositoryRecord None Hin).
Defined.

(** C3 is false on the code: for the chain of [exIssue], with nothing
    present remotely, one run creates the account, the repository and the
    issue, but the repository row stores no reference to the account's
    fresh internal ID and the issue row none to the repository's. *)
Lemma fresh_internal_ids_not_embedded :
  let s := out_remote (syncStore exOpts [exIssue] emptyStore) in
  out_err (syncStore exOpts [exIssue] emptyStore) = None
  ∧ internalID s "Accounts" "ext-42" = Some "rec1"
  ∧ storedLink s "Repositories" "repo-1" "Owner" = Some [""]
  ∧ internalID s "Repositories" "repo-1" = Some "rec2"
  ∧ storedLink s "Issues and PRs" "issue-1" "Repository" = Some [""].
Proof. vm_compute. repeat split. Qed.

(** C9 is false on the code: when the record of [exRepository] is built
    the Accounts table holds no record for its owner, yet the build
    returns a record and the entry is created like any other; with the
    kinds in the order [ParseFlags] lists them, the issue is the first
    record created, while no repository row exists at all. *)
Lemma unresolved_reference_is_created :
  let out := syncStore exOpts [exIssue] emptyStore in
  let out' :=
    airtableSync flagOrder map_to_list toRecord (λ issues _, issues) exOpts
      (inr [exIssue]) emptyStore in
  TableList emptyStore (TableNames exOpts AccountIndex) = inr []
  ∧ CallCreate RepositoryIndex repositoryRecord None ∈ out_calls out
  ∧ out_err out = None
  ∧ TableList emptyStore (TableNames exOpts RepositoryIndex) = inr []
  ∧ filter (λ c, isMutation c = true) (out_calls out') !! 0
    = Some (CallCreate IssueIndex issueRecord None)
  ∧ out_err out' = None.
Proof.
  cbn zeta. split; [by vm_compute|]. split; [compute_done|]. by vm_compute.
Qed.

Lemma fetchTables_Unknown {R : Type} `{Client R} opts kinds (r : R) cache0 cs0 k rec :
  fetchTables opts kinds r NewDB = (cache0, cs0, None) →
  rec ∈ cache0 k → Rec.State rec = StateUnknown.
Proof.
  intros Hfetch Hin.
  destruct (fetchTables_fetched _ _ _ _ _ _ k Hfetch) as [Hk Hnk].
  destruct (decide (k ∈ kinds)) as [Hd|Hd].
  - destruct (Hk Hd) as (rows & _ & Hrows). rewrite Hrows in Hin.
    by eapply fetched_Unknown.
  - rewrite (Hnk Hd) in Hin. by apply elem_of_nil in Hin.
Qed.

Lemma strayCache_fetched :
  fetchTables exOpts dependencyOrder strayStore NewDB
  = (strayCache, (fetchTables exOpts dependencyOrder strayStore NewDB).1.2, None).
Proof. by vm_compute. Defined.

Lemma created_records_never_updated_or_deleted_witness :
  let out := syncStore exOpts [exIssue] strayStore in
  (∀ kind u, CallCreate kind u None ∈ out_calls out →
     ∃ idx id, (length (strayCache kind) ≤ idx)%nat
       ∧ out_cache out kind !! idx = Some (Rec.mk id (Rec.Fields u) StateNew))
  ∧ (∀ kind idx rec e,
       CallUpdate kind idx rec e ∈ out_calls out
       ∨ CallDelete kind idx rec e ∈ out_calls out →
       (idx < length (strayCache kind))%nat
       ∧ out_cache out kind !! idx = Some rec
       ∧ (Rec.State rec = StateUnknown ∨ Rec.State rec = StateChanged))
  ∧ (∀ i j c c',
       out_calls out !! i = Some c → out_calls out !! j = Some c' →
       callKind c = callKind c' →
       isUpdate c = true ∨ isDelete c = true → isCreate c' = true → (j < i)%nat).
Proof.
  exact (created_records_never_updated_or_deleted dependencyOrder map_to_list
           toRecord (λ issues _, issues) exOpts (inr [exIssue]) strayStore
           strayCache _ dependencyOrder_NoDup strayCache_fetched).
Defined.

Lemma classification_by_external_id_witness :
  let features := collectFeatures [exIssue] in
  let cu := computeFields dependencyOrder map_to_list toRecord features strayCache in
  (∀ kind id f, kind ∈ dependencyOrder → features kind !! id = Some f →
     ∃ b, (kind, f, b)
            ∈ builtRecords toRecord (strayCache, NewDB)
                (workList dependencyOrder map_to_list features)
       ∧ match findIdx (strayCache kind) id with
         | None => b ∈ cu.2 kind
         | Some (idx, rec0) =>
             cu.1 kind !! idx
             = Some (if decide (Rec.Fields rec0 = Rec.Fields b)
                     then Rec.mk (Rec.ID rec0) (Rec.Fields rec0) StateUnchanged
                     else Rec.mk (Rec.ID rec0) (Rec.Fields b) StateChanged)
         end)
  ∧ (∀ kind idx rec0, strayCache kind !! idx = Some rec0 →
       (∀ id f, kind ∈ dependencyOrder → features kind !! id = Some f →
          fst <$> findIdx (strayCache kind) id ≠ Some idx) →
       cu.1 kind !! idx = Some rec0 ∧ Rec.State rec0 = StateUnknown).
Proof.
  apply (classification_by_external_id dependencyOrder map_to_list toRecord
           dependencyOrder_NoDup (λ m, reflexivity _) toRecord_fieldID
           [exIssue] strayCache).
  intros k rec. exact (fetchTables_Unknown _ _ _ _ _ _ _ strayCache_fetched).
Defined.

Lemma every_entry_is_processed_witness :
  let out := syncStore exOpts [exIssue] emptyStore in
  let cache0 := (fetchTables exOpts dependencyOrder emptyStore NewDB).1.1 in
  let cu := computeFields dependencyOrder map_to_list toRecord
              (collectFeatures [exIssue]) cache0 in
  ∃ c, let b := toRecord (FRepository exRepository) c in
    (∀ k, Rec.ID <$> c k = Rec.ID <$> cache0 k)
    ∧ ((∃ idx rec0,
          findIdx (cache0 RepositoryIndex) "repo-1" = Some (idx, rec0)
          ∧ cu.1 RepositoryIndex !! idx = Some (staged rec0 b)
          ∧ (Rec.Fields rec0 ≠ Rec.Fields b → out_err out = None →
             ∃ e, CallUpdate RepositoryIndex idx (staged rec0 b) e ∈ out_calls out))
       ∨ (findIdx (cache0 RepositoryIndex) "repo-1" = None
          ∧ b ∈ cu.2 RepositoryIndex
          ∧ (out_err out = None → CallCreate RepositoryIndex b None ∈ out_calls out))).
Proof.
  refine (every_entry_is_processed dependencyOrder map_to_list toRecord
            (λ issues _, issues) dependencyOrder_NoDup (λ m, reflexivity _)
            toRecord_fieldID exOpts [exIssue] emptyStore
            (fetchTables exOpts dependencyOrder emptyStore NewDB).1.1
            (fetchTables exOpts dependencyOrder emptyStore NewDB).1.2
            _ _ _ RepositoryIndex "repo-1" (FRepository exRepository) _ _).
  - done.
  - done.
  - by vm_compute.
  - compute_done.
  - by vm_compute.
Defined.

(** ** The update phase against the store *)

Lemma freshID_inj n m : freshID n = freshID m → n = m.
Proof.
  unfold freshID. intros Heq. simpl in Heq. inversion Heq as [Hs].
  change (NilEmpty.string_of_uint (Nat.to_uint n)
          = NilEmpty.string_of_uint (Nat.to_uint m)) in Hs.
  apply DecimalNat.Unsigned.to_uint_inj.
  assert (Hu : NilEmpty.uint_of_string (NilEmpty.string_of_uint (Nat.to_uint n))
               = NilEmpty.uint_of_string (NilEmpty.string_of_uint (Nat.to_uint m)))
    by (by rewrite Hs).
  rewrite !NilEmpty.usu in Hu. by inversion Hu.
Qed.

Lemma createdRows_cons next u ut :
  createdRows next (u :: ut) = (freshID next, Rec.Fields u) :: createdRows (S next) ut.
Proof. done. Qed.

Lemma createdRows_IDs next ut :
  (createdRows next ut).*1 = freshID <$> seq next (length ut).
Proof.
  unfold createdRows. revert next. induction ut as [|u ut IH]; intros next; [done|].
  csimpl. by rewrite IH.
Qed.

Lemma createdRows_fields next ut : (createdRows next ut).*2 = Rec.Fields <$> ut.
Proof.
  unfold createdRows. revert next. induction ut as [|u ut IH]; intros next; [done|].
  csimpl. by rewrite IH.
Qed.

Lemma storeCreate_cases s name u rows :
  tables s !! name = Some rows →
  storeCreate s name u
  = if decide (GetFieldID u ∈ refused s) then (s, inl "INVALID_REQUEST")
    else (mkStore (<[name := rows ++ [(freshID (nextID s), Rec.Fields u)]]> (tables s))
            (S (nextID s)) (refused s),
          inr (freshID (nextID s))).
Proof. intros Hrows. unfold storeCreate. by rewrite Hrows. Qed.

Lemma storeUpdate_cases s name u rows :
  tables s !! name = Some rows →
  storeUpdate s name u
  = if decide (GetFieldID u ∈ refused s) then (s, Some "INVALID_REQUEST")
    else if decide (Rec.ID u ∈ rows.*1) then
      (mkStore
         (<[name := (λ row : Row, if decide (row.1 = Rec.ID u)
                                  then (row.1, Rec.Fields u) else row) <$> rows]>
            (tables s))
         (nextID s) (refused s),
       None)
    else (s, Some "NOT_FOUND").
Proof. intros Hrows. unfold storeUpdate. by rewrite Hrows. Qed.

Lemma storeDelete_cases s name u rows :
  tables s !! name = Some rows →
  storeDelete s name u
  = if decide (Rec.ID u ∈ rows.*1) then
      (mkStore (<[name := filter (λ row : Row, row.1 ≠ Rec.ID u) rows]> (tables s))
         (nextID s) (refused s),
       None)
    else (s, Some "NOT_FOUND").
Proof. intros Hrows. unfold storeDelete. by rewrite Hrows. Qed.

Lemma createRecords_store tableName kind ut : ∀ s ct s' ct' cs rows,
  tables s !! tableName = Some rows →
  createRecords tableName kind ut s ct = (s', ct', cs, None) →
  tables s' = <[tableName := rows ++ createdRows (nextID s) ut]> (tables s)
  ∧ ct' = ct ++ createdRecords (nextID s) ut
  ∧ nextID s' = (nextID s + length ut)%nat
  ∧ refused s' = refused s.
Proof.
  induction ut as [|u ut IH]; intros s ct s' ct' cs rows Hrows Hrun; simpl in Hrun.
  - inversion Hrun; subst. unfold createdRecords, createdRows. simpl.
    rewrite !app_nil_r, Nat.add_0_r. by rewrite insert_id.
  - rewrite (storeCreate_cases _ _ _ _ Hrows) in Hrun.
    destruct (decide (GetFieldID u ∈ refused s)); [done|].
    destruct (createRecords tableName kind ut _ _) as [[[s1 ct1] cs1] e1] eqn:Hrec.
    inversion Hrun; subst. clear Hrun.
    eapply IH in Hrec as (Ht & Hct & Hn & Hr); [|simpl; apply lookup_insert_eq].
    cbn [tables nextID refused] in Ht, Hct, Hn, Hr. rewrite Ht, Hct, Hn, Hr.
    rewrite insert_insert_eq, createdRows_cons, <- app_assoc.
    unfold Append, createdRecords. rewrite createdRows_cons, fmap_cons, <- app_assoc.
    repeat split; try done. simpl. lia.
Qed.

Lemma filter_other_IDs (l1 l2 : list Row) (row : Row) :
  NoDup (l1 ++ row :: l2).*1 →
  filter (λ r : Row, r.1 ≠ row.1) (l1 ++ row :: l2) = l1 ++ l2.
Proof.
  rewrite fmap_app, fmap_cons. intros Hnd.
  apply NoDup_app in Hnd as (_ & Hl1 & Hnd). apply NoDup_cons in Hnd as [Hl2 _].
  assert (Hkeep : ∀ l : list Row, row.1 ∉ l.*1 → filter (λ r : Row, r.1 ≠ row.1) l = l).
  { intros l Hl. induction l as [|x l IH]; [done|].
    rewrite fmap_cons in Hl. apply not_elem_of_cons in Hl as [Hx Hl].
    rewrite filter_cons, decide_True by done. by rewrite IH. }
  rewrite filter_app, filter_cons, decide_False by (intros Hne; by apply Hne).
  rewrite !Hkeep; [done|done|].
  intros Hin. apply (Hl1 _ Hin). apply elem_of_cons. by left.
Qed.

Lemma update_one_ID (l1 l2 : list Row) (row : Row) (fields : Fields.t) :
  NoDup (l1 ++ row :: l2).*1 →
  (λ r : Row, if decide (r.1 = row.1) then (r.1, fields) else r) <$> (l1 ++ row :: l2)
  = l1 ++ (row.1, fields) :: l2.
Proof.
  rewrite fmap_app, fmap_cons. intros Hnd.
  apply NoDup_app in Hnd as (_ & Hl1 & Hnd). apply NoDup_cons in Hnd as [Hl2 _].
  assert (Hkeep : ∀ l : list Row, row.1 ∉ l.*1 →
            (λ r : Row, if decide (r.1 = row.1) then (r.1, fields) else r) <$> l = l).
  { intros l Hl. induction l as [|x l IH]; [done|].
    rewrite fmap_cons in Hl. apply not_elem_of_cons in Hl as [Hx Hl].
    rewrite fmap_cons, decide_False by done. by rewrite IH. }
  rewrite fmap_app, fmap_cons, decide_True by done.
  rewrite !Hkeep; [done|done|].
  intros Hin. apply (Hl1 _ Hin). apply elem_of_cons. by left.
Qed.

Lemma sweep_store tableName kind ct : ∀ i s s' cs done rows,
  sweep tableName kind i ct s = (s', cs) → Forall callOk cs →
  tables s !! tableName = Some (done ++ rows) →
  NoDup (done ++ rows).*1 →
  rows.*1 = Rec.ID <$> ct →
  (∀ j rec row, ct !! j = Some rec → rows !! j = Some row →
     Rec.State rec = StateUnchanged ∨ Rec.State rec = StateNew →
     row.2 = Rec.Fields rec) →
  tables s' = <[tableName := done ++ omap kept ct]> (tables s)
  ∧ nextID s' = nextID s ∧ refused s' = refused s.
Proof.
  induction ct as [|rec ct IH]; intros i s s' cs done rows Hrun Hok Hrows Hnd Hids Hfields.
  { apply fmap_nil_inv in Hids. subst rows. simpl in Hrun. inversion Hrun; subst.
    simpl. by rewrite insert_id. }
  destruct rows as [|row rows]; [done|].
  rewrite !fmap_cons in Hids. inversion Hids as [[Hid Hids']]. clear Hids.
  assert (Hfields' : ∀ j rec0 row0, ct !! j = Some rec0 → rows !! j = Some row0 →
            Rec.State rec0 = StateUnchanged ∨ Rec.State rec0 = StateNew →
            row0.2 = Rec.Fields rec0)
    by (intros j; apply (Hfields (S j))).
  assert (Hstep : ∀ fields s1 cs1,
            sweep tableName kind (S i) ct s1 = (s', cs1) → Forall callOk cs1 →
            tables s1 = <[tableName := (done ++ [(row.1, fields)]) ++ rows]> (tables s) →
            nextID s1 = nextID s → refused s1 = refused s →
            tables s' = <[tableName := done ++ (row.1, fields) :: omap kept ct]> (tables s)
            ∧ nextID s' = nextID s ∧ refused s' = refused s).
  { intros fields s1 cs1 Hrec Hok1 Ht Hn Hr.
    destruct (IH (S i) s1 s' cs1 (done ++ [(row.1, fields)]) rows Hrec Hok1)
      as (Ht' & Hn' & Hr'); try done.
    - rewrite Ht. apply lookup_insert_eq.
    - rewrite <- app_assoc. simpl.
      by rewrite fmap_app, fmap_cons in Hnd |- *.
    - rewrite Ht', Ht, insert_insert_eq, <- app_assoc. split; [done|].
      split; congruence. }
  simpl in Hrun. unfold kept at 1. simpl.
  destruct (Rec.State rec) eqn:Hstate.
  - (* deleted *)
    rewrite (storeDelete_cases _ _ _ _ Hrows) in Hrun.
    rewrite decide_True in Hrun
      by (rewrite fmap_app, fmap_cons, <- Hid; set_solver).
    destruct (sweep tableName kind (S i) ct _) as [s2 cs1] eqn:Hrec.
    inversion Hrun; subst. clear Hrun. apply Forall_cons in Hok as [_ Hok].
    rewrite <- Hid, filter_other_IDs in Hrec by done.
    destruct (IH _ _ _ _ done rows Hrec Hok) as (Ht' & Hn' & Hr'); try done.
    { apply lookup_insert_eq. }
    { rewrite fmap_app, fmap_cons in Hnd. rewrite fmap_app.
      apply NoDup_app in Hnd as (H1 & H2 & H3). apply NoDup_cons in H3 as [_ H3].
      apply NoDup_app. repeat split; try done.
      intros x Hx Hx'. apply (H2 x Hx). apply elem_of_cons. by right. }
    simpl in *. rewrite Ht', insert_insert_eq. done.
  - (* nothing to do *)
    assert (Hrow : row = (row.1, Rec.Fields rec)).
    { rewrite <- (Hfields 0 rec row); auto. by destruct row. }
    rewrite <- Hid. apply (Hstep (Rec.Fields rec) s cs Hrun Hok); try done.
    rewrite <- app_assoc. simpl. rewrite <- Hrow. by rewrite insert_id.
  - (* updated *)
    rewrite (storeUpdate_cases _ _ _ _ Hrows) in Hrun.
    destruct (decide (GetFieldID rec ∈ refused s)).
    { destruct (sweep tableName kind (S i) ct s) as [s2 cs1].
      inversion Hrun; subst. apply Forall_cons in Hok as [Hbad _]. done. }
    rewrite decide_True in Hrun
      by (rewrite fmap_app, fmap_cons, <- Hid; set_solver).
    destruct (sweep tableName kind (S i) ct _) as [s2 cs1] eqn:Hrec.
    inversion Hrun; subst. clear Hrun. apply Forall_cons in Hok as [_ Hok].
    rewrite <- Hid, update_one_ID in Hrec by done.
    rewrite <- Hid. apply (Hstep (Rec.Fields rec) _ cs1 Hrec Hok); try done.
    simpl. by rewrite <- app_assoc.
  - (* created in this run *)
    assert (Hrow : row = (row.1, Rec.Fields rec)).
    { rewrite <- (Hfields 0 rec row); auto. by destruct row. }
    rewrite <- Hid. apply (Hstep (Rec.Fields rec) s cs Hrun Hok); try done.
    rewrite <- app_assoc. simpl. rewrite <- Hrow. by rewrite insert_id.
Qed.

Lemma createdRecords_IDs next ut :
  Rec.ID <$> createdRecords next ut = (createdRows next ut).*1.
Proof. unfold createdRecords. by rewrite <- list_fmap_compose. Qed.

Lemma createdRecords_kept next ut :
  omap kept (createdRecords next ut) = createdRows next ut.
Proof.
  unfold createdRecords. induction (createdRows next ut) as [|[id fields] l IH]; [done|].
  rewrite fmap_cons. cbn [omap list_omap]. unfold kept at 1. simpl. by f_equal.
Qed.

Lemma createdRecords_lookup next ut j rec :
  createdRecords next ut !! j = Some rec →
  Rec.State rec = StateNew
  ∧ createdRows next ut !! j = Some (Rec.ID rec, Rec.Fields rec).
Proof.
  unfold createdRecords. rewrite list_lookup_fmap.
  destruct (createdRows next ut !! j) as [[id fields]|]; [|done].
  simpl. intros Heq. by inversion Heq.
Qed.

Lemma kept_IDs_sublist (ct : Table) : (omap kept ct).*1 `sublist_of` Rec.ID <$> ct.
Proof.
  induction ct as [|rec ct IH]; [done|].
  csimpl. unfold kept at 1. destruct (Rec.State rec); csimpl;
    first [by apply sublist_cons | by apply sublist_skip].
Qed.

Lemma createdRows_fresh next ut id :
  id ∈ (createdRows next ut).*1 →
  ∃ m, id = freshID m ∧ (next ≤ m < next + length ut)%nat.
Proof.
  rewrite createdRows_IDs. intros (m & -> & Hm)%list_elem_of_fmap.
  apply elem_of_seq in Hm. by exists m.
Qed.

Lemma createdRows_NoDup next ut : NoDup (createdRows next ut).*1.
Proof.
  rewrite createdRows_IDs. apply NoDup_fmap_2; [|apply NoDup_seq].
  intros n m. apply freshID_inj.
Qed.

Lemma applyKind_store tableName kind ut ct s s' ct' cs rows :
  applyKind tableName kind ut ct s = (s', ct', cs, None) → Forall callOk cs →
  wfStore s → tables s !! tableName = Some rows →
  rows.*1 = Rec.ID <$> ct →
  (∀ j rec row, ct !! j = Some rec → rows !! j = Some row →
     Rec.State rec = StateUnchanged ∨ Rec.State rec = StateNew →
     row.2 = Rec.Fields rec) →
  tables s' = <[tableName := omap kept ct ++ createdRows (nextID s) ut]> (tables s)
  ∧ ct' = ct ++ createdRecords (nextID s) ut
  ∧ nextID s' = (nextID s + length ut)%nat
  ∧ refused s' = refused s
  ∧ wfStore s'.
Proof.
  intros Hrun Hok Hwf Hrows Hids Hfields. unfold applyKind in Hrun.
  destruct (createRecords tableName kind ut s ct) as [[[s1 ct1] cs1] e1] eqn:Hc.
  destruct e1 as [msg|]; [done|].
  destruct (sweep tableName kind 0 ct1 s1) as [s2 cs2] eqn:Hs.
  inversion Hrun; subst. clear Hrun. apply Forall_app in Hok as [_ Hok].
  destruct (createRecords_store _ _ _ _ _ _ _ _ _ Hrows Hc) as (Ht1 & -> & Hn1 & Hr1).
  destruct (Hwf _ _ Hrows) as [Hnd Hfresh].
  assert (Hdisj : ∀ id, id ∈ rows.*1 → id ∉ (createdRows (nextID s) ut).*1).
  { intros id Hin Hin'. apply createdRows_fresh in Hin' as (m & -> & Hm).
    apply (Hfresh m); [lia|done]. }
  assert (Hlen : length rows = length ct)
    by (by rewrite <- (length_fmap fst), Hids, length_fmap).
  destruct (sweep_store _ _ _ _ _ _ _ [] (rows ++ createdRows (nextID s) ut) Hs Hok)
    as (Ht2 & Hn2 & Hr2).
  - rewrite Ht1. apply lookup_insert_eq.
  - simpl. rewrite fmap_app. apply NoDup_app.
    split; [done|]. split; [done|]. apply createdRows_NoDup.
  - by rewrite !fmap_app, Hids, createdRecords_IDs.
  - intros j rec row Hrec Hrow Hst.
    apply lookup_app_Some in Hrec as [Hrec|[Hle Hrec]].
    + rewrite lookup_app_l in Hrow by (apply lookup_lt_Some in Hrec; lia). eauto.
    + rewrite lookup_app_r in Hrow by lia. rewrite Hlen in Hrow.
      apply createdRecords_lookup in Hrec as [_ Hrec].
      pose proof (eq_trans (eq_sym Hrow) Hrec) as Heq. by inversion Heq.
  - simpl in Ht2. rewrite omap_app, createdRecords_kept in Ht2.
    rewrite Ht1, insert_insert_eq in Ht2.
    split; [done|]. split; [done|]. split; [lia|]. split; [congruence|].
    intros name rows' Hrows'. rewrite Ht2 in Hrows'.
    destruct (decide (name = tableName)) as [->|Hne].
    + rewrite lookup_insert_eq in Hrows'. inversion Hrows'; subst rows'. clear Hrows'.
      pose proof (kept_IDs_sublist ct) as Hsub. rewrite <- Hids in Hsub.
      rewrite fmap_app. split.
      * apply NoDup_app. split; [by eapply sublist_NoDup|].
        split; [|apply createdRows_NoDup].
        intros id Hin. apply Hdisj. by eapply sublist_subseteq.
      * intros m Hm [Hin|Hin]%elem_of_app.
        -- apply (Hfresh m); [lia|]. by eapply sublist_subseteq.
        -- apply createdRows_fresh in Hin as (m' & Heq & Hm').
           apply freshID_inj in Heq. lia.
    + rewrite lookup_insert_ne in Hrows' by done.
      destruct (Hwf _ _ Hrows') as [Hnd' Hfresh']. split; [done|].
      intros m Hm. apply Hfresh'. lia.
Qed.

Lemma updateAirtable_store opts kinds : ∀ unmatched s cache,
  NoDup kinds →
  (∀ k1 k2, k1 ∈ kinds → k2 ∈ kinds →
     TableNames opts k1 = TableNames opts k2 → k1 = k2) →
  wfStore s → (∀ k, k ∈ kinds → inSync opts s cache k) →
  out_err (updateAirtable opts kinds unmatched s cache) = None →
  Forall callOk (out_calls (updateAirtable opts kinds unmatched s cache)) →
  wfStore (out_remote (updateAirtable opts kinds unmatched s cache))
  ∧ (∀ name, (∀ k, k ∈ kinds → TableNames opts k ≠ name) →
       tables (out_remote (updateAirtable opts kinds unmatched s cache)) !! name
       = tables s !! name)
  ∧ ∀ k, k ∈ kinds →
      ∃ next,
        tables (out_remote (updateAirtable opts kinds unmatched s cache))
          !! TableNames opts k
        = Some (omap kept (cache k) ++ createdRows next (unmatched k))
        ∧ out_cache (updateAirtable opts kinds unmatched s cache) k
          = cache k ++ createdRecords next (unmatched k).
Proof.
  induction kinds as [|kind kinds IH]; intros unmatched s cache Hnd Hinj Hwf Hsync Herr Hok.
  { simpl. split; [done|]. split; [done|]. intros k Hk. by apply elem_of_nil in Hk. }
  apply NoDup_cons in Hnd as [Hfresh Hnd]. simpl in Herr, Hok |- *.
  destruct (applyKind _ kind _ _ s) as [[[s1 ct1] cs1] e1] eqn:Hrun.
  destruct e1 as [msg|]; [done|]. simpl in Herr, Hok |- *.
  apply Forall_app in Hok as [Hok1 Hok].
  destruct (Hsync kind) as (rows & Hrows & Hids & Hfields); [set_solver|].
  destruct (applyKind_store _ _ _ _ _ _ _ _ _ Hrun Hok1 Hwf Hrows Hids Hfields)
    as (Ht1 & Hct1 & Hn1 & Hr1 & Hwf1).
  assert (Hnames : ∀ k, k ∈ kinds → TableNames opts k ≠ TableNames opts kind).
  { intros k Hk Heq. apply Hinj in Heq; [|set_solver|set_solver]. by subst. }
  destruct (IH unmatched s1 (setTable cache kind ct1) Hnd) as (Hwf' & Hframe & Hrest);
    try done.
  { intros k1 k2 H1 H2. apply Hinj; set_solver. }
  { intros k Hk. destruct (Hsync k) as (rows' & Hrows' & Hids' & Hfields'); [set_solver|].
    assert (k ≠ kind) by (intros ->; done).
    exists rows'. rewrite setTable_ne by done. split; [|done].
    rewrite Ht1, lookup_insert_ne; [done|]. intros Heq. by apply (Hnames k). }
  split; [done|]. split.
  - intros name Hname. rewrite Hframe by (intros k Hk; apply Hname; set_solver).
    rewrite Ht1, lookup_insert_ne; [done|]. apply Hname. set_solver.
  - intros k [->|Hk]%elem_of_cons.
    + exists (nextID s). rewrite Hframe by done.
      rewrite Ht1, lookup_insert_eq. split; [done|].
      by rewrite updateAirtable_cache_other, setTable_eq.
    + destruct (Hrest k Hk) as (next & Ht & Hc). exists next.
      assert (k ≠ kind) by (intros ->; done).
      by rewrite setTable_ne in Ht, Hc.
Qed.

(** *** What the classification leaves at each place of a table *)

Lemma Classified_lookup c0 u0 es cu k j rec :
  Classified c0 u0 es cu → cu.1 k !! j = Some rec →
  ∃ rec0, c0 k !! j = Some rec0
    ∧ ((rec = rec0 ∧ ∀ e, e ∈ es → ¬ hits c0 e k j)
       ∨ ∃ e, e ∈ es ∧ hits c0 e k j ∧ rec = staged rec0 e.2).
Proof.
  intros [Hf Hi Hhit Hrest _] Hrec.
  assert (is_Some (c0 k !! j)) as [rec0 Hrec0].
  { apply lookup_lt_is_Some. apply lookup_lt_Some in Hrec.
    by rewrite <- (length_fmap Rec.ID), <- Hi, length_fmap. }
  exists rec0. split; [done|].
  destruct (decide (Exists (λ e, hits c0 e k j) es)) as [Hex|Hno].
  - right. apply Exists_exists in Hex as (e & Hin & Hh). exists e.
    split; [done|]. split; [done|].
    rewrite (Hhit e k j rec0 Hin Hh Hrec0) in Hrec. by inversion Hrec.
  - left. assert (Hall : ∀ e, e ∈ es → ¬ hits c0 e k j).
    { intros e Hin Hh. apply Hno, Exists_exists. eauto. }
    split; [|done]. rewrite (Hrest k j Hall) in Hrec. congruence.
Qed.

Lemma staged_fields rec0 b : Rec.Fields (staged rec0 b) = Rec.Fields b.
Proof. unfold staged. case_decide; [simpl; congruence|done]. Qed.

Lemma staged_state rec0 b :
  Rec.State (staged rec0 b) = StateUnchanged ∧ Rec.Fields rec0 = Rec.Fields b
  ∨ Rec.State (staged rec0 b) = StateChanged ∧ Rec.Fields rec0 ≠ Rec.Fields b.
Proof. unfold staged. case_decide; auto. Qed.

(** *** The rows a successful run leaves in a table *)

Lemma filter_none {A} (P : A → Prop) `{∀ x, Decision (P x)} (l : list A) :
  (∀ x, x ∈ l → ¬ P x) → filter P l = [].
Proof.
  induction l as [|x l IH]; intros Hno; [done|].
  rewrite filter_cons, decide_False by (apply Hno; set_solver).
  apply IH. intros y Hy. apply Hno. set_solver.
Qed.

Lemma filter_omap_unique {A B} (g : A → option B) (P : B → Prop)
    `{∀ y, Decision (P y)} (l : list A) : ∀ idx x y,
  l !! idx = Some x → g x = Some y → P y →
  (∀ j x' y', j ≠ idx → l !! j = Some x' → g x' = Some y' → ¬ P y') →
  filter P (omap g l) = [y].
Proof.
  induction l as [|a l IH]; intros idx x y Hidx Hg HP Hothers; [done|].
  destruct idx as [|idx]; simpl in Hidx.
  - inversion Hidx; subst a. cbn [omap list_omap]. rewrite Hg.
    rewrite filter_cons, decide_True by done. f_equal.
    apply filter_none. intros y' (x' & Hx' & Hg')%list_elem_of_omap.
    apply list_elem_of_lookup in Hx' as [j Hj].
    by apply (Hothers (S j) x' y').
  - cbn [omap list_omap].
    assert (Hrest : filter P (omap g l) = [y]).
    { apply (IH idx x y); try done. intros j x' y' Hne. apply (Hothers (S j)). lia. }
    destruct (g a) as [b|] eqn:Hga; [|done].
    rewrite filter_cons, decide_False; [done|].
    by apply (Hothers 0 a b).
Qed.

Lemma NoDup_fmap_eq {A B} (f : A → B) (l : list A) x y :
  NoDup (f <$> l) → x ∈ l → y ∈ l → f x = f y → x = y.
Proof.
  intros Hnd [i Hi]%list_elem_of_lookup [j Hj]%list_elem_of_lookup Heq.
  assert (i = j).
  { apply (NoDup_lookup _ _ _ (f x) Hnd); rewrite list_lookup_fmap.
    - by rewrite Hi.
    - by rewrite Hj, Heq. }
  subst. congruence.
Qed.

Lemma createdRows_filter_unique ut : ∀ next u,
  NoDup (GetFieldID <$> ut) → u ∈ ut →
  ∃ rid, filter (λ row : Row, Fields.ID row.2 = GetFieldID u) (createdRows next ut)
         = [(rid, Rec.Fields u)].
Proof.
  induction ut as [|v ut IH]; intros next u Hnd Hu; [by apply elem_of_nil in Hu|].
  rewrite fmap_cons in Hnd. apply NoDup_cons in Hnd as [Hv Hnd].
  rewrite createdRows_cons, filter_cons. simpl.
  apply elem_of_cons in Hu as [->|Hu].
  - exists (freshID next). rewrite decide_True by done. f_equal.
    apply filter_none. intros row Hrow Hid.
    apply Hv. apply list_elem_of_fmap.
    assert (Hf : row.2 ∈ (createdRows (S next) ut).*2)
      by (apply list_elem_of_fmap; eauto).
    rewrite createdRows_fields in Hf.
    apply list_elem_of_fmap in Hf as (w & Hw & Hin).
    exists w. split; [|done]. unfold GetFieldID. by rewrite <- Hw.
  - destruct (IH (S next) u Hnd Hu) as [rid Hrid]. exists rid.
    rewrite decide_False; [done|].
    intros Hid. apply Hv. apply list_elem_of_fmap. exists u. by split.
Qed.

Section FinalRows.
Variables (c0 : DB) (es : list entry) (cu : DB * DB).
Hypothesis cu_classified : Classified c0 NewDB es cu.
Hypothesis c0_Unknown : ∀ k rec, rec ∈ c0 k → Rec.State rec = StateUnknown.
Hypothesis es_fieldID : Forall (λ e : entry, GetFieldID e.2 = GetID e.1.2) es.
Hypothesis es_NoDup : NoDup (entryKey <$> es).

Lemma kept_row rec row :
  kept rec = Some row →
  row = (Rec.ID rec, Rec.Fields rec) ∧ Rec.State rec ≠ StateUnknown.
Proof. unfold kept. destruct (Rec.State rec); intros Heq; by inversion Heq. Qed.

Lemma unmatched_entries kind b :
  b ∈ cu.2 kind ↔ ∃ e, e ∈ es ∧ misses c0 kind e ∧ e.2 = b.
Proof.
  rewrite (cl_unmatched _ _ _ _ cu_classified). simpl. rewrite list_elem_of_fmap.
  split.
  - intros (e & -> & [Hm Hin]%list_elem_of_filter). eauto.
  - intros (e & Hin & Hm & <-). exists e. split; [done|].
    by apply list_elem_of_filter.
Qed.

Lemma unmatched_NoDup kind : NoDup (GetFieldID <$> cu.2 kind).
Proof.
  rewrite (cl_unmatched _ _ _ _ cu_classified). simpl. rewrite <- list_fmap_compose.
  apply NoDup_fmap_2_strong.
  - intros e e' [[Hk _] Hin]%list_elem_of_filter [[Hk' _] Hin']%list_elem_of_filter Heq.
    simpl in Heq. rewrite Forall_forall in es_fieldID.
    rewrite (es_fieldID _ Hin), (es_fieldID _ Hin') in Heq.
    apply (NoDup_fmap_eq entryKey es); try done.
    unfold entryKey. congruence.
  - apply NoDup_filter. by eapply NoDup_fmap_1.
Qed.

(** Every row left in the table of [kind] carries the fields of a record
    built for an entry of that kind. *)
Lemma final_rows_built kind next row :
  row ∈ omap kept (cu.1 kind) ++ createdRows next (cu.2 kind) →
  ∃ e, e ∈ es ∧ e.1.1 = kind ∧ row.2 = Rec.Fields e.2.
Proof.
  intros [Hin|Hin]%elem_of_app.
  - apply list_elem_of_omap in Hin as (rec & Hrec & Hkept).
    apply kept_row in Hkept as [-> Hst].
    apply list_elem_of_lookup in Hrec as [j Hj].
    destruct (Classified_lookup _ _ _ _ _ _ _ cu_classified Hj)
      as (rec0 & Hrec0 & [[-> _]|(e & He & Hh & ->)]).
    + destruct Hst. eapply c0_Unknown, list_elem_of_lookup_2. done.
    + exists e. split; [done|]. split; [by destruct Hh|].
      simpl. apply staged_fields.
  - assert (Hf : row.2 ∈ (createdRows next (cu.2 kind)).*2)
      by (apply list_elem_of_fmap; eauto).
    rewrite createdRows_fields in Hf.
    apply list_elem_of_fmap in Hf as (b & Hb & Hin').
    apply unmatched_entries in Hin' as (e & He & [Hk _] & <-). eauto.
Qed.

(** For every entry, exactly one row of the table of its kind has its
    ExternalID, and that row carries the fields of the record built for
    the entry. *)
Lemma final_rows_unique kind f b next :
  (kind, f, b) ∈ es →
  ∃ rid,
    filter (λ row : Row, Fields.ID row.2 = GetID f)
      (omap kept (cu.1 kind) ++ createdRows next (cu.2 kind))
    = [(rid, Rec.Fields b)].
Proof.
  intros He. rewrite filter_app.
  pose proof es_fieldID as Hfid. rewrite Forall_forall in Hfid.
  pose proof (Hfid _ He) as Hb. simpl in Hb.
  destruct (findIdx (c0 kind) (GetID f)) as [[idx rec0]|] eqn:Hfind.
  - (* matched: the staged record stays, its duplicates go *)
    pose proof (findIdx_Some _ _ _ _ Hfind) as [Hrec0 Hid0].
    assert (Hh : hits c0 (kind, f, b) kind idx)
      by (split; [done|]; simpl; by rewrite Hfind).
    pose proof (cl_hit _ _ _ _ cu_classified _ _ _ _ He Hh Hrec0) as Hst. simpl in Hst.
    exists (Rec.ID rec0).
    rewrite (filter_omap_unique kept _ _ idx (staged rec0 b)
               (Rec.ID rec0, Rec.Fields b) Hst).
    + rewrite filter_none; [done|].
      intros row Hrow Hid.
      assert (Hf : row.2 ∈ (createdRows next (cu.2 kind)).*2)
        by (apply list_elem_of_fmap; eauto).
      rewrite createdRows_fields in Hf.
      apply list_elem_of_fmap in Hf as (b' & Hb' & Hin').
      apply unmatched_entries in Hin' as (e' & He' & [Hk Hmiss] & <-).
      rewrite Hb' in Hid. change (GetFieldID e'.2 = GetID f) in Hid.
      rewrite (Hfid _ He') in Hid. rewrite Hid in Hmiss. congruence.
    + unfold kept. rewrite staged_ID, staged_fields.
      by destruct (staged_state rec0 b) as [[-> _]|[-> _]].
    + done.
    + intros j rec row Hne Hj Hkept Hid.
      apply kept_row in Hkept as [-> Hstate]. simpl in Hid.
      destruct (Classified_lookup _ _ _ _ _ _ _ cu_classified Hj)
        as (rec0' & Hrec0' & [[-> _]|(e' & He' & Hh' & ->)]).
      * destruct Hstate. eapply c0_Unknown, list_elem_of_lookup_2. done.
      * destruct Hh' as [Hk' Hf'].
        destruct (findIdx (c0 kind) (GetID e'.1.2)) as [[j' r']|] eqn:Hfind'; [|done].
        simpl in Hf'. inversion Hf'; subst j'.
        pose proof (findIdx_Some _ _ _ _ Hfind') as [Hr' Hid'].
        assert (Hx : GetFieldID <$> cu.1 kind !! j = GetFieldID <$> c0 kind !! j)
          by (by rewrite <- !list_lookup_fmap, (cl_fieldIDs _ _ _ _ cu_classified)).
        rewrite Hj, Hr' in Hx. simpl in Hx. inversion Hx as [Hx'].
        assert (Hsame : GetID e'.1.2 = GetID f).
        { rewrite <- Hid', <- Hx'. exact Hid. }
        rewrite Hsame, Hfind in Hfind'. inversion Hfind'. done.
  - (* not matched: the created row is the only one *)
    assert (Hin : b ∈ cu.2 kind).
    { apply unmatched_entries. exists (kind, f, b). split; [done|]. by split. }
    destruct (createdRows_filter_unique _ next b (unmatched_NoDup kind) Hin)
      as [rid Hrid].
    exists rid. rewrite Hb in Hrid. rewrite Hrid.
    rewrite filter_none; [done|].
    intros row (rec & Hrec & Hkept)%list_elem_of_omap Hid.
    apply kept_row in Hkept as [-> _]. simpl in Hid.
    assert (Hx : GetFieldID rec ∈ GetFieldID <$> c0 kind).
    { rewrite <- (cl_fieldIDs _ _ _ _ cu_classified). apply list_elem_of_fmap. eauto. }
    apply list_elem_of_fmap in Hx as (rec0 & Hx & Hin0).
    apply list_find_None in Hfind. rewrite Forall_forall in Hfind.
    apply (Hfind _ Hin0). unfold GetFieldID in *. congruence.
Qed.

End FinalRows.

(** ** Convergence against the store *)

(** A check of [wfStore] that can be computed: the internal IDs of a table
    are distinct and were all handed out already. *)
Lemma wfStore_check s :
  map_Forall
    (λ _ rows, NoDup rows.*1 ∧ rows.*1 ⊆ freshID <$> seq 0 (nextID s)) (tables s) →
  wfStore s.
Proof.
  intros Hall name rows Hrows. destruct (Hall _ _ Hrows) as [Hnd Hsub].
  split; [done|]. intros m Hm Hin.
  apply Hsub, list_elem_of_fmap in Hin as (k & Hk & Hin).
  apply freshID_inj in Hk. apply elem_of_seq in Hin. lia.
Qed.

Lemma defaultTableNames_inj k1 k2 :
  defaultTableNames k1 = defaultTableNames k2 → k1 = k2.
Proof. destruct k1, k2; simpl; intros Heq; done. Qed.

Section Convergence.
Variable tableKinds : list TableKind.
Variable mapRange : gmap string Feature → list (string * Feature).
Variable ToRecord : Feature → DB → Rec.t.
Variable FilterByTargets : list Issue.t → list string → list Issue.t.

Hypothesis tableKinds_NoDup : NoDup tableKinds.
Hypothesis mapRange_perm : ∀ m, mapRange m ≡ₚ map_to_list m.
Hypothesis ToRecord_fieldID : ∀ f c, GetFieldID (ToRecord f c) = GetID f.

Abbreviation desired opts issues :=
  (collectFeatures (FilterByTargets issues (Targets opts))).
Abbreviation classified features cache0 :=
  (computeFields tableKinds mapRange ToRecord features cache0).
Abbreviation built features cache0 :=
  (builtRecords ToRecord (cache0, NewDB) (workList tableKinds mapRange features)).

Lemma classified_inSync opts s cache0 cs0 filtered kind :
  fetchTables opts tableKinds s NewDB = (cache0, cs0, None) → kind ∈ tableKinds →
  inSync opts s (classified (collectFeatures filtered) cache0).1 kind.
Proof.
  intros Hfetch Hkind.
  destruct (fetchTables_fetched _ _ _ _ _ _ kind Hfetch) as [Hrows _].
  destruct (Hrows Hkind) as (rows & Hlist & Hcache).
  simpl in Hlist. unfold storeList in Hlist.
  destruct (tables s !! TableNames opts kind) as [rows'|] eqn:Ht; [|done].
  inversion Hlist; subst rows'. clear Hlist.
  exists rows. split; [done|]. split.
  - rewrite computeFields_built, foldl_stage_IDs. simpl. rewrite Hcache.
    unfold fetched. by rewrite <- list_fmap_compose.
  - intros j rec row Hrec Hrow Hst.
    pose proof (computeFields_classified tableKinds mapRange ToRecord
                  tableKinds_NoDup mapRange_perm (collectFeatures filtered) cache0
                  (collectFeatures_key filtered) ToRecord_fieldID) as Hcl.
    destruct (Classified_lookup _ _ _ _ _ _ _ Hcl Hrec)
      as (rec0 & Hrec0 & Hcase).
    rewrite Hcache in Hrec0. unfold fetched in Hrec0.
    rewrite list_lookup_fmap, Hrow in Hrec0. simpl in Hrec0.
    inversion Hrec0; subst rec0. clear Hrec0.
    destruct Hcase as [[-> _]|(e & _ & _ & ->)]; [done|].
    rewrite staged_fields.
    destruct (staged_state (Rec.mk row.1 row.2 StateUnknown) e.2)
      as [[_ Heq]|[Hch _]]; [done|].
    destruct Hst as [Hst|Hst]; congruence.
Qed.

(** A run that returns no error and whose calls all succeed leaves, in
    the table of every kind, the cached rows it did not delete, with the
    staged fields, and the rows it created. *)
Lemma sync_store_rows opts issues s :
  BaseID opts ≠ "" → Token opts ≠ "" → wfStore s →
  (∀ k1 k2, k1 ∈ tableKinds → k2 ∈ tableKinds →
     TableNames opts k1 = TableNames opts k2 → k1 = k2) →
  let out := airtableSync tableKinds mapRange ToRecord FilterByTargets opts
               (inr issues) s in
  out_err out = None → Forall callOk (out_calls out) →
  ∃ cache0 cs0,
    fetchTables opts tableKinds s NewDB = (cache0, cs0, None)
    ∧ wfStore (out_remote out)
    ∧ ∀ kind, kind ∈ tableKinds →
        ∃ next,
          tables (out_remote out) !! TableNames opts kind
          = Some (omap kept ((classified (desired opts issues) cache0).1 kind)
                  ++ createdRows next ((classified (desired opts issues) cache0).2 kind)).
Proof.
  intros Hb Ht Hwf Hinj. cbn zeta. intros Herr Hok.
  destruct (fetchTables opts tableKinds s NewDB) as [[cache0 cs0] e0] eqn:Hfetch.
  destruct e0 as [msg|].
  { unfold airtableSync in Herr. rewrite !bool_decide_eq_false_2 in Herr by done.
    simpl in Herr. by rewrite Hfetch in Herr. }
  rewrite (sync_proceeds _ _ _ _ _ _ _ _ _ Hb Ht Hfetch) in Herr, Hok |- *.
  simpl in Herr, Hok |- *. apply Forall_app in Hok as [_ Hok].
  exists cache0, cs0. split; [done|].
  destruct (updateAirtable_store opts tableKinds
              (classified (desired opts issues) cache0).2 s
              (classified (desired opts issues) cache0).1
              tableKinds_NoDup Hinj Hwf) as (Hwf' & _ & Hrows); try done.
  { intros k Hk. by eapply classified_inSync. }
  split; [done|]. intros kind Hkind.
  destruct (Hrows kind Hkind) as (next & Hnext & _). by exists next.
Qed.


End Convergence.

Lemma strayStore_wf : wfStore strayStore.
Proof. apply wfStore_check. compute_done. Defined.

Lemma dependencyOrder_names_inj k1 k2 :
  k1 ∈ dependencyOrder → k2 ∈ dependencyOrder →
  TableNames exOpts k1 = TableNames exOpts k2 → k1 = k2.
Proof. intros _ _. apply defaultTableNames_inj. Defined.


(** ** A second run *)

Lemma filter_singleton_index {A} (P : A → Prop) `{∀ x, Decision (P x)}
    (l : list A) : ∀ y i j a b,
  filter P l = [y] → l !! i = Some a → l !! j = Some b → P a → P b → i = j.
Proof.
  induction l as [|x l IH]; intros y i j a b Hf Hi Hj Ha Hb; [done|].
  rewrite filter_cons in Hf. destruct (decide (P x)) as [Hx|Hx].
  - inversion Hf as [[Hy Hnil]].
    destruct i as [|i], j as [|j]; simpl in *; [done| | |].
    + apply list_elem_of_lookup_2 in Hj.
      by destruct (filter_nil_not_elem_of P l b Hnil Hb).
    + apply list_elem_of_lookup_2 in Hi.
      by destruct (filter_nil_not_elem_of P l a Hnil Ha).
    + apply list_elem_of_lookup_2 in Hi.
      by destruct (filter_nil_not_elem_of P l a Hnil Ha).
  - destruct i as [|i], j as [|j]; simpl in *; simplify_eq; try done.
    f_equal. by eapply IH.
Qed.

Lemma filter_singleton_elem {A} (P : A → Prop) `{∀ x, Decision (P x)}
    (l : list A) y a :
  filter P l = [y] → a ∈ l → P a → a = y.
Proof.
  intros Hf Ha HP.
  assert (Hin : a ∈ filter P l) by (by apply list_elem_of_filter).
  rewrite Hf in Hin. by apply list_elem_of_singleton in Hin.
Qed.

Lemma fetchTables_succeeds {R : Type} `{Client R} opts kinds (r : R) : ∀ cache,
  (∀ k, k ∈ kinds → ∃ rows, TableList r (TableNames opts k) = inr rows) →
  ∃ cache' cs, fetchTables opts kinds r cache = (cache', cs, None).
Proof.
  induction kinds as [|kind kinds IH]; intros cache Hlist; simpl; [by eexists _, _|].
  destruct (Hlist kind) as [rows ->]; [set_solver|].
  destruct (IH (setTable cache kind (fetched rows))) as (cache' & cs & ->);
    [intros k Hk; apply Hlist; set_solver|].
  by eexists _, _.
Qed.

Lemma updateAirtable_err {R : Type} `{Client R} opts kinds :
  ∀ unmatched (r : R) cache msg,
  out_err (updateAirtable opts kinds unmatched r cache) = Some msg →
  ∃ k u, CallCreate k u (Some msg)
         ∈ out_calls (updateAirtable opts kinds unmatched r cache).
Proof.
  induction kinds as [|kind kinds IH]; intros unmatched r cache msg Herr; [done|].
  simpl in *.
  destruct (applyKind _ kind _ _ r) as [[[r' ct] cs] e] eqn:Hrun.
  destruct e as [msg'|]; simpl in *.
  - inversion Herr; subst msg'.
    apply applyKind_inv in Hrun as (created & n & sweeps & _ & _ & _ & _ & Hcs).
    destruct Hcs as (u & _ & _ & ->). exists kind, u. set_solver.
  - destruct (IH _ _ _ _ Herr) as (k & u & Hin). exists k, u. set_solver.
Qed.

Section SecondRun.
Variables (rowsF : TableKind → list Row) (c2 : DB) (es2 : list entry) (cu2 : DB * DB).
Hypothesis classified2 : Classified c2 NewDB es2 cu2.
Hypothesis c2_rows : ∀ kind, c2 kind = fetched (rowsF kind).
Hypothesis rows_unique : ∀ kind f b,
  (kind, f, b) ∈ es2 →
  ∃ rid, filter (λ row : Row, Fields.ID row.2 = GetID f) (rowsF kind)
         = [(rid, Rec.Fields b)].
Hypothesis rows_built : ∀ kind row,
  row ∈ rowsF kind → ∃ e, e ∈ es2 ∧ e.1.1 = kind ∧ Fields.ID row.2 = GetID e.1.2.

Lemma fetched_lookup rows j rec :
  fetched rows !! j = Some rec →
  ∃ row, rows !! j = Some row ∧ rec = Rec.mk row.1 row.2 StateUnknown.
Proof.
  unfold fetched. intros (row & -> & Hrow)%list_lookup_fmap_Some. by exists row.
Qed.

Lemma second_run_hit kind f b j rec0 :
  (kind, f, b) ∈ es2 → findIdx (c2 kind) (GetID f) = Some (j, rec0) →
  staged rec0 b = withState StateUnchanged rec0.
Proof.
  intros He Hfind. apply findIdx_Some in Hfind as [Hj Hid].
  rewrite c2_rows in Hj. apply fetched_lookup in Hj as (row & Hrow & ->).
  destruct (rows_unique _ _ _ He) as [rid Hrid].
  pose proof (filter_singleton_elem _ _ _ _ Hrid (list_elem_of_lookup_2 _ _ _ Hrow) Hid)
    as Heq.
  unfold staged. rewrite decide_True; [done|]. simpl. by rewrite Heq.
Qed.

Lemma second_run_no_miss kind e : e ∈ es2 → ¬ misses c2 kind e.
Proof.
  intros He [Hk Hmiss]. destruct e as [[k f] b]. simpl in *. subst k.
  destruct (rows_unique _ _ _ He) as [rid Hrid].
  assert (Hin : (rid, Rec.Fields b) ∈ filter (λ row : Row, Fields.ID row.2 = GetID f)
                                        (rowsF kind))
    by (rewrite Hrid; set_solver).
  apply list_elem_of_filter in Hin as [Hid Hin].
  apply list_find_None in Hmiss. rewrite Forall_forall in Hmiss.
  apply (Hmiss (Rec.mk rid (Rec.Fields b) StateUnknown)); [|done].
  rewrite c2_rows. apply list_elem_of_fmap. by exists (rid, Rec.Fields b).
Qed.

Lemma second_run_nothing_new kind : cu2.2 kind = [].
Proof.
  rewrite (cl_unmatched _ _ _ _ classified2). simpl.
  rewrite filter_none; [done|]. intros e He. by apply second_run_no_miss.
Qed.

Lemma second_run_all_unchanged kind rec :
  rec ∈ cu2.1 kind → Rec.State rec = StateUnchanged.
Proof.
  intros [j Hj]%list_elem_of_lookup.
  destruct (Classified_lookup _ _ _ _ _ _ _ classified2 Hj)
    as (rec0 & Hrec0 & [[-> Hno]|(e & He & Hh & ->)]).
  - exfalso. pose proof Hrec0 as Hrow. rewrite c2_rows in Hrow.
    apply fetched_lookup in Hrow as (row & Hrow & ->).
    destruct (rows_built kind row (list_elem_of_lookup_2 _ _ _ Hrow))
      as ([[k f] b] & He & Hk & Hid).
    simpl in *. subst k.
    destruct (findIdx (c2 kind) (GetID f)) as [[idx r]|] eqn:Hfind.
    + apply (Hno _ He). split; [done|]. simpl. rewrite Hfind. simpl. f_equal.
      destruct (rows_unique _ _ _ He) as [rid Hrid].
      apply findIdx_Some in Hfind as [Hidx Hidr].
      rewrite c2_rows in Hidx. apply fetched_lookup in Hidx as (row' & Hrow' & ->).
      by apply (filter_singleton_index _ _ _ _ _ _ _ Hrid Hrow' Hrow).
    + apply (second_run_no_miss kind _ He). by split.
  - destruct e as [[k f] b]. destruct Hh as [Hk Hf]. simpl in *. subst k.
    destruct (findIdx (c2 kind) (GetID f)) as [[idx r]|] eqn:Hfind; [|done].
    simpl in Hf. inversion Hf; subst idx.
    pose proof (findIdx_Some _ _ _ _ Hfind) as [Hr _].
    rewrite Hrec0 in Hr. inversion Hr; subst r.
    by rewrite (second_run_hit _ _ _ _ _ He Hfind).
Qed.

End SecondRun.

Lemma entries_same_work (es1 es2 : list entry) k f b1 :
  es1.*1 = es2.*1 → (k, f, b1) ∈ es1 → ∃ b2, (k, f, b2) ∈ es2.
Proof.
  intros Hw [i Hi]%list_elem_of_lookup.
  assert (Hi2 : es2.*1 !! i = Some (k, f))
    by (by rewrite <- Hw, list_lookup_fmap, Hi).
  apply list_lookup_fmap_Some in Hi2 as ([kf b2] & Heq & Hi2). simpl in Heq. subst kf.
  exists b2. by eapply list_elem_of_lookup_2.
Qed.

Lemma entries_same_fields (es1 es2 : list entry) k f b2 :
  es1.*1 = es2.*1 →
  Rec.Fields <$> es2.*2 = Rec.Fields <$> es1.*2 →
  (k, f, b2) ∈ es2 →
  ∃ b1, (k, f, b1) ∈ es1 ∧ Rec.Fields b1 = Rec.Fields b2.
Proof.
  intros Hw Hf [i Hi]%list_elem_of_lookup.
  assert (Hi1 : es1.*1 !! i = Some (k, f))
    by (by rewrite Hw, list_lookup_fmap, Hi).
  apply list_lookup_fmap_Some in Hi1 as ([kf b1] & Heq & Hi1). simpl in Heq. subst kf.
  exists b1. split; [by eapply list_elem_of_lookup_2|].
  assert (Hx : (Rec.Fields <$> es2.*2) !! i = (Rec.Fields <$> es1.*2) !! i)
    by (by rewrite Hf).
  rewrite !list_lookup_fmap, Hi, Hi1 in Hx. simpl in Hx. by inversion Hx.
Qed.

Section Idempotence.
Variable tableKinds : list TableKind.
Variable mapRange : gmap string Feature → list (string * Feature).
Variable ToRecord : Feature → DB → Rec.t.
Variable FilterByTargets : list Issue.t → list string → list Issue.t.

Hypothesis tableKinds_NoDup : NoDup tableKinds.
Hypothesis mapRange_perm : ∀ m, mapRange m ≡ₚ map_to_list m.
Hypothesis ToRecord_fieldID : ∀ f c, GetFieldID (ToRecord f c) = GetID f.

Abbreviation desired opts issues :=
  (collectFeatures (FilterByTargets issues (Targets opts))).
Abbreviation classified features cache0 :=
  (computeFields tableKinds mapRange ToRecord features cache0).
Abbreviation built features cache0 :=
  (builtRecords ToRecord (cache0, NewDB) (workList tableKinds mapRange features)).

Lemma built_NoDup filtered cache0 :
  NoDup (entryKey <$> built (collectFeatures filtered) cache0).
Proof.
  pose proof (workList_NoDup tableKinds mapRange tableKinds_NoDup mapRange_perm
                (collectFeatures filtered) (collectFeatures_key filtered)) as Hnd.
  rewrite <- (builtRecords_work ToRecord _ (cache0, NewDB)), <- list_fmap_compose in Hnd.
  exact Hnd.
Qed.

Lemma built_kind filtered cache0 kind f b :
  (kind, f, b) ∈ built (collectFeatures filtered) cache0 → kind ∈ tableKinds.
Proof.
  intros Hin.
  assert (Hw : (kind, f) ∈ workList tableKinds mapRange (collectFeatures filtered)).
  { rewrite <- (builtRecords_work ToRecord _ (cache0, NewDB)).
    apply list_elem_of_fmap. by exists (kind, f, b). }
  by apply elem_of_workList in Hw as [Hk _].
Qed.

(** C4 (amended): after a run that returned no error and in which every
    remote call succeeded, a second run over the unchanged graph that
    builds the same record fields as the first did returns no error,
    issues no Create, Update or Delete, queues nothing as new and
    classifies every cached record Unchanged. *)
Theorem second_run_with_same_bodies_issues_nothing opts issues s :
  BaseID opts ≠ "" → Token opts ≠ "" → wfStore s →
  (∀ k1 k2, k1 ∈ tableKinds → k2 ∈ tableKinds →
     TableNames opts k1 = TableNames opts k2 → k1 = k2) →
  let out1 := airtableSync tableKinds mapRange ToRecord FilterByTargets opts
                (inr issues) s in
  let out2 := airtableSync tableKinds mapRange ToRecord FilterByTargets opts
                (inr issues) (out_remote out1) in
  let cache1 := (fetchTables opts tableKinds s NewDB).1.1 in
  let cache2 := (fetchTables opts tableKinds (out_remote out1) NewDB).1.1 in
  out_err out1 = None → Forall callOk (out_calls out1) →
  Rec.Fields <$> (built (desired opts issues) cache2).*2
  = Rec.Fields <$> (built (desired opts issues) cache1).*2 →
  out_err out2 = None
  ∧ Forall (λ c, isMutation c = false) (out_calls out2)
  ∧ ∀ kind,
      (classified (desired opts issues) cache2).2 kind = []
      ∧ ∀ rec, rec ∈ (classified (desired opts issues) cache2).1 kind →
          Rec.State rec = StateUnchanged.
Proof.
  intros Hb Ht Hwf Hinj. cbn zeta. intros Herr Hok Hsame.
  destruct (sync_store_rows tableKinds mapRange ToRecord FilterByTargets
              tableKinds_NoDup mapRange_perm ToRecord_fieldID
              opts issues s Hb Ht Hwf Hinj Herr Hok)
    as (cache1 & cs1 & Hfetch1 & Hwf1 & Hrows1).
  rewrite Hfetch1 in Hsame. simpl in Hsame.
  set (s1 := out_remote (airtableSync tableKinds mapRange ToRecord FilterByTargets
                           opts (inr issues) s)) in *.
  destruct (fetchTables_succeeds opts tableKinds s1 NewDB) as (cache2 & cs2 & Hfetch2).
  { intros k Hk. destruct (Hrows1 k Hk) as (next & Hnext).
    simpl. unfold storeList. rewrite Hnext. by eexists. }
  rewrite Hfetch2 in Hsame |- *. simpl in Hsame |- *.
  set (features := desired opts issues) in *.
  set (es1 := built features cache1) in *.
  set (es2 := built features cache2) in *.
  pose proof (collectFeatures_key (FilterByTargets issues (Targets opts))) as Hkeys.
  assert (Hcl1 : Classified cache1 NewDB es1 (classified features cache1))
    by (by apply computeFields_classified).
  assert (Hcl2 : Classified cache2 NewDB es2 (classified features cache2))
    by (by apply computeFields_classified).
  assert (Hwork : es1.*1 = es2.*1)
    by (unfold es1, es2; by rewrite !builtRecords_work).
  assert (Hfid1 : Forall (λ e : entry, GetFieldID e.2 = GetID e.1.2) es1)
    by (by apply builtRecords_fieldID).
  set (rowsF := λ kind, if decide (kind ∈ tableKinds)
                        then default [] (tables s1 !! TableNames opts kind)
                        else []).
  assert (Hc2 : ∀ kind, cache2 kind = fetched (rowsF kind)).
  { intros kind. unfold rowsF.
    destruct (fetchTables_fetched _ _ _ _ _ _ kind Hfetch2) as [Hin Hout].
    destruct (decide (kind ∈ tableKinds)) as [Hk|Hk]; [|by rewrite Hout].
    destruct (Hin Hk) as (rows & Hlist & ->).
    simpl in Hlist. unfold storeList in Hlist.
    destruct (tables s1 !! TableNames opts kind); by inversion Hlist. }
  assert (Hfinal : ∀ kind, kind ∈ tableKinds →
            ∃ next, rowsF kind
                    = omap kept ((classified features cache1).1 kind)
                      ++ createdRows next ((classified features cache1).2 kind)).
  { intros kind Hk. destruct (Hrows1 kind Hk) as (next & Hnext). exists next.
    unfold rowsF. rewrite decide_True by done. by rewrite Hnext. }
  assert (Hunknown : ∀ k rec, rec ∈ cache1 k → Rec.State rec = StateUnknown)
    by (intros k rec; by eapply fetchTables_Unknown).
  assert (Huniq : ∀ kind f b, (kind, f, b) ∈ es2 →
            ∃ rid, filter (λ row : Row, Fields.ID row.2 = GetID f) (rowsF kind)
                   = [(rid, Rec.Fields b)]).
  { intros kind f b2 He2.
    destruct (entries_same_fields es1 es2 _ _ _ Hwork Hsame He2) as (b1 & He1 & Hf).
    destruct (Hfinal kind (built_kind _ _ _ _ _ He1)) as [next ->].
    rewrite <- Hf.
    apply (final_rows_unique cache1 es1 _ Hcl1 Hunknown Hfid1 (built_NoDup _ _)).
    done. }
  assert (Hbuilt : ∀ kind row, row ∈ rowsF kind →
            ∃ e, e ∈ es2 ∧ e.1.1 = kind ∧ Fields.ID row.2 = GetID e.1.2).
  { intros kind row Hrow.
    destruct (decide (kind ∈ tableKinds)) as [Hk|Hk];
      [|unfold rowsF in Hrow; rewrite decide_False in Hrow by done;
        by apply elem_of_nil in Hrow].
    destruct (Hfinal kind Hk) as [next Hnext]. rewrite Hnext in Hrow.
    destruct (final_rows_built cache1 es1 _ Hcl1 Hunknown kind next row Hrow)
      as ([[k f] b1] & He1 & Hk1 & Hf1).
    simpl in *. subst k.
    destruct (entries_same_work es1 es2 _ _ _ Hwork He1) as [b2 He2].
    exists (kind, f, b2). split; [done|]. split; [done|]. simpl.
    rewrite Forall_forall in Hfid1. rewrite Hf1. apply (Hfid1 _ He1). }
  assert (Hnew : ∀ kind, (classified features cache2).2 kind = [])
    by (intros kind; by eapply second_run_nothing_new).
  assert (Hunch : ∀ kind rec, rec ∈ (classified features cache2).1 kind →
            Rec.State rec = StateUnchanged)
    by (intros kind rec; by eapply second_run_all_unchanged).
  rewrite (sync_proceeds _ _ _ _ _ _ _ _ _ Hb Ht Hfetch2). simpl.
  assert (Hnone : ∀ c, c ∈ out_calls (updateAirtable opts tableKinds
                          (classified features cache2).2 s1
                          (classified features cache2).1) → False).
  { intros c Hc. destruct (isCreate c) eqn:Hcreate.
    - destruct c; try done.
      apply updateAirtable_creates in Hc. rewrite Hnew in Hc.
      by apply elem_of_nil in Hc.
    - destruct (updateAirtable_sweep_call _ _ _ _ _ _ tableKinds_NoDup Hc Hcreate)
        as [(j & rec & e & Hj & Hcase) _].
      apply list_elem_of_lookup_2, Hunch in Hj.
      destruct Hcase as [[Hst _]|[Hst _]]; congruence. }
  split; [|split].
  - apply eq_None_not_Some. intros [msg Herr2].
    apply updateAirtable_err in Herr2 as (k & u & Hin). by destruct (Hnone _ Hin).
  - apply Forall_app. split.
    + apply Forall_forall. intros c Hc.
      destruct (fetchTables_calls opts tableKinds s1 NewDB c) as [e He].
      * by rewrite Hfetch2.
      * by rewrite He.
    + apply Forall_forall. intros c Hc. by destruct (Hnone _ Hc).
  - intros kind. split; [apply Hnew|apply Hunch].
Qed.

End Idempotence.

Lemma staleStore_wf : wfStore staleStore.
Proof. apply wfStore_check. compute_done. Defined.

Lemma second_run_with_same_bodies_issues_nothing_witness :
  let out1 := syncStore exOpts [exIssue] staleStore in
  let out2 := syncStore exOpts [exIssue] (out_remote out1) in
  let cache2 := (fetchTables exOpts dependencyOrder (out_remote out1) NewDB).1.1 in
  let features := collectFeatures [exIssue] in
  filter (λ c, isMutation c = true) (out_calls out1) ≠ []
  ∧ out_err out2 = None
  ∧ Forall (λ c, isMutation c = false) (out_calls out2)
  ∧ ∀ kind,
      (computeFields dependencyOrder map_to_list toRecord features cache2).2 kind = []
      ∧ ∀ rec,
          rec ∈ (computeFields dependencyOrder map_to_list toRecord features cache2).1 kind →
          Rec.State rec = StateUnchanged.
Proof.
  cbn zeta. split; [by vm_compute|].
  refine (second_run_with_same_bodies_issues_nothing dependencyOrder map_to_list
            toRecord (λ issues _, issues) dependencyOrder_NoDup
            (λ m, reflexivity _) toRecord_fieldID exOpts [exIssue] staleStore
            _ _ staleStore_wf dependencyOrder_names_inj _ _ _).
  - done.
  - done.
  - by vm_compute.
  - compute_done.
  - by vm_compute.
Defined.

(** C4 is false on the code: after a first run for [exIssue] from nothing,
    which returns no error and whose calls all succeed, a second run over
    the same graph finds the references of the repository and of the
    issue changed and issues two Updates. *)
Lemma second_run_updates_references :
  let out1 := syncStore exOpts [exIssue] emptyStore in
  let out2 := syncStore exOpts [exIssue] (out_remote out1) in
  out_err out1 = None
  ∧ Forall callOk (out_calls out1)
  ∧ out_err out2 = None
  ∧ filter (λ c, isMutation c = true) (out_calls out2)
    = [CallUpdate RepositoryIndex 0
         (Rec.mk "rec2"
            (Fields.mk "repo-1" "depviz" [("Provider", ["rec0"]); ("Owner", ["rec1"])])
            StateChanged) None;
       CallUpdate IssueIndex 0
         (Rec.mk "rec3"
            (Fields.mk "issue-1" "sync"
               [("Repository", ["rec2"]); ("Labels", []); ("Author", ["rec1"]);
                ("Assignees", []); ("Milestone", [])])
            StateChanged) None].
Proof.
  cbn zeta. split; [by vm_compute|]. split; [compute_done|]. by vm_compute.
Qed.

(** * Further properties of the command

    The keys of the feature maps, the shape of the log of a run, the fate
    of every fetched row, the remote store after the run, and the
    subcommand around [airtableSync]. *)

(** ** The feature maps *)

Lemma discoveries_kindOf issue kind f :
  (kind, f) ∈ discoveries issue → kindOf f = kind.
Proof.
  unfold discoveries. rewrite !elem_of_app, !list_elem_of_fmap.
  destruct (Repository.Owner _), (Issue.Milestone issue) as [m|];
    try destruct (Milestone.Creator m);
    rewrite ?list_elem_of_singleton, ?elem_of_nil; naive_solver.
Qed.

Lemma collectFeatures_from filtered kind id f :
  collectFeatures filtered kind !! id = Some f →
  GetID f = id ∧ ∃ issue, issue ∈ filtered ∧ (kind, f) ∈ discoveries issue.
Proof.
  rewrite collectFeatures_lookup. intros Hlast. split.
  - by eapply last_discovered_id.
  - apply last_Some_elem_of in Hlast. unfold discovered in Hlast.
    apply list_elem_of_fmap in Hlast as ([k g] & -> & Hin).
    apply list_elem_of_filter in Hin as [[Hk _] Hin]. simpl in Hk. subst k.
    unfold traversal in Hin. apply list_elem_of_bind in Hin as (issue & Hd & Hi).
    by exists issue.
Qed.

Lemma collectFeatures_filed filtered issue kind f :
  issue ∈ filtered → (kind, f) ∈ discoveries issue →
  is_Some (collectFeatures filtered kind !! GetID f).
Proof.
  intros Hi Hd. rewrite collectFeatures_lookup.
  assert (Hin : f ∈ discovered kind (GetID f) (traversal filtered)).
  { unfold discovered. apply list_elem_of_fmap. exists (kind, f). split; [done|].
    apply list_elem_of_filter. split; [done|].
    unfold traversal. apply list_elem_of_bind. by exists issue. }
  destruct (discovered kind (GetID f) (traversal filtered)) as [|g l] eqn:E using rev_ind.
  - by apply not_elem_of_nil in Hin.
  - rewrite last_snoc. by eexists.
Qed.

(** X1: every entry of the feature maps is filed under its own ExternalID
    and in the map of its own type: the map of a kind holds entities of
    that kind only, and the key of an entry is the [GetID] of its value. *)
Theorem desired_entries_typed_and_keyed (filtered : list Issue.t) (kind : TableKind) :
  map_Forall (λ id f, GetID f = id ∧ kindOf f = kind) (collectFeatures filtered kind).
Proof.
  intros id f Hf. apply collectFeatures_from in Hf as [Hid (issue & _ & Hd)].
  split; [done|]. by eapply discoveries_kindOf.
Qed.

Ltac discovery :=
  repeat first [rewrite elem_of_app | rewrite elem_of_cons | rewrite list_elem_of_fmap];
  naive_solver.

Lemma discoveries_references issue kind f ref :
  (kind, f) ∈ discoveries issue → ref ∈ referencesOf f →
  ∃ g, (ref.1, g) ∈ discoveries issue ∧ GetID g = ref.2.
Proof.
  unfold discoveries. intros Hd Hr.
  rewrite !elem_of_app, !list_elem_of_fmap in Hd.
  destruct Hd as [Hd|[Hd|[Hd|[Hd|[Hd|[Hd|[Hd|[Hd|Hd]]]]]]]].
  - apply list_elem_of_singleton in Hd. simplify_eq. by apply not_elem_of_nil in Hr.
  - destruct Hd as (l & ? & _). simplify_eq. by apply not_elem_of_nil in Hr.
  - destruct (Repository.Owner _); [|by apply not_elem_of_nil in Hd].
    apply list_elem_of_singleton in Hd. simplify_eq. by apply not_elem_of_nil in Hr.
  - apply list_elem_of_singleton in Hd. simplify_eq. by apply not_elem_of_nil in Hr.
  - destruct Hd as (l & ? & _). simplify_eq. by apply not_elem_of_nil in Hr.
  - destruct (Issue.Milestone issue) as [m|]; [|by apply not_elem_of_nil in Hd].
    destruct (Milestone.Creator m); [|by apply not_elem_of_nil in Hd].
    apply list_elem_of_singleton in Hd. simplify_eq. by apply not_elem_of_nil in Hr.
  - apply list_elem_of_singleton in Hd. simplify_eq. simpl in Hr.
    apply elem_of_cons in Hr as [->|Hr].
    + exists (FProvider (Repository.Provider (Issue.Repository issue))).
      split; [discovery|done].
    + apply list_elem_of_fmap in Hr as (a & -> & Ha).
      destruct (Repository.Owner (Issue.Repository issue)) as [o|] eqn:Ho;
        [|by apply not_elem_of_nil in Ha].
      apply list_elem_of_singleton in Ha. subst a.
      exists (FAccount o). split; [discovery|done].
  - destruct (Issue.Milestone issue) as [m|] eqn:Hm; [|by apply not_elem_of_nil in Hd].
    apply list_elem_of_singleton in Hd. simplify_eq. simpl in Hr.
    apply list_elem_of_fmap in Hr as (a & -> & Ha).
    destruct (Milestone.Creator m) as [c|] eqn:Hc; [|by apply not_elem_of_nil in Ha].
    apply list_elem_of_singleton in Ha. subst a.
    exists (FAccount c). split; [discovery|done].
  - apply list_elem_of_singleton in Hd. simplify_eq. simpl in Hr.
    apply elem_of_cons in Hr as [->|Hr].
    { exists (FRepository (Issue.Repository issue)). split; [discovery|done]. }
    apply elem_of_app in Hr as [Hr|Hr].
    { apply list_elem_of_fmap in Hr as (l & -> & Hl).
      exists (FLabel l). split; [discovery|done]. }
    apply elem_of_cons in Hr as [->|Hr].
    { exists (FAccount (Issue.Author issue)). split; [discovery|done]. }
    apply elem_of_app in Hr as [Hr|Hr].
    { apply list_elem_of_fmap in Hr as (a & -> & Ha).
      exists (FAccount a). split; [discovery|done]. }
    apply list_elem_of_fmap in Hr as (m & -> & Hm).
    destruct (Issue.Milestone issue) as [m'|] eqn:Hm'; [|by apply not_elem_of_nil in Hm].
    apply list_elem_of_singleton in Hm. subst m'.
    exists (FMilestone m). split; [discovery|done].
Qed.

(** X3: the feature maps are closed under references.  Whatever an
    entry points to (the repository, the labels, the author, the
    assignees and the milestone of an issue; the provider and the owner
    of a repository; the creator of a milestone) has an entry of its own,
    under its kind and its ExternalID. *)
Theorem desired_sets_closed_under_references (filtered : list Issue.t)
    (kind : TableKind) :
  let features := collectFeatures filtered in
  map_Forall
    (λ _ f, Forall (λ ref, is_Some (features ref.1 !! ref.2)) (referencesOf f))
    (features kind).
Proof.
  intros features id f Hf. apply Forall_forall. intros ref Hr.
  apply collectFeatures_from in Hf as [_ (issue & Hi & Hd)].
  destruct (discoveries_references _ _ _ _ Hd Hr) as (g & Hg & <-).
  by eapply collectFeatures_filed.
Qed.

Lemma elem_of_dom_collectFeatures filtered kind id :
  id ∈ dom (collectFeatures filtered kind)
  ↔ ∃ issue f, issue ∈ filtered ∧ (kind, f) ∈ discoveries issue ∧ GetID f = id.
Proof.
  rewrite elem_of_dom. split.
  - intros [f Hf]. apply collectFeatures_from in Hf as [Hid (issue & Hi & Hd)].
    by exists issue, f.
  - intros (issue & f & Hi & Hd & <-). by eapply collectFeatures_filed.
Qed.

Ltac discovered_by :=
  unfold discoveries;
  repeat first [rewrite elem_of_app | rewrite elem_of_cons | rewrite list_elem_of_fmap
               | rewrite elem_of_nil ].

(** X2: the keys of the feature maps.  The Issues map has the IDs of the
    filtered issues, the Repositories and Providers maps those of their
    repositories and providers, the Labels map those of their labels, the
    Milestones map those of the milestones that are not [nil], and the
    Accounts map those of the owners and milestone creators that are not
    [nil], of the authors and of the assignees; no other key. *)
Theorem desired_keys (filtered : list Issue.t) :
  let features := collectFeatures filtered in
  dom (features IssueIndex) =@{gset string} list_to_set (Issue.ID <$> filtered)
  ∧ dom (features RepositoryIndex)
    =@{gset string} list_to_set ((λ i, Repository.ID (Issue.Repository i)) <$> filtered)
  ∧ dom (features ProviderIndex)
    =@{gset string}
      list_to_set
        ((λ i, Provider.ID (Repository.Provider (Issue.Repository i))) <$> filtered)
  ∧ dom (features LabelIndex)
    =@{gset string} list_to_set (filtered ≫= λ i, Label.ID <$> Issue.Labels i)
  ∧ dom (features MilestoneIndex)
    =@{gset string} list_to_set (Milestone.ID <$> omap Issue.Milestone filtered)
  ∧ dom (features AccountIndex)
    =@{gset string}
      list_to_set
        (Account.ID <$>
           (filtered ≫= λ i,
              option_list (Repository.Owner (Issue.Repository i))
              ++ Issue.Author i :: Issue.Assignees i
              ++ option_list (Issue.Milestone i ≫= Milestone.Creator))).
Proof.
  cbn zeta. repeat split; apply set_eq; intros id;
    rewrite elem_of_dom_collectFeatures, elem_of_list_to_set.
  - rewrite list_elem_of_fmap. split.
    + intros (issue & f & Hi & Hd & <-). exists issue. split; [|done].
      revert Hd. discovered_by.
      repeat case_match; rewrite ?elem_of_cons, ?elem_of_nil; naive_solver.
    + intros (issue & -> & Hi). exists issue, (FIssue issue).
      split; [done|]. split; [|done]. discovered_by. naive_solver.
  - rewrite list_elem_of_fmap. split.
    + intros (issue & f & Hi & Hd & <-). exists issue. split; [|done].
      revert Hd. discovered_by.
      repeat case_match; rewrite ?elem_of_cons, ?elem_of_nil; naive_solver.
    + intros (issue & -> & Hi). exists issue, (FRepository (Issue.Repository issue)).
      split; [done|]. split; [|done]. discovered_by. naive_solver.
  - rewrite list_elem_of_fmap. split.
    + intros (issue & f & Hi & Hd & <-). exists issue. split; [|done].
      revert Hd. discovered_by.
      repeat case_match; rewrite ?elem_of_cons, ?elem_of_nil; naive_solver.
    + intros (issue & -> & Hi).
      exists issue, (FProvider (Repository.Provider (Issue.Repository issue))).
      split; [done|]. split; [|done]. discovered_by. naive_solver.
  - rewrite list_elem_of_bind. split.
    + intros (issue & f & Hi & Hd & <-). exists issue. split; [|done].
      rewrite list_elem_of_fmap.
      revert Hd. discovered_by.
      repeat case_match; rewrite ?elem_of_cons, ?elem_of_nil; naive_solver.
    + intros (issue & (l & -> & Hl)%list_elem_of_fmap & Hi).
      exists issue, (FLabel l).
      split; [done|]. split; [|done]. discovered_by. naive_solver.
  - rewrite list_elem_of_fmap. split.
    + intros (issue & f & Hi & Hd & <-).
      revert Hd. discovered_by.
      destruct (Issue.Milestone issue) as [m|] eqn:Hm.
      * intros Hd. exists m. split.
        -- revert Hd. repeat case_match; rewrite ?elem_of_cons, ?elem_of_nil; naive_solver.
        -- apply list_elem_of_omap. by exists issue.
      * repeat case_match; rewrite ?elem_of_cons, ?elem_of_nil; naive_solver.
    + intros (m & -> & (issue & Hi & Hm)%list_elem_of_omap).
      exists issue, (FMilestone m).
      split; [done|]. split; [|done]. discovered_by. rewrite Hm.
      rewrite list_elem_of_singleton. naive_solver.
  - rewrite list_elem_of_fmap. split.
    + intros (issue & f & Hi & Hd & <-).
      revert Hd. discovered_by.
      intros Hd.
      assert (∃ a, f = FAccount a
                ∧ a ∈ option_list (Repository.Owner (Issue.Repository issue))
                      ++ Issue.Author issue :: Issue.Assignees issue
                      ++ option_list (Issue.Milestone issue ≫= Milestone.Creator))
        as (a & -> & Ha).
      { setoid_rewrite elem_of_app. setoid_rewrite elem_of_cons.
        setoid_rewrite elem_of_app. revert Hd.
        destruct (Issue.Milestone issue) as [m|]; simpl;
          [destruct (Milestone.Creator m)|];
          destruct (Repository.Owner (Issue.Repository issue)); simpl;
          rewrite ?elem_of_cons, ?elem_of_nil;
          try setoid_rewrite elem_of_cons; try setoid_rewrite elem_of_nil;
          naive_solver. }
      exists a. split; [done|]. apply list_elem_of_bind. by exists issue.
    + intros (a & -> & (issue & Ha & Hi)%list_elem_of_bind).
      exists issue, (FAccount a). split; [done|]. split; [|done].
      revert Ha. discovered_by.
      destruct (Issue.Milestone issue) as [m|]; simpl;
        [destruct (Milestone.Creator m)|];
        destruct (Repository.Owner (Issue.Repository issue)); simpl;
        rewrite ?elem_of_cons, ?elem_of_nil; naive_solver.
Qed.

(** ** The calls issued for one cached record *)

Section Trace.
Context {R : Type} `{Client R}.

Lemma callsAt_app kind idx cs1 cs2 :
  callsAt kind idx (cs1 ++ cs2) = callsAt kind idx cs1 ++ callsAt kind idx cs2.
Proof. apply filter_app. Qed.

Lemma callsAt_none kind idx cs :
  (∀ c, c ∈ cs → callKind c ≠ kind ∨ callIdx c ≠ Some idx) →
  callsAt kind idx cs = [].
Proof.
  intros Hcs. apply filter_none. intros c Hc [Hk Hi].
  destruct (Hcs c Hc); done.
Qed.

Lemma sweep_before tableName kind ct : ∀ i (r r' : R) cs j,
  sweep tableName kind i ct r = (r', cs) → j < i → callsAt kind j cs = [].
Proof.
  intros i r r' cs j Hrun Hj. apply callsAt_none. intros c Hc. right.
  destruct (sweep_sound _ _ _ _ _ _ _ _ Hrun Hc) as (p & rec & e & _ & Hcase).
  destruct Hcase as [[_ ->]|[_ ->]]; simpl; intros [=]; lia.
Qed.

Lemma sweep_at tableName kind ct : ∀ i (r r' : R) cs p rec,
  sweep tableName kind i ct r = (r', cs) → ct !! p = Some rec →
  ∃ e, callsAt kind (i + p) cs = callFor kind (i + p) rec e.
Proof.
  induction ct as [|rec0 ct IH]; intros i r r' cs p rec Hrun Hp; [done|].
  simpl in Hrun. destruct p as [|p]; simpl in Hp.
  - inversion Hp; subst rec0. rewrite Nat.add_0_r. unfold callFor.
    destruct (Rec.State rec) eqn:Hstate.
    + destruct (TableDelete r tableName rec) as [r1 e].
      destruct (sweep tableName kind (S i) ct r1) as [r2 cs1] eqn:Hrec.
      inversion Hrun; subst. exists e. unfold callsAt. rewrite filter_cons_True by done.
      f_equal. eapply sweep_before; [done|lia].
    + exists None. eapply sweep_before; [done|lia].
    + destruct (TableUpdate r tableName rec) as [r1 e].
      destruct (sweep tableName kind (S i) ct r1) as [r2 cs1] eqn:Hrec.
      inversion Hrun; subst. exists e. unfold callsAt. rewrite filter_cons_True by done.
      f_equal. eapply sweep_before; [done|lia].
    + exists None. eapply sweep_before; [done|lia].
  - replace (i + S p) with (S i + p) by lia.
    destruct (Rec.State rec0) eqn:Hstate.
    + destruct (TableDelete r tableName rec0) as [r1 e].
      destruct (sweep tableName kind (S i) ct r1) as [r2 cs1] eqn:Hrec.
      inversion Hrun; subst.
      destruct (IH _ _ _ _ _ _ Hrec Hp) as [e' He']. exists e'.
      unfold callsAt. rewrite filter_cons_False; [done|].
      simpl. intros [_ [=]]. lia.
    + eauto.
    + destruct (TableUpdate r tableName rec0) as [r1 e].
      destruct (sweep tableName kind (S i) ct r1) as [r2 cs1] eqn:Hrec.
      inversion Hrun; subst.
      destruct (IH _ _ _ _ _ _ Hrec Hp) as [e' He']. exists e'.
      unfold callsAt. rewrite filter_cons_False; [done|].
      simpl. intros [_ [=]]. lia.
    + eauto.
Qed.

Lemma applyKind_at tableName kind ut ct (r r' : R) ct' cs p rec :
  applyKind tableName kind ut ct r = (r', ct', cs, None) →
  ct !! p = Some rec →
  ∃ e, callsAt kind p cs = callFor kind p rec e.
Proof.
  unfold applyKind. intros Hrun Hp.
  destruct (createRecords tableName kind ut r ct) as [[[r1 ct1] cs1] e1] eqn:Hc.
  apply createRecords_inv in Hc as (created & n & -> & _ & _ & Hcalls).
  destruct e1 as [msg|]; [done|]. destruct Hcalls as [_ ->].
  destruct (sweep tableName kind 0 (ct ++ created) r1) as [r2 cs2] eqn:Hs.
  inversion Hrun; subst.
  destruct (sweep_at _ _ _ _ _ _ _ p rec Hs) as [e He].
  { by apply lookup_app_l_Some. }
  simpl in He. exists e. rewrite callsAt_app, He.
  rewrite callsAt_none; [done|].
  intros c (u & -> & _)%list_elem_of_fmap. by right.
Qed.

Lemma updateAirtable_at opts kinds : ∀ unmatched (r : R) cache kind p rec,
  NoDup kinds → kind ∈ kinds →
  out_err (updateAirtable opts kinds unmatched r cache) = None →
  cache kind !! p = Some rec →
  ∃ e, callsAt kind p (out_calls (updateAirtable opts kinds unmatched r cache))
       = callFor kind p rec e.
Proof.
  induction kinds as [|k kinds IH]; intros unmatched r cache kind p rec Hnd Hin Herr Hp.
  { by apply elem_of_nil in Hin. }
  apply NoDup_cons in Hnd as [Hk Hnd]. simpl in *.
  destruct (applyKind _ k _ _ r) as [[[r' ct] cs] [msg|]] eqn:Hrun; [done|].
  simpl in *. rewrite callsAt_app.
  destruct (decide (kind = k)) as [->|Hne].
  - destruct (applyKind_at _ _ _ _ _ _ _ _ _ _ Hrun Hp) as [e He].
    exists e. rewrite He, callsAt_none; [by rewrite app_nil_r|].
    intros c Hc. left. intros Heq.
    apply updateAirtable_callKind in Hc. by rewrite Heq in Hc.
  - apply elem_of_cons in Hin as [?|Hin]; [done|].
    destruct (IH unmatched r' (setTable cache k ct) kind p rec Hnd Hin Herr) as [e He].
    { by rewrite setTable_ne. }
    exists e. rewrite He, callsAt_none; [done|].
    intros c Hc. left.
    by rewrite (applyKind_callKind _ _ _ _ _ _ _ _ _ _ Hrun Hc).
Qed.

End Trace.

(** ** The fate of a fetched row *)

Section Rows.
Context {R : Type} `{Client R}.
Variable tableKinds : list TableKind.
Variable mapRange : gmap string Feature → list (string * Feature).
Variable ToRecord : Feature → DB → Rec.t.
Variable FilterByTargets : list Issue.t → list string → list Issue.t.

Abbreviation desired opts issues :=
  (collectFeatures (FilterByTargets issues (Targets opts))).
Abbreviation classified features cache0 :=
  (computeFields tableKinds mapRange ToRecord features cache0).
Abbreviation built features cache0 :=
  (builtRecords ToRecord (cache0, NewDB) (workList tableKinds mapRange features)).

Hypothesis tableKinds_NoDup : NoDup tableKinds.

Lemma sync_at opts issues (r : R) cache0 cs0 kind p rec :
  BaseID opts ≠ "" → Token opts ≠ "" →
  fetchTables opts tableKinds r NewDB = (cache0, cs0, None) →
  out_err (airtableSync tableKinds mapRange ToRecord FilterByTargets opts
             (inr issues) r) = None →
  kind ∈ tableKinds →
  (classified (desired opts issues) cache0).1 kind !! p = Some rec →
  ∃ e, callsAt kind p
         (out_calls (airtableSync tableKinds mapRange ToRecord FilterByTargets opts
                       (inr issues) r))
       = callFor kind p rec e.
Proof.
  intros Hbase Htoken Hfetch.
  rewrite (sync_proceeds _ _ _ _ _ _ _ _ _ Hbase Htoken Hfetch). simpl.
  intros Herr Hkind Hp.
  destruct (updateAirtable_at _ _ _ _ _ _ _ _ tableKinds_NoDup Hkind Herr Hp)
    as [e He].
  exists e. rewrite callsAt_app, He, callsAt_none; [done|].
  intros c Hc. right.
  destruct (fetchTables_calls opts tableKinds r NewDB c) as [e' ->]; [|done].
  by rewrite Hfetch.
Qed.

Hypothesis mapRange_perm : ∀ m, mapRange m ≡ₚ map_to_list m.
Hypothesis ToRecord_fieldID : ∀ f c, GetFieldID (ToRecord f c) = GetID f.

Lemma unmatched_row_deleted opts issues (r : R) cache0 cs0 kind idx rec0 :
  BaseID opts ≠ "" → Token opts ≠ "" →
  fetchTables opts tableKinds r NewDB = (cache0, cs0, None) →
  out_err (airtableSync tableKinds mapRange ToRecord FilterByTargets opts
             (inr issues) r) = None →
  kind ∈ tableKinds → cache0 kind !! idx = Some rec0 →
  (∀ id f, desired opts issues kind !! id = Some f →
     fst <$> findIdx (cache0 kind) id ≠ Some idx) →
  ∃ e, callsAt kind idx
         (out_calls (airtableSync tableKinds mapRange ToRecord FilterByTargets opts
                       (inr issues) r))
       = [CallDelete kind idx rec0 e].
Proof.
  intros Hbase Htoken Hfetch Herr Hkind Hidx Hno.
  pose proof (collectFeatures_key (FilterByTargets issues (Targets opts))) as Hkeys.
  pose proof (computeFields_classified tableKinds mapRange ToRecord
                tableKinds_NoDup mapRange_perm (desired opts issues) cache0
                Hkeys ToRecord_fieldID) as [_ _ _ Hrest _].
  assert (Hcu : (classified (desired opts issues) cache0).1 kind !! idx = Some rec0).
  { rewrite Hrest; [done|]. intros [[k f] b] Hin [Hk Hfind]. simpl in *. subst k.
    destruct (built_entry_inv tableKinds mapRange ToRecord mapRange_perm
                _ _ _ _ _ Hkeys Hin) as [_ Hf].
    by apply (Hno _ _ Hf). }
  destruct (sync_at _ _ _ _ _ _ _ _ Hbase Htoken Hfetch Herr Hkind Hcu) as [e He].
  exists e. rewrite He. unfold callFor.
  by rewrite (fetchTables_Unknown _ _ _ _ _ kind rec0 Hfetch)
    by (by eapply list_elem_of_lookup_2).
Qed.

(** X11: what a run that returns no error does with a fetched row.  A
    row that no entry matches receives one call, the Delete of the row as
    it was fetched.  A row matched by an entry receives no call when the
    record built for the entry has its fields, and one call when it has
    not: the Update carrying the internal ID of the row and the built
    fields. *)
Theorem fate_of_a_fetched_row opts issues (r : R) cache0 cs0 :
  BaseID opts ≠ "" → Token opts ≠ "" →
  fetchTables opts tableKinds r NewDB = (cache0, cs0, None) →
  let out :=
    airtableSync tableKinds mapRange ToRecord FilterByTargets opts (inr issues) r in
  out_err out = None →
  ∀ kind idx rec0, kind ∈ tableKinds → cache0 kind !! idx = Some rec0 →
    ((∀ id f, desired opts issues kind !! id = Some f →
        fst <$> findIdx (cache0 kind) id ≠ Some idx) →
     ∃ e, callsAt kind idx (out_calls out) = [CallDelete kind idx rec0 e])
    ∧ (∀ id f b, desired opts issues kind !! id = Some f →
         (kind, f, b) ∈ built (desired opts issues) cache0 →
         fst <$> findIdx (cache0 kind) id = Some idx →
         if decide (Rec.Fields rec0 = Rec.Fields b)
         then callsAt kind idx (out_calls out) = []
         else ∃ e, callsAt kind idx (out_calls out)
                   = [CallUpdate kind idx
                        (Rec.mk (Rec.ID rec0) (Rec.Fields b) StateChanged) e]).
Proof.
  intros Hbase Htoken Hfetch out Herr kind idx rec0 Hkind Hidx. split.
  { by eapply unmatched_row_deleted. }
  intros id f b Hf Hb Hfind.
  pose proof (collectFeatures_key (FilterByTargets issues (Targets opts))) as Hkeys.
  pose proof (computeFields_classified tableKinds mapRange ToRecord
                tableKinds_NoDup mapRange_perm (desired opts issues) cache0
                Hkeys ToRecord_fieldID) as [_ _ Hhit _ _].
  assert (Hcu : (classified (desired opts issues) cache0).1 kind !! idx
                = Some (staged rec0 b)).
  { apply (Hhit (kind, f, b) kind idx rec0 Hb); [|done].
    split; [done|]. simpl. by rewrite (Hkeys _ _ _ Hf). }
  destruct (sync_at _ _ _ _ _ _ _ _ Hbase Htoken Hfetch Herr Hkind Hcu) as [e He].
  fold out in He. unfold callFor, staged in He.
  destruct (decide (Rec.Fields rec0 = Rec.Fields b)); simpl in He; [done|].
  by exists e.
Qed.

(** X12: the classification stops at the first cached record of an
    ExternalID, so a row that repeats the ExternalID of an earlier row of
    its table is matched by no entry: a run that returns no error
    deletes it. *)
Theorem duplicate_rows_are_deleted opts issues (r : R) cache0 cs0 :
  BaseID opts ≠ "" → Token opts ≠ "" →
  fetchTables opts tableKinds r NewDB = (cache0, cs0, None) →
  let out :=
    airtableSync tableKinds mapRange ToRecord FilterByTargets opts (inr issues) r in
  out_err out = None →
  ∀ kind i j rec rec', kind ∈ tableKinds → (i < j)%nat →
    cache0 kind !! i = Some rec → cache0 kind !! j = Some rec' →
    GetFieldID rec = GetFieldID rec' →
    ∃ e, callsAt kind j (out_calls out) = [CallDelete kind j rec' e].
Proof.
  intros Hbase Htoken Hfetch out Herr kind i j rec rec' Hkind Hij Hi Hj Hsame.
  eapply unmatched_row_deleted; try done.
  intros id f _ Hfind.
  destruct (findIdx (cache0 kind) id) as [[idx rec1]|] eqn:Hfound; [|done].
  simpl in Hfind. injection Hfind as ->.
  unfold findIdx in Hfound. apply list_find_Some in Hfound as (Hj' & Hid & Hfirst).
  rewrite Hj in Hj'. injection Hj' as <-.
  apply (Hfirst i rec Hi Hij). by rewrite Hsame.
Qed.

End Rows.

Lemma driftedStore_wf : wfStore driftedStore.
Proof. apply wfStore_check. compute_done. Defined.

Lemma driftedStore_fetched :
  fetchTables exOpts dependencyOrder driftedStore NewDB
  = ((fetchTables exOpts dependencyOrder driftedStore NewDB).1.1,
     (fetchTables exOpts dependencyOrder driftedStore NewDB).1.2, None).
Proof. by vm_compute. Defined.

Lemma fate_of_a_fetched_row_witness :
  let out := syncStore exOpts [exIssue] driftedStore in
  let cache0 := (fetchTables exOpts dependencyOrder driftedStore NewDB).1.1 in
  callsAt AccountIndex 1 (out_calls out)
  = [CallDelete AccountIndex 1
       (Rec.mk "rec4" (Fields.mk "ext-7" "carol" []) StateUnknown) None]
  ∧ callsAt AccountIndex 0 (out_calls out) = []
  ∧ ∀ kind idx rec0, kind ∈ dependencyOrder → cache0 kind !! idx = Some rec0 →
      ((∀ id f, collectFeatures [exIssue] kind !! id = Some f →
          fst <$> findIdx (cache0 kind) id ≠ Some idx) →
       ∃ e, callsAt kind idx (out_calls out) = [CallDelete kind idx rec0 e])
      ∧ (∀ id f b, collectFeatures [exIssue] kind !! id = Some f →
           (kind, f, b)
             ∈ builtRecords toRecord (cache0, NewDB)
                 (workList dependencyOrder map_to_list (collectFeatures [exIssue])) →
           fst <$> findIdx (cache0 kind) id = Some idx →
           if decide (Rec.Fields rec0 = Rec.Fields b)
           then callsAt kind idx (out_calls out) = []
           else ∃ e, callsAt kind idx (out_calls out)
                     = [CallUpdate kind idx
                          (Rec.mk (Rec.ID rec0) (Rec.Fields b) StateChanged) e]).
Proof.
  cbn zeta. split; [by vm_compute|]. split; [by vm_compute|].
  refine (fate_of_a_fetched_row dependencyOrder map_to_list toRecord
            (λ issues _, issues) dependencyOrder_NoDup (λ m, reflexivity _)
            toRecord_fieldID exOpts [exIssue] driftedStore _ _ _ _
            driftedStore_fetched _).
  - done.
  - done.
  - by vm_compute.
Defined.

Lemma duplicateStore_wf : wfStore duplicateStore.
Proof. apply wfStore_check. compute_done. Defined.

Lemma duplicateStore_fetched :
  fetchTables exOpts dependencyOrder duplicateStore NewDB
  = ((fetchTables exOpts dependencyOrder duplicateStore NewDB).1.1,
     (fetchTables exOpts dependencyOrder duplicateStore NewDB).1.2, None).
Proof. by vm_compute. Defined.

Lemma duplicate_rows_are_deleted_witness :
  let out := syncStore exOpts [exIssue] duplicateStore in
  ∃ e, callsAt AccountIndex 1 (out_calls out)
       = [CallDelete AccountIndex 1
            (Rec.mk "rec1" (Fields.mk "ext-42" "alice" []) StateUnknown) e].
Proof.
  refine (duplicate_rows_are_deleted dependencyOrder map_to_list toRecord
            (λ issues _, issues) dependencyOrder_NoDup (λ m, reflexivity _)
            toRecord_fieldID exOpts [exIssue] duplicateStore _ _ _ _
            duplicateStore_fetched _ AccountIndex 0 1
            (Rec.mk "rec0" (Fields.mk "ext-42" "alice" []) StateUnknown)
            (Rec.mk "rec1" (Fields.mk "ext-42" "alice" []) StateUnknown)
            _ _ _ _ _).
  - done.
  - done.
  - by vm_compute.
  - compute_done.
  - lia.
  - by vm_compute.
  - by vm_compute.
  - done.
Defined.

(** ** The log of a run *)

Lemma filter_all {A} (P : A → Prop) `{∀ x, Decision (P x)} (l : list A) :
  Forall P l → filter P l = l.
Proof.
  induction 1 as [|x l Hx _ IH]; [done|].
  by rewrite filter_cons_True, IH.
Qed.

Section Phases.
Context {R : Type} `{Client R}.

Lemma fetchTables_prefix opts ks1 kind ks2 : ∀ (r : R) cache e,
  Forall (λ k, ∃ rows, TableList r (TableNames opts k) = inr rows) ks1 →
  TableList r (TableNames opts kind) = inl e →
  (fetchTables opts (ks1 ++ kind :: ks2) r cache).1.2
  = ((λ k, CallList k None) <$> ks1) ++ [CallList kind (Some e)]
  ∧ (fetchTables opts (ks1 ++ kind :: ks2) r cache).2 = Some e.
Proof.
  induction ks1 as [|k ks1 IH]; intros r cache e Hok Hfail; simpl.
  - by rewrite Hfail.
  - apply Forall_cons in Hok as [[rows Hrows] Hok]. rewrite Hrows.
    destruct (IH r (setTable cache k (fetched rows)) e Hok Hfail) as [Hcs He].
    destruct (fetchTables opts (ks1 ++ kind :: ks2) r _) as [[cache' cs] e'].
    simpl in *. by subst.
Qed.

Lemma fetchTables_lists opts kinds : ∀ (r : R) cache cache' cs,
  fetchTables opts kinds r cache = (cache', cs, None) →
  cs = (λ k, CallList k None) <$> kinds.
Proof.
  induction kinds as [|k kinds IH]; intros r cache cache' cs Hrun; simpl in Hrun.
  - by inversion Hrun.
  - destruct (TableList r (TableNames opts k)) as [e|rows]; [done|].
    destruct (fetchTables opts kinds r _) as [[cache1 cs1] e1] eqn:Hrec.
    inversion Hrun; subst. csimpl. f_equal. by eapply IH.
Qed.

Lemma updateAirtable_mutations opts kinds unmatched (r : R) cache :
  Forall (λ c, isMutation c = true)
    (out_calls (updateAirtable opts kinds unmatched r cache)).
Proof.
  revert r cache. induction kinds as [|k kinds IH]; intros r cache; simpl.
  { constructor. }
  destruct (applyKind _ k _ _ r) as [[[r' ct] cs] e] eqn:Hrun.
  assert (Hcs : Forall (λ c, isMutation c = true) cs).
  { apply applyKind_inv in Hrun as (created & n & sweeps & _ & _ & _ & Hsw & Hcs).
    assert (Hsweeps : Forall (λ c, isMutation c = true) sweeps).
    { eapply Forall_impl; [exact Hsw|].
      intros c (j & rec & e' & _ & [[_ ->]|[_ ->]]); done. }
    destruct e as [msg|].
    - destruct Hcs as (u & _ & _ & ->). apply Forall_app. split.
      + apply Forall_fmap, Forall_true. done.
      + by apply Forall_singleton.
    - destruct Hcs as [_ ->]. apply Forall_app. split; [|done].
      apply Forall_fmap, Forall_true. done. }
  destruct e as [msg|]; simpl; [done|].
  apply Forall_app. split; [done|apply IH].
Qed.

Lemma updateAirtable_kind_order opts kinds : ∀ unmatched (r : R) cache i j c c',
  (i < j)%nat →
  out_calls (updateAirtable opts kinds unmatched r cache) !! i = Some c →
  out_calls (updateAirtable opts kinds unmatched r cache) !! j = Some c' →
  ∃ a b, (a ≤ b)%nat ∧ kinds !! a = Some (callKind c) ∧ kinds !! b = Some (callKind c').
Proof.
  induction kinds as [|k kinds IH]; intros unmatched r cache i j c c' Hij Hi Hj;
    [done|].
  simpl in Hi, Hj.
  destruct (applyKind _ k _ _ r) as [[[r' ct] cs] e] eqn:Hrun.
  assert (Hhead : ∀ n x, cs !! n = Some x → callKind x = k).
  { intros n x Hx. eapply applyKind_callKind; [exact Hrun|].
    by eapply list_elem_of_lookup_2. }
  destruct e as [msg|]; simpl in Hi, Hj.
  { exists 0, 0. rewrite (Hhead _ _ Hi), (Hhead _ _ Hj). done. }
  apply lookup_app_Some in Hi as [Hi|[Hil Hi]];
    apply lookup_app_Some in Hj as [Hj|[Hjl Hj]].
  - exists 0, 0. rewrite (Hhead _ _ Hi), (Hhead _ _ Hj). done.
  - pose proof (list_elem_of_lookup_2 _ _ _ Hj) as Hin.
    apply updateAirtable_callKind in Hin.
    apply list_elem_of_lookup_1 in Hin as [b Hb].
    exists 0, (S b). rewrite (Hhead _ _ Hi). split; [lia|]. done.
  - apply lookup_lt_Some in Hj. lia.
  - assert (Hlt : (i - length cs < j - length cs)%nat) by lia.
    destruct (IH _ _ _ _ _ _ _ Hlt Hi Hj) as (a & b & Hab & Ha & Hb).
    exists (S a), (S b). split; [lia|]. done.
Qed.

Lemma updateAirtable_create_calls opts kinds : ∀ unmatched (r : R) cache,
  out_err (updateAirtable opts kinds unmatched r cache) = None →
  filter (λ c, isCreate c = true)
    (out_calls (updateAirtable opts kinds unmatched r cache))
  = kinds ≫= λ k, (λ u, CallCreate k u None) <$> unmatched k.
Proof.
  induction kinds as [|k kinds IH]; intros unmatched r cache Herr; [done|].
  simpl in *.
  destruct (applyKind _ k _ _ r) as [[[r' ct] cs] [msg|]] eqn:Hrun; [done|].
  simpl in *. rewrite filter_app, IH by done. f_equal.
  apply applyKind_inv in Hrun as (created & n & sweeps & _ & _ & _ & Hsw & _ & ->).
  rewrite filter_app.
  rewrite (filter_none _ sweeps).
  - rewrite app_nil_r. apply filter_all.
    apply Forall_fmap, Forall_true. done.
  - rewrite Forall_forall in Hsw. intros c Hc.
    apply Hsw, sweepCall_not_create in Hc. by rewrite Hc.
Qed.

End Phases.

Section Log.
Context {R : Type} `{Client R}.
Variable tableKinds : list TableKind.
Variable mapRange : gmap string Feature → list (string * Feature).
Variable ToRecord : Feature → DB → Rec.t.
Variable FilterByTargets : list Issue.t → list string → list Issue.t.

Abbreviation desired opts issues :=
  (collectFeatures (FilterByTargets issues (Targets opts))).
Abbreviation classified features cache0 :=
  (computeFields tableKinds mapRange ToRecord features cache0).
Abbreviation built features cache0 :=
  (builtRecords ToRecord (cache0, NewDB) (workList tableKinds mapRange features)).

(** X5: the fetch stops at the first table that fails to list.  The
    kinds before it were listed, in index order, the failed List is the
    last call of the run, the kinds after it are not listed, and the run
    returns the error of the List as it is, leaving the remote store
    untouched. *)
Theorem fetch_stops_at_first_failure opts issues (r : R) ks1 kind ks2 e :
  BaseID opts ≠ "" → Token opts ≠ "" →
  tableKinds = ks1 ++ kind :: ks2 →
  Forall (λ k, ∃ rows, TableList r (TableNames opts k) = inr rows) ks1 →
  TableList r (TableNames opts kind) = inl e →
  let out :=
    airtableSync tableKinds mapRange ToRecord FilterByTargets opts (inr issues) r in
  out_calls out = ((λ k, CallList k None) <$> ks1) ++ [CallList kind (Some e)]
  ∧ out_err out = Some e
  ∧ out_remote out = r.
Proof.
  intros Hbase Htoken -> Hok Hfail. cbn zeta. unfold airtableSync.
  rewrite !bool_decide_eq_false_2 by done. simpl.
  destruct (fetchTables_prefix opts ks1 kind ks2 r NewDB e Hok Hfail) as [Hcs He].
  destruct (fetchTables opts (ks1 ++ kind :: ks2) r NewDB) as [[cache0 cs0] e0].
  simpl in *. by subst.
Qed.

(** X6: when every table lists, the run lists each kind once, in index
    order, before it creates, updates or deletes anything, and every
    call after the fetch is a Create, an Update or a Delete: no table is
    listed again. *)
Theorem tables_listed_once_before_any_write opts issues (r : R) :
  BaseID opts ≠ "" → Token opts ≠ "" →
  (∀ k, k ∈ tableKinds → ∃ rows, TableList r (TableNames opts k) = inr rows) →
  let out :=
    airtableSync tableKinds mapRange ToRecord FilterByTargets opts (inr issues) r in
  ∃ writes,
    out_calls out = ((λ k, CallList k None) <$> tableKinds) ++ writes
    ∧ Forall (λ c, isMutation c = true) writes.
Proof.
  intros Hbase Htoken Hok. cbn zeta.
  destruct (fetchTables_succeeds opts tableKinds r NewDB Hok) as (cache0 & cs0 & Hfetch).
  rewrite (sync_proceeds _ _ _ _ _ _ _ _ _ Hbase Htoken Hfetch). simpl.
  eexists. split.
  - by rewrite (fetchTables_lists _ _ _ _ _ _ Hfetch).
  - apply updateAirtable_mutations.
Qed.

(** X4: with at least one kind to synchronise, the run issues no remote
    call exactly when the base ID or the token is missing or the issues
    fail to load; a load failure with the credentials present returns
    the error wrapped in "failed to load issues" and leaves the remote
    store untouched. *)
Theorem no_remote_call_without_issues opts loaded (r : R) :
  tableKinds ≠ [] →
  let out := airtableSync tableKinds mapRange ToRecord FilterByTargets opts loaded r in
  (out_calls out = [] ↔ BaseID opts = "" ∨ Token opts = "" ∨ ∃ e, loaded = inl e)
  ∧ (∀ e, BaseID opts ≠ "" → Token opts ≠ "" → loaded = inl e →
       out_err out = Some (String.append "failed to load issues: " e)
       ∧ out_remote out = r).
Proof.
  intros Hkinds. cbn zeta. split.
  - unfold airtableSync.
    destruct (decide (BaseID opts = "")) as [Hb|Hb].
    { rewrite (bool_decide_eq_true_2 _ Hb). simpl. tauto. }
    destruct (decide (Token opts = "")) as [Ht|Ht].
    { rewrite (bool_decide_eq_true_2 _ Ht), orb_true_r. simpl. tauto. }
    rewrite !bool_decide_eq_false_2 by done. simpl.
    destruct loaded as [e|issues]; simpl; [naive_solver|].
    destruct tableKinds as [|k kinds]; [done|]. simpl.
    split; [|naive_solver]. intros Hnil. exfalso.
    destruct (TableList r (TableNames opts k)) as [e|rows]; [done|].
    destruct (fetchTables opts kinds r _) as [[cache0 cs0] [e|]]; [done|].
    by destruct (computeFields _ _ _ _ _).
  - intros e Hb Ht ->. unfold airtableSync.
    by rewrite !bool_decide_eq_false_2 by done.
Qed.

(** X8: past the fetch, the run returns an error exactly when one of its
    Creates failed, and the error is that of the failed Create, the last
    call of the run: an Update or a Delete that fails does not make the
    run return an error. *)
Theorem only_a_failed_create_fails_the_run opts issues (r : R) cache0 cs0 :
  BaseID opts ≠ "" → Token opts ≠ "" →
  fetchTables opts tableKinds r NewDB = (cache0, cs0, None) →
  let out :=
    airtableSync tableKinds mapRange ToRecord FilterByTargets opts (inr issues) r in
  (out_err out = None
   ↔ Forall (λ c, isCreate c = true → callOk c) (out_calls out))
  ∧ (∀ msg, out_err out = Some msg →
       ∃ kind u, last (out_calls out) = Some (CallCreate kind u (Some msg))).
Proof.
  intros Hbase Htoken Hfetch. cbn zeta.
  rewrite (sync_proceeds _ _ _ _ _ _ _ _ _ Hbase Htoken Hfetch). simpl.
  set (upd := updateAirtable opts tableKinds _ r _).
  assert (Hlast : ∀ msg, out_err upd = Some msg →
            ∃ kind u, last (cs0 ++ out_calls upd) = Some (CallCreate kind u (Some msg))).
  { intros msg Herr.
    destruct (updateAirtable_err _ _ _ _ _ _ Herr) as (k & u & Hin).
    destruct (updateAirtable_failed_create _ _ _ _ _ _ _ _ Hin) as [_ [cs Hcs]].
    exists k, u. fold upd in Hcs. by rewrite Hcs, app_assoc, last_snoc. }
  split; [split|done].
  - intros Herr. apply Forall_forall. intros c Hc Hcreate.
    destruct c as [| k u [msg|] | |]; try done.
    apply elem_of_app in Hc as [Hc|Hc].
    + destruct (fetchTables_calls opts tableKinds r NewDB (CallCreate k u (Some msg)))
        as [e' He']; [by rewrite Hfetch|done].
    + destruct (updateAirtable_failed_create _ _ _ _ _ _ _ _ Hc) as [Hmsg _].
      fold upd in Hmsg. congruence.
  - intros Hall. destruct (out_err upd) as [msg|] eqn:Herr; [|done].
    destruct (Hlast msg eq_refl) as (k & u & Hl).
    apply last_Some_elem_of in Hl. rewrite Forall_forall in Hall.
    by specialize (Hall _ Hl eq_refl).
Qed.

(** X9: the creations, updates and deletions of a run are grouped by
    kind, the kinds following each other in the order of their index in
    [TableNames]: a call of a kind never follows a call of a kind with a
    greater index. *)
Theorem kinds_served_in_index_order opts loaded (r : R) i j c c' :
  let out := airtableSync tableKinds mapRange ToRecord FilterByTargets opts loaded r in
  (i < j)%nat → out_calls out !! i = Some c → out_calls out !! j = Some c' →
  isMutation c = true → isMutation c' = true →
  ∃ a b, (a ≤ b)%nat
    ∧ tableKinds !! a = Some (callKind c) ∧ tableKinds !! b = Some (callKind c').
Proof.
  cbn zeta. intros Hij Hi Hj Hc Hc'.
  destruct (sync_mutation tableKinds mapRange ToRecord FilterByTargets
              opts loaded r c (list_elem_of_lookup_2 _ _ _ Hi) Hc)
    as (issues & cache0 & cs0 & -> & Hbase & Htoken & Hfetch & _).
  rewrite (sync_proceeds _ _ _ _ _ _ _ _ _ Hbase Htoken Hfetch) in Hi, Hj.
  simpl in Hi, Hj.
  assert (Hlists : ∀ n x, cs0 !! n = Some x → isMutation x = false).
  { intros n x Hx.
    destruct (fetchTables_calls opts tableKinds r NewDB x) as [e' ->]; [|done].
    rewrite Hfetch. by eapply list_elem_of_lookup_2. }
  apply lookup_app_Some in Hi as [Hi|[Hil Hi]].
  { apply Hlists in Hi. congruence. }
  apply lookup_app_Some in Hj as [Hj|[Hjl Hj]].
  { apply Hlists in Hj. congruence. }
  eapply updateAirtable_kind_order; [|exact Hi|exact Hj]. lia.
Qed.

Hypothesis tableKinds_NoDup : NoDup tableKinds.
Hypothesis mapRange_perm : ∀ m, mapRange m ≡ₚ map_to_list m.

Lemma computeFields_nothing cache0 : classified emptyFeatures cache0 = (cache0, NewDB).
Proof.
  rewrite computeFields_workList.
  assert (Hw : workList tableKinds mapRange emptyFeatures = []).
  { unfold workList. induction tableKinds as [|k ks IH]; [done|].
    rewrite bind_cons, IH by (by apply NoDup_cons in tableKinds_NoDup as [_ ?]).
    unfold emptyFeatures.
    pose proof (mapRange_perm ∅) as Hp. rewrite map_to_list_empty in Hp.
    apply Permutation_nil_r in Hp. by rewrite Hp. }
  by rewrite Hw.
Qed.

(** X13: when the filter leaves no issue, the run returns no error,
    creates and updates nothing, and deletes every row it fetched, of
    every kind. *)
Theorem run_without_issues_deletes_every_fetched_row opts issues (r : R) cache0 cs0 :
  BaseID opts ≠ "" → Token opts ≠ "" →
  FilterByTargets issues (Targets opts) = [] →
  fetchTables opts tableKinds r NewDB = (cache0, cs0, None) →
  let out :=
    airtableSync tableKinds mapRange ToRecord FilterByTargets opts (inr issues) r in
  out_err out = None
  ∧ Forall (λ c, isCreate c = false ∧ isUpdate c = false) (out_calls out)
  ∧ ∀ kind idx rec0, kind ∈ tableKinds → cache0 kind !! idx = Some rec0 →
      ∃ e, callsAt kind idx (out_calls out) = [CallDelete kind idx rec0 e].
Proof.
  intros Hbase Htoken Hnone Hfetch out.
  assert (Hout : out = let upd := updateAirtable opts tableKinds NewDB r cache0 in
                       mkOutcome (out_remote upd) (out_cache upd)
                         (cs0 ++ out_calls upd) (out_err upd)).
  { unfold out. rewrite (sync_proceeds _ _ _ _ _ _ _ _ _ Hbase Htoken Hfetch).
    rewrite Hnone. change (collectFeatures []) with emptyFeatures.
    by rewrite computeFields_nothing. }
  assert (Herr : out_err out = None).
  { rewrite Hout. simpl.
    destruct (out_err (updateAirtable opts tableKinds NewDB r cache0))
      as [msg|] eqn:Herr; [|done].
    destruct (updateAirtable_err _ _ _ _ _ _ Herr) as (k & u & Hin).
    apply updateAirtable_creates in Hin. by apply elem_of_nil in Hin. }
  split; [done|]. split.
  - rewrite Hout. simpl. apply Forall_app. split.
    + apply Forall_forall. intros c Hc.
      destruct (fetchTables_calls opts tableKinds r NewDB c) as [e' ->]; [|done].
      by rewrite Hfetch.
    + apply Forall_forall. intros c Hc.
      destruct c as [k e|k u e|k idx rec e|k idx rec e]; try done.
      * apply updateAirtable_creates in Hc. by apply elem_of_nil in Hc.
      * apply updateAirtable_sweep_call in Hc as [Hsw _]; [|done..]. simpl in Hsw.
        destruct Hsw as (j & rec' & e' & Hj & [[_ [=]]|[Hst _]]).
        apply list_elem_of_lookup_2 in Hj.
        rewrite (fetchTables_Unknown _ _ _ _ _ _ _ Hfetch Hj) in Hst. done.
  - intros kind idx rec0 Hkind Hidx.
    assert (Hcu : (classified (desired opts issues) cache0).1 kind !! idx = Some rec0).
    { rewrite Hnone. change (collectFeatures []) with emptyFeatures.
      by rewrite computeFields_nothing. }
    destruct (sync_at tableKinds mapRange ToRecord FilterByTargets tableKinds_NoDup
                _ _ _ _ _ _ _ _ Hbase Htoken Hfetch Herr Hkind Hcu) as [e He].
    exists e. fold out in He. rewrite He. unfold callFor.
    by rewrite (fetchTables_Unknown _ _ _ _ _ kind rec0 Hfetch)
      by (by eapply list_elem_of_lookup_2).
Qed.

Hypothesis ToRecord_fieldID : ∀ f c, GetFieldID (ToRecord f c) = GetID f.

(** X10: the Creates of a run that returns no error are, kind after kind
    in index order, one per record queued as new.  No two records queued
    for a kind share an ExternalID, and a record is queued exactly when
    it was built for an entry of the feature maps whose ExternalID no
    fetched row of the kind has. *)
Theorem one_create_per_new_entry opts issues (r : R) cache0 cs0 :
  BaseID opts ≠ "" → Token opts ≠ "" →
  fetchTables opts tableKinds r NewDB = (cache0, cs0, None) →
  let out :=
    airtableSync tableKinds mapRange ToRecord FilterByTargets opts (inr issues) r in
  let unmatched := (classified (desired opts issues) cache0).2 in
  out_err out = None →
  filter (λ c, isCreate c = true) (out_calls out)
  = (tableKinds ≫= λ k, (λ u, CallCreate k u None) <$> unmatched k)
  ∧ ∀ kind,
      NoDup (GetFieldID <$> unmatched kind)
      ∧ ∀ u, u ∈ unmatched kind ↔
          ∃ f, desired opts issues kind !! GetFieldID u = Some f
               ∧ (kind, f, u) ∈ built (desired opts issues) cache0
               ∧ findIdx (cache0 kind) (GetFieldID u) = None.
Proof.
  intros Hbase Htoken Hfetch out unmatched. unfold out, unmatched.
  rewrite (sync_proceeds _ _ _ _ _ _ _ _ _ Hbase Htoken Hfetch). simpl.
  intros Herr.
  pose proof (collectFeatures_key (FilterByTargets issues (Targets opts))) as Hkeys.
  pose proof (computeFields_classified tableKinds mapRange ToRecord
                tableKinds_NoDup mapRange_perm (desired opts issues) cache0
                Hkeys ToRecord_fieldID) as Hcl.
  pose proof (builtRecords_fieldID ToRecord
                (workList tableKinds mapRange (desired opts issues)) (cache0, NewDB)
                ToRecord_fieldID) as Hids.
  split.
  - rewrite filter_app, updateAirtable_create_calls by done.
    rewrite filter_none; [done|]. intros c Hc.
    destruct (fetchTables_calls opts tableKinds r NewDB c) as [e' ->]; [|done].
    by rewrite Hfetch.
  - intros kind. split.
    + eapply unmatched_NoDup; [exact Hcl|exact Hids|].
      by apply built_NoDup.
    + intros u. rewrite (unmatched_entries _ _ _ Hcl). split.
      * intros ([[k f] b] & Hin & [Hk Hmiss] & Hb). simpl in *. subst k b.
        rewrite Forall_forall in Hids. pose proof (Hids _ Hin) as Hid. simpl in Hid.
        destruct (built_entry_inv tableKinds mapRange ToRecord mapRange_perm
                    _ _ _ _ _ Hkeys Hin) as [_ Hf].
        exists f. by rewrite Hid.
      * intros (f & Hf & Hin & Hmiss).
        exists (kind, f, u). split; [done|]. split; [|done].
        split; [done|]. simpl. by rewrite (Hkeys _ _ _ Hf).
Qed.

End Log.

Lemma fetch_stops_at_first_failure_witness :
  let out := syncStore exOpts [exIssue] providersOnly in
  out_calls out = [CallList ProviderIndex None;
                   CallList AccountIndex (Some "TABLE_NOT_FOUND")]
  ∧ out_err out = Some "TABLE_NOT_FOUND"
  ∧ out_remote out = providersOnly.
Proof.
  apply (fetch_stops_at_first_failure dependencyOrder map_to_list toRecord
           (λ issues _, issues) exOpts [exIssue] providersOnly
           [ProviderIndex] AccountIndex
           [RepositoryIndex; LabelIndex; MilestoneIndex; IssueIndex]
           "TABLE_NOT_FOUND").
  - done.
  - done.
  - reflexivity.
  - apply Forall_singleton. by exists [].
  - reflexivity.
Defined.

Lemma tables_listed_once_before_any_write_witness :
  let out := syncStore exOpts [exIssue] emptyStore in
  ∃ writes,
    out_calls out = ((λ k, CallList k None) <$> dependencyOrder) ++ writes
    ∧ Forall (λ c, isMutation c = true) writes.
Proof.
  apply (tables_listed_once_before_any_write dependencyOrder map_to_list toRecord
           (λ issues _, issues) exOpts [exIssue] emptyStore).
  - done.
  - done.
  - intros k Hk. exists []. by destruct k.
Defined.

Lemma no_remote_call_without_issues_witness :
  let out :=
    airtableSync dependencyOrder map_to_list toRecord (λ issues _, issues) exOpts
      (inl "no such table: issue") emptyStore in
  (out_calls out = []
   ↔ BaseID exOpts = "" ∨ Token exOpts = ""
     ∨ ∃ e, @inl error (list Issue.t) "no such table: issue" = inl e)
  ∧ (∀ e, BaseID exOpts ≠ "" → Token exOpts ≠ "" →
       @inl error (list Issue.t) "no such table: issue" = inl e →
       out_err out = Some (String.append "failed to load issues: " e)
       ∧ out_remote out = emptyStore).
Proof.
  apply (no_remote_call_without_issues dependencyOrder map_to_list toRecord
           (λ issues _, issues) exOpts (inl "no such table: issue") emptyStore).
  done.
Defined.

Lemma only_a_failed_create_fails_the_run_witness :
  let out := syncStore exOpts [exAssigned] refusingBob in
  out_err out = Some "INVALID_REQUEST"
  ∧ (out_err out = None
     ↔ Forall (λ c, isCreate c = true → callOk c) (out_calls out))
  ∧ (∀ msg, out_err out = Some msg →
       ∃ kind u, last (out_calls out) = Some (CallCreate kind u (Some msg))).
Proof.
  split; [by vm_compute|].
  refine (only_a_failed_create_fails_the_run dependencyOrder map_to_list toRecord
            (λ issues _, issues) exOpts [exAssigned] refusingBob
            (fetchTables exOpts dependencyOrder refusingBob NewDB).1.1
            (fetchTables exOpts dependencyOrder refusingBob NewDB).1.2 _ _ _).
  - done.
  - done.
  - by vm_compute.
Defined.

Lemma kinds_served_in_index_order_witness :
  let out := syncStore exOpts [exIssue] emptyStore in
  out_calls out !! 7 = Some (CallCreate AccountIndex aliceRecord None)
  ∧ out_calls out !! 9 = Some (CallCreate IssueIndex issueRecord None)
  ∧ ∃ a b, (a ≤ b)%nat
      ∧ dependencyOrder !! a = Some AccountIndex
      ∧ dependencyOrder !! b = Some IssueIndex.
Proof.
  cbn zeta.
  assert (H7 : out_calls (syncStore exOpts [exIssue] emptyStore) !! 7
               = Some (CallCreate AccountIndex aliceRecord None)) by (by vm_compute).
  assert (H9 : out_calls (syncStore exOpts [exIssue] emptyStore) !! 9
               = Some (CallCreate IssueIndex issueRecord None)) by (by vm_compute).
  split; [exact H7|]. split; [exact H9|].
  refine (kinds_served_in_index_order dependencyOrder map_to_list toRecord
            (λ issues _, issues) exOpts (inr [exIssue]) emptyStore 7 9 _ _ _ H7 H9 _ _).
  - lia.
  - done.
  - done.
Defined.

Lemma run_without_issues_deletes_every_fetched_row_witness :
  let out := syncStore exOpts [] strayStore in
  strayCache AccountIndex !! 0
  = Some (Rec.mk "rec0" (Fields.mk "ext-7" "carol" []) StateUnknown)
  ∧ out_err out = None
  ∧ Forall (λ c, isCreate c = false ∧ isUpdate c = false) (out_calls out)
  ∧ ∀ kind idx rec0, kind ∈ dependencyOrder → strayCache kind !! idx = Some rec0 →
      ∃ e, callsAt kind idx (out_calls out) = [CallDelete kind idx rec0 e].
Proof.
  split; [by vm_compute|].
  refine (run_without_issues_deletes_every_fetched_row dependencyOrder map_to_list
            toRecord (λ issues _, issues) dependencyOrder_NoDup (λ m, reflexivity _)
            exOpts [] strayStore strayCache _ _ _ _ strayCache_fetched).
  - done.
  - done.
  - done.
Defined.

Lemma one_create_per_new_entry_witness :
  let out := syncStore exOpts [exIssue] emptyStore in
  let unmatched :=
    (computeFields dependencyOrder map_to_list toRecord (collectFeatures [exIssue])
       (fetchTables exOpts dependencyOrder emptyStore NewDB).1.1).2 in
  length (filter (λ c, isCreate c = true) (out_calls out)) = 4
  ∧ filter (λ c, isCreate c = true) (out_calls out)
    = (dependencyOrder ≫= λ k, (λ u, CallCreate k u None) <$> unmatched k)
  ∧ ∀ kind,
      NoDup (GetFieldID <$> unmatched kind)
      ∧ ∀ u, u ∈ unmatched kind ↔
          ∃ f, collectFeatures [exIssue] kind !! GetFieldID u = Some f
               ∧ (kind, f, u)
                   ∈ builtRecords toRecord
                       ((fetchTables exOpts dependencyOrder emptyStore NewDB).1.1, NewDB)
                       (workList dependencyOrder map_to_list (collectFeatures [exIssue]))
               ∧ findIdx ((fetchTables exOpts dependencyOrder emptyStore NewDB).1.1 kind)
                   (GetFieldID u) = None.
Proof.
  cbn zeta. split; [by vm_compute|].
  refine (one_create_per_new_entry dependencyOrder map_to_list toRecord
            (λ issues _, issues) dependencyOrder_NoDup (λ m, reflexivity _)
            toRecord_fieldID exOpts [exIssue] emptyStore
            (fetchTables exOpts dependencyOrder emptyStore NewDB).1.1
            (fetchTables exOpts dependencyOrder emptyStore NewDB).1.2 _ _ _ _).
  - done.
  - done.
  - by vm_compute.
  - by vm_compute.
Defined.

(** ** The classification keeps the cache in place *)

Section Classify.
Variable tableKinds : list TableKind.
Variable mapRange : gmap string Feature → list (string * Feature).
Variable ToRecord : Feature → DB → Rec.t.

Hypothesis tableKinds_NoDup : NoDup tableKinds.
Hypothesis mapRange_perm : ∀ m, mapRange m ≡ₚ map_to_list m.
Hypothesis ToRecord_fieldID : ∀ f c, GetFieldID (ToRecord f c) = GetID f.


End Classify.


(** ** The remote store after a run *)

Lemma sameTablesBut_refl names s : sameTablesBut names s s.
Proof. by split. Qed.

Lemma sameTablesBut_trans names s1 s2 s3 :
  sameTablesBut names s1 s2 → sameTablesBut names s2 s3 → sameTablesBut names s1 s3.
Proof.
  intros [Hd1 Hf1] [Hd2 Hf2]. split; [congruence|].
  intros n Hn. by rewrite Hf2, Hf1.
Qed.

Lemma sameTablesBut_mono names names' s s' :
  names ⊆ names' → sameTablesBut names s s' → sameTablesBut names' s s'.
Proof. intros Hsub [Hd Hf]. split; [done|]. intros n Hn. apply Hf. set_solver. Qed.

Lemma sameTablesBut_insert s name rows rows' next ref :
  tables s !! name = Some rows →
  sameTablesBut [name] s (mkStore (<[name := rows']> (tables s)) next ref).
Proof.
  intros Hrows. split; simpl.
  - apply dom_insert_lookup_L. by eexists.
  - intros n Hn. apply lookup_insert_ne. set_solver.
Qed.

Lemma storeCreate_frame s name u :
  sameTablesBut [name] s (storeCreate s name u).1.
Proof.
  unfold storeCreate. destruct (tables s !! name) as [rows|] eqn:Hrows;
    [|apply sameTablesBut_refl].
  case_decide; [apply sameTablesBut_refl|]. simpl.
  by eapply sameTablesBut_insert.
Qed.

Lemma storeUpdate_frame s name u :
  sameTablesBut [name] s (storeUpdate s name u).1.
Proof.
  unfold storeUpdate. destruct (tables s !! name) as [rows|] eqn:Hrows;
    [|apply sameTablesBut_refl].
  repeat case_decide; try apply sameTablesBut_refl. simpl.
  by eapply sameTablesBut_insert.
Qed.

Lemma storeDelete_frame s name u :
  sameTablesBut [name] s (storeDelete s name u).1.
Proof.
  unfold storeDelete. destruct (tables s !! name) as [rows|] eqn:Hrows;
    [|apply sameTablesBut_refl].
  case_decide; [|apply sameTablesBut_refl]. simpl.
  by eapply sameTablesBut_insert.
Qed.

Lemma createRecords_frame name kind ut : ∀ (s : Store) ct,
  sameTablesBut [name] s (createRecords name kind ut s ct).1.1.1.
Proof.
  induction ut as [|u ut IH]; intros s ct; simpl; [apply sameTablesBut_refl|].
  pose proof (storeCreate_frame s name u) as Hstep.
  destruct (storeCreate s name u) as [s1 [msg|id]]; simpl in *; [done|].
  specialize (IH s1 (Append ct (withState StateNew (Rec.mk id (Rec.Fields u) (Rec.State u))))).
  destruct (createRecords name kind ut s1 _) as [[[s2 ct2] cs2] e2]. simpl in *.
  by eapply sameTablesBut_trans.
Qed.

Lemma sweep_frame name kind ct : ∀ i (s : Store),
  sameTablesBut [name] s (sweep name kind i ct s).1.
Proof.
  induction ct as [|rec ct IH]; intros i s; simpl; [apply sameTablesBut_refl|].
  destruct (Rec.State rec); try apply IH.
  - pose proof (storeDelete_frame s name rec) as Hstep.
    destruct (storeDelete s name rec) as [s1 e]. simpl in *.
    specialize (IH (S i) s1). destruct (sweep name kind (S i) ct s1) as [s2 cs].
    simpl in *. by eapply sameTablesBut_trans.
  - pose proof (storeUpdate_frame s name rec) as Hstep.
    destruct (storeUpdate s name rec) as [s1 e]. simpl in *.
    specialize (IH (S i) s1). destruct (sweep name kind (S i) ct s1) as [s2 cs].
    simpl in *. by eapply sameTablesBut_trans.
Qed.

Lemma applyKind_frame name kind ut ct (s : Store) :
  sameTablesBut [name] s (applyKind name kind ut ct s).1.1.1.
Proof.
  unfold applyKind.
  pose proof (createRecords_frame name kind ut s ct) as Hc.
  destruct (createRecords name kind ut s ct) as [[[s1 ct1] cs1] [msg|]]; [done|].
  pose proof (sweep_frame name kind ct1 0 s1) as Hs.
  destruct (sweep name kind 0 ct1 s1) as [s2 cs2]. simpl in *.
  by eapply sameTablesBut_trans.
Qed.

Lemma updateAirtable_frame opts kinds : ∀ unmatched (s : Store) cache,
  sameTablesBut (TableNames opts <$> kinds) s
    (out_remote (updateAirtable opts kinds unmatched s cache)).
Proof.
  induction kinds as [|k kinds IH]; intros unmatched s cache; simpl;
    [apply sameTablesBut_refl|].
  pose proof (applyKind_frame (TableNames opts k) k (unmatched k) (cache k) s) as Hk.
  destruct (applyKind _ k _ _ s) as [[[s1 ct] cs] [msg|]]; simpl in *.
  - eapply sameTablesBut_mono; [|exact Hk]. set_solver.
  - eapply sameTablesBut_trans.
    + eapply sameTablesBut_mono; [|exact Hk]. set_solver.
    + eapply sameTablesBut_mono; [|apply IH]. set_solver.
Qed.

(** X14: whatever the run returns, the remote base has the tables it had
    before, and every table that [TableNames] does not name for a
    synchronised kind holds the rows it held before. *)
Theorem run_touches_only_configured_tables tableKinds mapRange ToRecord
    FilterByTargets opts loaded (s : Store) :
  let out := airtableSync tableKinds mapRange ToRecord FilterByTargets opts loaded s in
  dom (tables (out_remote out)) = dom (tables s)
  ∧ ∀ name, name ∉ TableNames opts <$> tableKinds →
      tables (out_remote out) !! name = tables s !! name.
Proof.
  cbn zeta. change (sameTablesBut (TableNames opts <$> tableKinds) s
    (out_remote (airtableSync tableKinds mapRange ToRecord FilterByTargets opts loaded s))).
  unfold airtableSync.
  destruct (_ || _); [apply sameTablesBut_refl|].
  destruct loaded as [e|issues]; [apply sameTablesBut_refl|].
  destruct (fetchTables opts tableKinds s NewDB) as [[cache0 cs0] [e|]];
    [apply sameTablesBut_refl|].
  destruct (computeFields _ _ _ _ _) as [cache unmatched]. simpl.
  apply updateAirtable_frame.
Qed.

Lemma NoDup_fmap_count {A B} `{EqDecision B} (f : A → B) (l : list A) :
  (∀ y, y ∈ l → length (filter (λ z, f z = f y) l) = 1) → NoDup (f <$> l).
Proof.
  induction l as [|a l IH]; intros Hone; [constructor|].
  rewrite fmap_cons. 
  assert (Hnil : filter (λ z, f z = f a) l = []).
  { specialize (Hone a ltac:(left)). rewrite filter_cons_True in Hone by done.
    simpl in Hone. apply nil_length_inv. lia. }
  assert (Ha : f a ∉ f <$> l).
  { intros (z & Hz & Hin)%list_elem_of_fmap.
    by apply (filter_nil_not_elem_of _ _ z Hnil). }
  apply NoDup_cons. split; [done|]. apply IH. intros y Hy.
  specialize (Hone y ltac:(by right)).
  rewrite filter_cons_False in Hone; [done|].
  intros Heq. apply Ha. rewrite Heq. apply list_elem_of_fmap. by exists y.
Qed.

Section Reconciled.
Variable tableKinds : list TableKind.
Variable mapRange : gmap string Feature → list (string * Feature).
Variable ToRecord : Feature → DB → Rec.t.
Variable FilterByTargets : list Issue.t → list string → list Issue.t.

Hypothesis tableKinds_NoDup : NoDup tableKinds.
Hypothesis mapRange_perm : ∀ m, mapRange m ≡ₚ map_to_list m.
Hypothesis ToRecord_fieldID : ∀ f c, GetFieldID (ToRecord f c) = GetID f.

Abbreviation desired opts issues :=
  (collectFeatures (FilterByTargets issues (Targets opts))).
Abbreviation classified features cache0 :=
  (computeFields tableKinds mapRange ToRecord features cache0).
Abbreviation built features cache0 :=
  (builtRecords ToRecord (cache0, NewDB) (workList tableKinds mapRange features)).

Lemma sync_store_entries opts issues s :
  BaseID opts ≠ "" → Token opts ≠ "" → wfStore s →
  (∀ k1 k2, k1 ∈ tableKinds → k2 ∈ tableKinds →
     TableNames opts k1 = TableNames opts k2 → k1 = k2) →
  let out := airtableSync tableKinds mapRange ToRecord FilterByTargets opts
               (inr issues) s in
  out_err out = None → Forall callOk (out_calls out) →
  ∃ cache0 cs0,
    fetchTables opts tableKinds s NewDB = (cache0, cs0, None)
    ∧ wfStore (out_remote out)
    ∧ ∀ kind, kind ∈ tableKinds →
        ∃ rows : list Row,
          tables (out_remote out) !! TableNames opts kind = Some rows
          ∧ (∀ f b, (kind, f, b) ∈ built (desired opts issues) cache0 →
               ∃ rid, filter (λ row : Row, Fields.ID row.2 = GetID f) rows
                      = [(rid, Rec.Fields b)])
          ∧ (∀ row : Row, row ∈ rows →
               ∃ f b, (kind, f, b) ∈ built (desired opts issues) cache0
                      ∧ row.2 = Rec.Fields b)
          ∧ (∀ rec row, rec ∈ (classified (desired opts issues) cache0).1 kind →
               kept rec = Some row → row ∈ rows).
Proof.
  intros Hb Ht Hwf Hinj. cbn zeta. intros Herr Hok.
  destruct (sync_store_rows tableKinds mapRange ToRecord FilterByTargets
              tableKinds_NoDup mapRange_perm ToRecord_fieldID
              opts issues s Hb Ht Hwf Hinj Herr Hok)
    as (cache0 & cs0 & Hfetch & Hwf' & Hrows).
  exists cache0, cs0. split; [done|]. split; [done|].
  intros kind Hkind. destruct (Hrows kind Hkind) as (next & Hnext).
  eexists. split; [exact Hnext|].
  pose proof (collectFeatures_key (FilterByTargets issues (Targets opts))) as Hkeys.
  pose proof (computeFields_classified tableKinds mapRange ToRecord
                tableKinds_NoDup mapRange_perm (desired opts issues) cache0
                Hkeys ToRecord_fieldID) as Hcl.
  pose proof (λ k rec, fetchTables_Unknown _ _ _ _ _ k rec Hfetch) as Hunknown.
  pose proof (builtRecords_fieldID ToRecord
                (workList tableKinds mapRange (desired opts issues)) (cache0, NewDB)
                ToRecord_fieldID) as Hfid.
  split; [|split].
  - intros f b Hin.
    by apply (final_rows_unique cache0 _ _ Hcl Hunknown Hfid
                (built_NoDup tableKinds mapRange ToRecord tableKinds_NoDup
                   mapRange_perm _ _)).
  - intros row Hrow.
    destruct (final_rows_built cache0 _ _ Hcl Hunknown kind next row Hrow)
      as ([[k f] b] & He & Hk & Hf).
    simpl in *. subst k. by exists f, b.
  - intros rec row Hrec Hkept. apply elem_of_app. left.
    apply list_elem_of_omap. by exists rec.
Qed.

(** X15: after a run that returns no error and whose calls all succeed,
    the ExternalIDs of the rows of a table are, up to their order, the
    keys of the feature map of the kind: none is missing, none is there
    twice, and no row has an ExternalID that is not wanted. *)
Theorem remote_ids_are_the_desired_keys opts issues s :
  BaseID opts ≠ "" → Token opts ≠ "" → wfStore s →
  (∀ k1 k2, k1 ∈ tableKinds → k2 ∈ tableKinds →
     TableNames opts k1 = TableNames opts k2 → k1 = k2) →
  let out := airtableSync tableKinds mapRange ToRecord FilterByTargets opts
               (inr issues) s in
  out_err out = None → Forall callOk (out_calls out) →
  ∀ kind, kind ∈ tableKinds →
    ∃ rows : list Row,
      tables (out_remote out) !! TableNames opts kind = Some rows
      ∧ (λ row : Row, Fields.ID row.2) <$> rows
        ≡ₚ (map_to_list (desired opts issues kind)).*1.
Proof.
  intros Hb Ht Hwf Hinj. cbn zeta. intros Herr Hok kind Hkind.
  destruct (sync_store_entries opts issues s Hb Ht Hwf Hinj Herr Hok)
    as (cache0 & cs0 & Hfetch & _ & Hrows).
  destruct (Hrows kind Hkind) as (rows & Htable & Huniq & Hbuilt & _).
  exists rows. split; [done|].
  pose proof (collectFeatures_key (FilterByTargets issues (Targets opts))) as Hkeys.
  pose proof (builtRecords_fieldID ToRecord
                (workList tableKinds mapRange (desired opts issues)) (cache0, NewDB)
                ToRecord_fieldID) as Hfid.
  rewrite Forall_forall in Hfid.
  assert (Hid : ∀ row f b, row ∈ rows →
            (kind, f, b) ∈ built (desired opts issues) cache0 →
            row.2 = Rec.Fields b → Fields.ID row.2 = GetID f).
  { intros row f b _ Hin ->. apply (Hfid _ Hin). }
  apply NoDup_Permutation.
  - apply NoDup_fmap_count. intros row Hrow.
    destruct (Hbuilt row Hrow) as (f & b & Hin & Hf).
    destruct (Huniq f b Hin) as [rid Hrid].
    rewrite (Hid row f b Hrow Hin Hf).
    change (length (filter (λ row : Row, Fields.ID row.2 = GetID f) rows) = 1).
    by rewrite Hrid.
  - apply NoDup_fst_map_to_list.
  - intros id. split.
    + intros (row & -> & Hrow)%list_elem_of_fmap.
      destruct (Hbuilt row Hrow) as (f & b & Hin & Hf).
      rewrite (Hid row f b Hrow Hin Hf).
      destruct (built_entry_inv tableKinds mapRange ToRecord mapRange_perm
                  _ _ _ _ _ Hkeys Hin) as [_ Hlookup].
      apply list_elem_of_fmap. exists (GetID f, f). split; [done|].
      by apply elem_of_map_to_list.
    + intros ([id' f] & -> & Hin)%list_elem_of_fmap.
      apply elem_of_map_to_list in Hin. simpl.
      destruct (built_entry tableKinds mapRange ToRecord mapRange_perm
                  _ _ _ _ Hkind Hin cache0) as [b Hbuilt'].
      destruct (Huniq f b Hbuilt') as [rid Hrid].
      assert (Hrow : (rid, Rec.Fields b)
                     ∈ filter (λ row : Row, Fields.ID row.2 = GetID f) rows)
        by (rewrite Hrid; set_solver).
      apply list_elem_of_filter in Hrow as [Hrid' Hrow].
      apply list_elem_of_fmap. exists (rid, Rec.Fields b). split; [|done].
      simpl in *. by rewrite Hrid', (Hkeys _ _ _ Hin).
Qed.

(** X16: a wanted entry that a remote row matches is synchronised in
    place.  After a run that returns no error and whose calls all
    succeed, the one row with the ExternalID of the entry has the
    internal ID of the first row that had this ExternalID before the
    run, with the fields built for the entry. *)
Theorem matched_row_keeps_its_internal_id opts issues s :
  BaseID opts ≠ "" → Token opts ≠ "" → wfStore s →
  (∀ k1 k2, k1 ∈ tableKinds → k2 ∈ tableKinds →
     TableNames opts k1 = TableNames opts k2 → k1 = k2) →
  let out := airtableSync tableKinds mapRange ToRecord FilterByTargets opts
               (inr issues) s in
  let cache0 := (fetchTables opts tableKinds s NewDB).1.1 in
  out_err out = None → Forall callOk (out_calls out) →
  ∀ kind id f rows0 idx row0,
    kind ∈ tableKinds → desired opts issues kind !! id = Some f →
    tables s !! TableNames opts kind = Some rows0 →
    list_find (λ row : Row, Fields.ID row.2 = id) rows0 = Some (idx, row0) →
    ∃ (rows : list Row) b,
      tables (out_remote out) !! TableNames opts kind = Some rows
      ∧ (kind, f, b) ∈ built (desired opts issues) cache0
      ∧ filter (λ row : Row, Fields.ID row.2 = id) rows = [(row0.1, Rec.Fields b)].
Proof.
  intros Hb Ht Hwf Hinj. cbn zeta. intros Herr Hok kind id f rows0 idx row0
    Hkind Hf Hrows0 Hfind.
  destruct (sync_store_entries opts issues s Hb Ht Hwf Hinj Herr Hok)
    as (cache0 & cs0 & Hfetch & _ & Hrows).
  rewrite Hfetch. simpl.
  destruct (Hrows kind Hkind) as (rows & Htable & Huniq & _ & Hkept).
  pose proof (collectFeatures_key (FilterByTargets issues (Targets opts))) as Hkeys.
  pose proof (computeFields_classified tableKinds mapRange ToRecord
                tableKinds_NoDup mapRange_perm (desired opts issues) cache0
                Hkeys ToRecord_fieldID) as [_ _ Hhit _ _].
  destruct (built_entry tableKinds mapRange ToRecord mapRange_perm
              _ _ _ _ Hkind Hf cache0) as [b Hb'].
  exists rows, b. split; [done|]. split; [done|].
  destruct (Huniq f b Hb') as [rid Hrid].
  pose proof (Hkeys _ _ _ Hf) as Hid. rewrite Hid in Hrid. rewrite Hrid.
  set (rec0 := Rec.mk row0.1 row0.2 StateUnknown).
  assert (Hcache : cache0 kind = fetched rows0).
  { destruct (fetchTables_fetched _ _ _ _ _ _ kind Hfetch) as [Hin _].
    destruct (Hin Hkind) as (rows' & Hlist & ->).
    simpl in Hlist. unfold storeList in Hlist. rewrite Hrows0 in Hlist.
    by inversion Hlist. }
  assert (Hfound : findIdx (cache0 kind) id = Some (idx, rec0)).
  { unfold findIdx. rewrite Hcache. unfold fetched.
    rewrite list_find_fmap.
    change (list_find _ rows0) with (list_find (λ row : Row, Fields.ID row.2 = id) rows0).
    by rewrite Hfind. }
  assert (Hcu : (classified (desired opts issues) cache0).1 kind !! idx
                = Some (staged rec0 b)).
  { apply (Hhit (kind, f, b) kind idx rec0 Hb').
    - split; [done|]. simpl. by rewrite Hid, Hfound.
    - by apply findIdx_Some in Hfound as [? _]. }
  assert (Hrow : (row0.1, Rec.Fields b) ∈ rows).
  { apply (Hkept (staged rec0 b)); [by eapply list_elem_of_lookup_2|].
    unfold kept. rewrite staged_ID, staged_fields.
    by destruct (staged_state rec0 b) as [[-> _]|[-> _]]. }
  f_equal. symmetry.
  apply (filter_singleton_elem _ _ _ _ Hrid Hrow). simpl.
  pose proof (builtRecords_fieldID ToRecord
                (workList tableKinds mapRange (desired opts issues)) (cache0, NewDB)
                ToRecord_fieldID) as Hfid.
  rewrite Forall_forall in Hfid. rewrite <- Hid. apply (Hfid _ Hb').
Qed.

End Reconciled.

Section Rerun.
Variables (rowsF : TableKind → list Row) (c2 : DB) (es2 : list entry) (cu2 : DB * DB).
Hypothesis classified2 : Classified c2 NewDB es2 cu2.
Hypothesis c2_rows : ∀ kind, c2 kind = fetched (rowsF kind).
Hypothesis rows_one : ∀ kind f b,
  (kind, f, b) ∈ es2 →
  ∃ row, filter (λ row : Row, Fields.ID row.2 = GetID f) (rowsF kind) = [row].
Hypothesis rows_wanted : ∀ kind row,
  row ∈ rowsF kind → ∃ e, e ∈ es2 ∧ e.1.1 = kind ∧ Fields.ID row.2 = GetID e.1.2.

Lemma rerun_no_miss kind e : e ∈ es2 → ¬ misses c2 kind e.
Proof.
  intros He [Hk Hmiss]. destruct e as [[k f] b]. simpl in *. subst k.
  destruct (rows_one _ _ _ He) as [row Hrow].
  assert (Hin : row ∈ filter (λ row : Row, Fields.ID row.2 = GetID f) (rowsF kind))
    by (rewrite Hrow; set_solver).
  apply list_elem_of_filter in Hin as [Hid Hin].
  apply list_find_None in Hmiss. rewrite Forall_forall in Hmiss.
  apply (Hmiss (Rec.mk row.1 row.2 StateUnknown)); [|done].
  rewrite c2_rows. apply list_elem_of_fmap. by exists row.
Qed.

Lemma rerun_nothing_new kind : cu2.2 kind = [].
Proof.
  rewrite (cl_unmatched _ _ _ _ classified2). simpl.
  rewrite filter_none; [done|]. intros e He. by apply rerun_no_miss.
Qed.

Lemma rerun_all_matched kind rec :
  rec ∈ cu2.1 kind → Rec.State rec ≠ StateUnknown.
Proof.
  intros [j Hj]%list_elem_of_lookup.
  destruct (Classified_lookup _ _ _ _ _ _ _ classified2 Hj)
    as (rec0 & Hrec0 & [[-> Hno]|(e & He & Hh & ->)]).
  - exfalso. pose proof Hrec0 as Hrow. rewrite c2_rows in Hrow.
    apply fetched_lookup in Hrow as (row & Hrow & ->).
    destruct (rows_wanted kind row (list_elem_of_lookup_2 _ _ _ Hrow))
      as ([[k f] b] & He & Hk & Hid).
    simpl in *. subst k.
    destruct (findIdx (c2 kind) (GetID f)) as [[idx r]|] eqn:Hfind.
    + apply (Hno _ He). split; [done|]. simpl. rewrite Hfind. simpl. f_equal.
      destruct (rows_one _ _ _ He) as [row1 Hrow1].
      apply findIdx_Some in Hfind as [Hidx Hidr].
      rewrite c2_rows in Hidx. apply fetched_lookup in Hidx as (row' & Hrow' & ->).
      by apply (filter_singleton_index _ _ _ _ _ _ _ Hrow1 Hrow' Hrow).
    + apply (rerun_no_miss kind _ He). by split.
  - by destruct (staged_state rec0 e.2) as [[-> _]|[-> _]].
Qed.

End Rerun.

Lemma stage_fieldIDs cu e k :
  GetFieldID e.2 = GetID e.1.2 →
  GetFieldID <$> (stage cu e).1 k = GetFieldID <$> cu.1 k.
Proof.
  intros Hfid. destruct cu as [c u]. unfold stage. cbn [fst snd].
  destruct (findIdx (c e.1.1) (GetID e.1.2)) as [[idx rec0]|] eqn:Hfind.
  - rewrite (place_hit _ _ _ _ _ _ _ Hfind). cbn [fst].
    destruct (decide (k = e.1.1)) as [->|Hk];
      [rewrite setTable_eq|by rewrite setTable_ne].
    apply findIdx_Some in Hfind as [Hidx Hid].
    rewrite list_fmap_insert, staged_fieldID by congruence.
    rewrite list_insert_id; [done|]. by rewrite list_lookup_fmap, Hidx.
  - by rewrite (place_miss _ _ _ _ _ Hfind).
Qed.

Section Columns.
Variable ToRecord : Feature → DB → Rec.t.
Hypothesis ToRecord_fieldID : ∀ f c, GetFieldID (ToRecord f c) = GetID f.
Hypothesis ToRecord_columns : ∀ f c c',
  sameColumns c c' → Rec.Fields (ToRecord f c) = Rec.Fields (ToRecord f c').

Lemma classify_columns kind f cu cu' :
  sameColumns cu.1 cu'.1 →
  sameColumns (classify ToRecord kind cu f).1 (classify ToRecord kind cu' f).1.
Proof.
  intros Hsame k. rewrite !classify_stage.
  rewrite !stage_IDs, !stage_fieldIDs by (simpl; apply ToRecord_fieldID).
  apply Hsame.
Qed.

Lemma builtRecords_columns work : ∀ cu cu',
  sameColumns cu.1 cu'.1 →
  Rec.Fields <$> (builtRecords ToRecord cu work).*2
  = Rec.Fields <$> (builtRecords ToRecord cu' work).*2.
Proof.
  induction work as [|[kind f] work IH]; intros cu cu' Hsame; [done|].
  simpl. f_equal; [by apply ToRecord_columns|].
  apply IH. by apply classify_columns.
Qed.

End Columns.

Lemma updateAirtable_quiet {R : Type} `{Client R} opts kinds (r : R) unmatched cache :
  NoDup kinds →
  (∀ kind, unmatched kind = []) →
  (∀ kind rec, rec ∈ cache kind → Rec.State rec ≠ StateUnknown) →
  out_err (updateAirtable opts kinds unmatched r cache) = None
  ∧ Forall (λ c, isCreate c = false ∧ isDelete c = false)
      (out_calls (updateAirtable opts kinds unmatched r cache)).
Proof.
  intros Hnd Hnew Hmatched.
  assert (Hcalls : ∀ c, c ∈ out_calls (updateAirtable opts kinds unmatched r cache) →
            isCreate c = false ∧ isDelete c = false).
  { intros c Hc. destruct (isCreate c) eqn:Hcreate.
    - destruct c; try done.
      apply updateAirtable_creates in Hc. rewrite Hnew in Hc.
      by apply elem_of_nil in Hc.
    - split; [done|].
      destruct (updateAirtable_sweep_call _ _ _ _ _ _ Hnd Hc Hcreate)
        as [(j & rec & e & Hj & Hcase) _].
      apply list_elem_of_lookup_2, Hmatched in Hj.
      destruct Hcase as [[Hst _]|[_ ->]]; done. }
  split; [|by apply Forall_forall].
  apply eq_None_not_Some. intros [msg Herr].
  apply updateAirtable_err in Herr as (k & u & Hin). by destruct (Hcalls _ Hin).
Qed.

Section SecondSync.
Variable tableKinds : list TableKind.
Variable mapRange : gmap string Feature → list (string * Feature).
Variable ToRecord : Feature → DB → Rec.t.
Variable FilterByTargets : list Issue.t → list string → list Issue.t.

Hypothesis tableKinds_NoDup : NoDup tableKinds.
Hypothesis mapRange_perm : ∀ m, mapRange m ≡ₚ map_to_list m.
Hypothesis ToRecord_fieldID : ∀ f c, GetFieldID (ToRecord f c) = GetID f.

Abbreviation desired opts issues :=
  (collectFeatures (FilterByTargets issues (Targets opts))).
Abbreviation classified features cache0 :=
  (computeFields tableKinds mapRange ToRecord features cache0).
Abbreviation built features cache0 :=
  (builtRecords ToRecord (cache0, NewDB) (workList tableKinds mapRange features)).

Lemma rerun_classified opts issues s :
  BaseID opts ≠ "" → Token opts ≠ "" → wfStore s →
  (∀ k1 k2, k1 ∈ tableKinds → k2 ∈ tableKinds →
     TableNames opts k1 = TableNames opts k2 → k1 = k2) →
  let out1 := airtableSync tableKinds mapRange ToRecord FilterByTargets opts
                (inr issues) s in
  out_err out1 = None → Forall callOk (out_calls out1) →
  ∃ cache2 cs2,
    fetchTables opts tableKinds (out_remote out1) NewDB = (cache2, cs2, None)
    ∧ wfStore (out_remote out1)
    ∧ (∀ kind, (classified (desired opts issues) cache2).2 kind = [])
    ∧ (∀ kind rec, rec ∈ (classified (desired opts issues) cache2).1 kind →
         Rec.State rec ≠ StateUnknown).
Proof.
  intros Hb Ht Hwf Hinj. cbn zeta. intros Herr Hok.
  destruct (sync_store_entries tableKinds mapRange ToRecord FilterByTargets
              tableKinds_NoDup mapRange_perm ToRecord_fieldID
              opts issues s Hb Ht Hwf Hinj Herr Hok)
    as (cache1 & cs1 & Hfetch1 & Hwf1 & Hrows1).
  set (s1 := out_remote (airtableSync tableKinds mapRange ToRecord FilterByTargets
                           opts (inr issues) s)) in *.
  destruct (fetchTables_succeeds opts tableKinds s1 NewDB) as (cache2 & cs2 & Hfetch2).
  { intros k Hk. destruct (Hrows1 k Hk) as (rows & Htable & _).
    simpl. unfold storeList. rewrite Htable. by eexists. }
  exists cache2, cs2. split; [done|]. split; [done|].
  set (features := desired opts issues) in *.
  set (es1 := built features cache1) in *.
  set (es2 := built features cache2) in *.
  pose proof (collectFeatures_key (FilterByTargets issues (Targets opts))) as Hkeys.
  assert (Hcl2 : Classified cache2 NewDB es2 (classified features cache2))
    by (by apply computeFields_classified).
  assert (Hwork : es1.*1 = es2.*1)
    by (unfold es1, es2; by rewrite !builtRecords_work).
  assert (Hfid1 : Forall (λ e : entry, GetFieldID e.2 = GetID e.1.2) es1)
    by (by apply builtRecords_fieldID).
  set (rowsF := λ kind, if decide (kind ∈ tableKinds)
                        then default [] (tables s1 !! TableNames opts kind)
                        else []).
  assert (Hc2 : ∀ kind, cache2 kind = fetched (rowsF kind)).
  { intros kind. unfold rowsF.
    destruct (fetchTables_fetched _ _ _ _ _ _ kind Hfetch2) as [Hin Hout].
    destruct (decide (kind ∈ tableKinds)) as [Hk|Hk]; [|by rewrite Hout].
    destruct (Hin Hk) as (rows & Hlist & ->).
    simpl in Hlist. unfold storeList in Hlist.
    destruct (tables s1 !! TableNames opts kind); by inversion Hlist. }
  assert (Hone : ∀ kind f b, (kind, f, b) ∈ es2 →
            ∃ row, filter (λ row : Row, Fields.ID row.2 = GetID f) (rowsF kind)
                   = [row]).
  { intros kind f b2 He2.
    destruct (entries_same_work es2 es1 _ _ _ (eq_sym Hwork) He2) as [b1 He1].
    pose proof (built_kind tableKinds mapRange ToRecord mapRange_perm
                  _ _ _ _ _ He1) as Hk.
    destruct (Hrows1 kind Hk) as (rows & Htable & Huniq & _).
    destruct (Huniq f b1 He1) as [rid Hrid].
    exists (rid, Rec.Fields b1). unfold rowsF.
    rewrite decide_True by done. by rewrite Htable. }
  assert (Hwanted : ∀ kind row, row ∈ rowsF kind →
            ∃ e, e ∈ es2 ∧ e.1.1 = kind ∧ Fields.ID row.2 = GetID e.1.2).
  { intros kind row Hrow. unfold rowsF in Hrow.
    destruct (decide (kind ∈ tableKinds)) as [Hk|Hk];
      [|by apply elem_of_nil in Hrow].
    destruct (Hrows1 kind Hk) as (rows & Htable & _ & Hbuilt & _).
    rewrite Htable in Hrow. simpl in Hrow.
    destruct (Hbuilt row Hrow) as (f & b1 & He1 & Hf1).
    destruct (entries_same_work es1 es2 _ _ _ Hwork He1) as [b2 He2].
    exists (kind, f, b2). split; [done|]. split; [done|]. simpl.
    rewrite Forall_forall in Hfid1. rewrite Hf1. apply (Hfid1 _ He1). }
  split.
  - intros kind. by eapply rerun_nothing_new.
  - intros kind rec. by eapply rerun_all_matched.
Qed.

(** X18: after a run that returned no error and whose calls all
    succeeded, a second run over the same issues returns no error and
    issues neither a Create nor a Delete: whatever it still has to do is
    an Update. *)
Theorem second_run_neither_creates_nor_deletes opts issues s :
  BaseID opts ≠ "" → Token opts ≠ "" → wfStore s →
  (∀ k1 k2, k1 ∈ tableKinds → k2 ∈ tableKinds →
     TableNames opts k1 = TableNames opts k2 → k1 = k2) →
  let out1 := airtableSync tableKinds mapRange ToRecord FilterByTargets opts
                (inr issues) s in
  let out2 := airtableSync tableKinds mapRange ToRecord FilterByTargets opts
                (inr issues) (out_remote out1) in
  out_err out1 = None → Forall callOk (out_calls out1) →
  out_err out2 = None
  ∧ Forall (λ c, isCreate c = false ∧ isDelete c = false) (out_calls out2).
Proof.
  intros Hb Ht Hwf Hinj. cbn zeta. intros Herr Hok.
  destruct (rerun_classified opts issues s Hb Ht Hwf Hinj Herr Hok)
    as (cache2 & cs2 & Hfetch2 & _ & Hnew & Hmatched).
  set (s1 := out_remote (airtableSync tableKinds mapRange ToRecord FilterByTargets
                           opts (inr issues) s)) in *.
  rewrite (sync_proceeds _ _ _ _ _ _ _ _ _ Hb Ht Hfetch2). simpl.
  destruct (updateAirtable_quiet opts tableKinds s1 _ _ tableKinds_NoDup Hnew Hmatched)
    as [Hquiet Hcalls].
  split; [done|]. apply Forall_app. split; [|done].
  apply Forall_forall. intros c Hc.
  destruct (fetchTables_calls opts tableKinds s1 NewDB c) as [e He].
  - by rewrite Hfetch2.
  - by rewrite He.
Qed.

(** A run after a run that returned no error and whose calls all
    succeeded, building records with the same fields, has nothing to do. *)
Lemma same_bodies_idle opts issues s :
  BaseID opts ≠ "" → Token opts ≠ "" → wfStore s →
  (∀ k1 k2, k1 ∈ tableKinds → k2 ∈ tableKinds →
     TableNames opts k1 = TableNames opts k2 → k1 = k2) →
  let out1 := airtableSync tableKinds mapRange ToRecord FilterByTargets opts
                (inr issues) s in
  let out2 := airtableSync tableKinds mapRange ToRecord FilterByTargets opts
                (inr issues) (out_remote out1) in
  out_err out1 = None → Forall callOk (out_calls out1) →
  ∀ cache1 cs1 cache2 cs2,
    fetchTables opts tableKinds s NewDB = (cache1, cs1, None) →
    fetchTables opts tableKinds (out_remote out1) NewDB = (cache2, cs2, None) →
    Rec.Fields <$> (built (desired opts issues) cache2).*2
    = Rec.Fields <$> (built (desired opts issues) cache1).*2 →
    out_err out2 = None ∧ Forall (λ c, isMutation c = false) (out_calls out2).
Proof.
  intros Hb Ht Hwf Hinj. cbn zeta. intros Herr Hok cache1 cs1 cache2 cs2
    Hfetch1 Hfetch2 Hsame.
  destruct (sync_store_entries tableKinds mapRange ToRecord FilterByTargets
              tableKinds_NoDup mapRange_perm ToRecord_fieldID
              opts issues s Hb Ht Hwf Hinj Herr Hok)
    as (cache1' & cs1' & Hfetch1' & Hwf1 & Hrows1).
  rewrite Hfetch1 in Hfetch1'. inversion Hfetch1'; subst cache1' cs1'. clear Hfetch1'.
  set (s1 := out_remote (airtableSync tableKinds mapRange ToRecord FilterByTargets
                           opts (inr issues) s)) in *.
  set (features := desired opts issues) in *.
  set (es1 := built features cache1) in *.
  set (es2 := built features cache2) in *.
  pose proof (collectFeatures_key (FilterByTargets issues (Targets opts))) as Hkeys.
  assert (Hcl2 : Classified cache2 NewDB es2 (classified features cache2))
    by (by apply computeFields_classified).
  assert (Hwork : es1.*1 = es2.*1)
    by (unfold es1, es2; by rewrite !builtRecords_work).
  assert (Hfid1 : Forall (λ e : entry, GetFieldID e.2 = GetID e.1.2) es1)
    by (by apply builtRecords_fieldID).
  set (rowsF := λ kind, if decide (kind ∈ tableKinds)
                        then default [] (tables s1 !! TableNames opts kind)
                        else []).
  assert (Hc2 : ∀ kind, cache2 kind = fetched (rowsF kind)).
  { intros kind. unfold rowsF.
    destruct (fetchTables_fetched _ _ _ _ _ _ kind Hfetch2) as [Hin Hout].
    destruct (decide (kind ∈ tableKinds)) as [Hk|Hk]; [|by rewrite Hout].
    destruct (Hin Hk) as (rows & Hlist & ->).
    simpl in Hlist. unfold storeList in Hlist.
    destruct (tables s1 !! TableNames opts kind); by inversion Hlist. }
  assert (Huniq : ∀ kind f b, (kind, f, b) ∈ es2 →
            ∃ rid, filter (λ row : Row, Fields.ID row.2 = GetID f) (rowsF kind)
                   = [(rid, Rec.Fields b)]).
  { intros kind f b2 He2.
    destruct (entries_same_fields es1 es2 _ _ _ Hwork Hsame He2) as (b1 & He1 & Hf).
    pose proof (built_kind tableKinds mapRange ToRecord mapRange_perm
                  _ _ _ _ _ He1) as Hk.
    destruct (Hrows1 kind Hk) as (rows & Htable & Hone & _).
    destruct (Hone f b1 He1) as [rid Hrid].
    exists rid. unfold rowsF. rewrite decide_True by done.
    rewrite Htable. simpl. by rewrite <- Hf. }
  assert (Hbuilt : ∀ kind row, row ∈ rowsF kind →
            ∃ e, e ∈ es2 ∧ e.1.1 = kind ∧ Fields.ID row.2 = GetID e.1.2).
  { intros kind row Hrow. unfold rowsF in Hrow.
    destruct (decide (kind ∈ tableKinds)) as [Hk|Hk];
      [|by apply elem_of_nil in Hrow].
    destruct (Hrows1 kind Hk) as (rows & Htable & _ & Hwanted & _).
    rewrite Htable in Hrow. simpl in Hrow.
    destruct (Hwanted row Hrow) as (f & b1 & He1 & Hf1).
    destruct (entries_same_work es1 es2 _ _ _ Hwork He1) as [b2 He2].
    exists (kind, f, b2). split; [done|]. split; [done|]. simpl.
    rewrite Forall_forall in Hfid1. rewrite Hf1. apply (Hfid1 _ He1). }
  assert (Hnew : ∀ kind, (classified features cache2).2 kind = [])
    by (intros kind; by eapply second_run_nothing_new).
  assert (Hunch : ∀ kind rec, rec ∈ (classified features cache2).1 kind →
            Rec.State rec = StateUnchanged)
    by (intros kind rec; by eapply second_run_all_unchanged).
  rewrite (sync_proceeds _ _ _ _ _ _ _ _ _ Hb Ht Hfetch2). simpl.
  assert (Hnone : ∀ c, c ∈ out_calls (updateAirtable opts tableKinds
                          (classified features cache2).2 s1
                          (classified features cache2).1) → False).
  { intros c Hc. destruct (isCreate c) eqn:Hcreate.
    - destruct c; try done.
      apply updateAirtable_creates in Hc. rewrite Hnew in Hc.
      by apply elem_of_nil in Hc.
    - destruct (updateAirtable_sweep_call _ _ _ _ _ _ tableKinds_NoDup Hc Hcreate)
        as [(j & rec & e & Hj & Hcase) _].
      apply list_elem_of_lookup_2, Hunch in Hj.
      destruct Hcase as [[Hst _]|[Hst _]]; congruence. }
  split.
  - apply eq_None_not_Some. intros [msg Herr2].
    apply updateAirtable_err in Herr2 as (k & u & Hin). by destruct (Hnone _ Hin).
  - apply Forall_app. split.
    + apply Forall_forall. intros c Hc.
      destruct (fetchTables_calls opts tableKinds s1 NewDB c) as [e He].
      * by rewrite Hfetch2.
      * by rewrite He.
    + apply Forall_forall. intros c Hc. by destruct (Hnone _ Hc).
Qed.

Hypothesis ToRecord_columns : ∀ f c c',
  sameColumns c c' → Rec.Fields (ToRecord f c) = Rec.Fields (ToRecord f c').

Lemma omap_kept_matched (ct : Table) :
  (∀ rec, rec ∈ ct → Rec.State rec ≠ StateUnknown) →
  omap kept ct = (λ rec, (Rec.ID rec, Rec.Fields rec)) <$> ct.
Proof.
  induction ct as [|rec ct IH]; intros Hct; [done|].
  csimpl. rewrite IH by (intros r Hr; apply Hct; by right).
  unfold kept at 1. specialize (Hct rec ltac:(left)).
  by destruct (Rec.State rec).
Qed.

(** X20: the third run is idle.  When the fields the builder gives a
    record depend on the cache through the internal IDs and the
    ExternalIDs of its records only, then after two runs over the same
    issues whose calls all succeeded, the first returning no error, a
    third run returns no error and issues no Create, Update or Delete. *)
Theorem third_run_is_idle opts issues s :
  BaseID opts ≠ "" → Token opts ≠ "" → wfStore s →
  (∀ k1 k2, k1 ∈ tableKinds → k2 ∈ tableKinds →
     TableNames opts k1 = TableNames opts k2 → k1 = k2) →
  let out1 := airtableSync tableKinds mapRange ToRecord FilterByTargets opts
                (inr issues) s in
  let out2 := airtableSync tableKinds mapRange ToRecord FilterByTargets opts
                (inr issues) (out_remote out1) in
  let out3 := airtableSync tableKinds mapRange ToRecord FilterByTargets opts
                (inr issues) (out_remote out2) in
  out_err out1 = None → Forall callOk (out_calls out1) →
  Forall callOk (out_calls out2) →
  out_err out3 = None ∧ Forall (λ c, isMutation c = false) (out_calls out3).
Proof.
  intros Hb Ht Hwf Hinj. cbn zeta. intros Herr1 Hok1 Hok2.
  destruct (rerun_classified opts issues s Hb Ht Hwf Hinj Herr1 Hok1)
    as (cache2 & cs2 & Hfetch2 & Hwf1 & Hnew & Hmatched).
  set (s1 := out_remote (airtableSync tableKinds mapRange ToRecord FilterByTargets
                           opts (inr issues) s)) in *.
  assert (Herr2 : out_err (airtableSync tableKinds mapRange ToRecord FilterByTargets
                             opts (inr issues) s1) = None).
  { rewrite (sync_proceeds _ _ _ _ _ _ _ _ _ Hb Ht Hfetch2). simpl.
    by apply updateAirtable_quiet. }
  destruct (sync_store_rows tableKinds mapRange ToRecord FilterByTargets
              tableKinds_NoDup mapRange_perm ToRecord_fieldID
              opts issues s1 Hb Ht Hwf1 Hinj Herr2 Hok2)
    as (cache2' & cs2' & Hfetch2' & Hwf2 & Hrows2).
  rewrite Hfetch2 in Hfetch2'. inversion Hfetch2'; subst cache2' cs2'. clear Hfetch2'.
  set (s2 := out_remote (airtableSync tableKinds mapRange ToRecord FilterByTargets
                           opts (inr issues) s1)) in *.
  destruct (fetchTables_succeeds opts tableKinds s2 NewDB) as (cache3 & cs3 & Hfetch3).
  { intros k Hk. destruct (Hrows2 k Hk) as (next & Htable).
    simpl. unfold storeList. rewrite Htable. by eexists. }
  apply (same_bodies_idle opts issues s1 Hb Ht Hwf1 Hinj Herr2 Hok2
           cache2 cs2 cache3 cs3 Hfetch2 Hfetch3).
  apply builtRecords_columns; [done..|]. simpl.
  pose proof (collectFeatures_key (FilterByTargets issues (Targets opts))) as Hkeys.
  pose proof (computeFields_classified tableKinds mapRange ToRecord
                tableKinds_NoDup mapRange_perm (desired opts issues) cache2
                Hkeys ToRecord_fieldID) as Hcl2.
  intros kind.
  destruct (fetchTables_fetched _ _ _ _ _ _ kind Hfetch3) as [Hin3 Hout3].
  destruct (fetchTables_fetched _ _ _ _ _ _ kind Hfetch2) as [_ Hout2].
  destruct (decide (kind ∈ tableKinds)) as [Hk|Hk];
    [|by rewrite Hout3, Hout2].
  destruct (Hin3 Hk) as (rows & Hlist & ->).
  destruct (Hrows2 kind Hk) as (next & Htable).
  simpl in Hlist. unfold storeList in Hlist. rewrite Htable in Hlist.
  inversion Hlist; subst rows. clear Hlist.
  rewrite Hnew. unfold createdRows. simpl. rewrite app_nil_r.
  rewrite omap_kept_matched by apply Hmatched.
  unfold fetched. rewrite <- !list_fmap_compose.
  rewrite <- (cl_IDs _ _ _ _ Hcl2 kind), <- (cl_fieldIDs _ _ _ _ Hcl2 kind).
  done.
Qed.

End SecondSync.

Section Mirror.
Variable tableKinds : list TableKind.
Variable mapRange : gmap string Feature → list (string * Feature).
Variable ToRecord : Feature → DB → Rec.t.
Variable FilterByTargets : list Issue.t → list string → list Issue.t.

Hypothesis tableKinds_NoDup : NoDup tableKinds.
Hypothesis mapRange_perm : ∀ m, mapRange m ≡ₚ map_to_list m.
Hypothesis ToRecord_fieldID : ∀ f c, GetFieldID (ToRecord f c) = GetID f.

(** X17: after a run that returns no error and whose calls all succeed,
    the cache mirrors the remote store: the table of a kind holds, row
    for row and in the same order, the cached records of the kind that
    the run did not leave in [StateUnknown], the created ones at the
    end with the internal IDs the store assigned. *)
Theorem cache_mirrors_remote_after_run opts issues s :
  BaseID opts ≠ "" → Token opts ≠ "" → wfStore s →
  (∀ k1 k2, k1 ∈ tableKinds → k2 ∈ tableKinds →
     TableNames opts k1 = TableNames opts k2 → k1 = k2) →
  let out := airtableSync tableKinds mapRange ToRecord FilterByTargets opts
               (inr issues) s in
  out_err out = None → Forall callOk (out_calls out) →
  ∀ kind, kind ∈ tableKinds →
    tables (out_remote out) !! TableNames opts kind
    = Some (omap kept (out_cache out kind)).
Proof.
  intros Hb Ht Hwf Hinj. cbn zeta. intros Herr Hok kind Hkind.
  destruct (fetchTables opts tableKinds s NewDB) as [[cache0 cs0] e0] eqn:Hfetch.
  destruct e0 as [msg|].
  { unfold airtableSync in Herr. rewrite !bool_decide_eq_false_2 in Herr by done.
    simpl in Herr. by rewrite Hfetch in Herr. }
  rewrite (sync_proceeds _ _ _ _ _ _ _ _ _ Hb Ht Hfetch) in Herr, Hok |- *.
  simpl in Herr, Hok |- *. apply Forall_app in Hok as [_ Hok].
  set (cu := computeFields tableKinds mapRange ToRecord
               (collectFeatures (FilterByTargets issues (Targets opts))) cache0) in *.
  destruct (updateAirtable_store opts tableKinds cu.2 s cu.1
              tableKinds_NoDup Hinj Hwf) as (_ & _ & Hrows); try done.
  { intros k Hk. by eapply classified_inSync. }
  destruct (Hrows kind Hkind) as (next & -> & ->).
  by rewrite omap_app, createdRecords_kept.
Qed.

End Mirror.

Lemma remote_ids_are_the_desired_keys_witness :
  let out := syncStore exOpts [exIssue] strayStore in
  tables strayStore !! "Accounts" = Some [("rec0", Fields.mk "ext-7" "carol" [])]
  ∧ ∃ rows : list Row,
      tables (out_remote out) !! TableNames exOpts AccountIndex = Some rows
      ∧ (λ row : Row, Fields.ID row.2) <$> rows
        ≡ₚ (map_to_list (collectFeatures [exIssue] AccountIndex)).*1.
Proof.
  cbn zeta. split; [by vm_compute|].
  refine (remote_ids_are_the_desired_keys dependencyOrder map_to_list toRecord
            (λ issues _, issues) dependencyOrder_NoDup (λ m, reflexivity _)
            toRecord_fieldID exOpts [exIssue] strayStore
            _ _ strayStore_wf dependencyOrder_names_inj _ _ AccountIndex _).
  - done.
  - done.
  - by vm_compute.
  - compute_done.
  - compute_done.
Defined.

Lemma matched_row_keeps_its_internal_id_witness :
  let out := syncStore exOpts [exIssue] staleStore in
  ∃ (rows : list Row) b,
    tables (out_remote out) !! TableNames exOpts RepositoryIndex = Some rows
    ∧ (RepositoryIndex, FRepository exRepository, b)
        ∈ builtRecords toRecord
            ((fetchTables exOpts dependencyOrder staleStore NewDB).1.1, NewDB)
            (workList dependencyOrder map_to_list (collectFeatures [exIssue]))
    ∧ filter (λ row : Row, Fields.ID row.2 = "repo-1") rows = [("rec2", Rec.Fields b)].
Proof.
  refine (matched_row_keeps_its_internal_id dependencyOrder map_to_list toRecord
            (λ issues _, issues) dependencyOrder_NoDup (λ m, reflexivity _)
            toRecord_fieldID exOpts [exIssue] staleStore
            _ _ staleStore_wf dependencyOrder_names_inj _ _
            RepositoryIndex "repo-1" (FRepository exRepository)
            [("rec2", Fields.mk "repo-1" "depviz" [("Provider", [""]); ("Owner", [""])])]
            0 ("rec2", Fields.mk "repo-1" "depviz" [("Provider", [""]); ("Owner", [""])])
            _ _ _ _).
  - done.
  - done.
  - by vm_compute.
  - compute_done.
  - compute_done.
  - by vm_compute.
  - by vm_compute.
  - by vm_compute.
Defined.

Lemma emptyStore_wf : wfStore emptyStore.
Proof. apply wfStore_check. compute_done. Defined.

Lemma second_run_neither_creates_nor_deletes_witness :
  let out1 := syncStore exOpts [exIssue] emptyStore in
  let out2 := syncStore exOpts [exIssue] (out_remote out1) in
  length (filter (λ c, isUpdate c = true) (out_calls out2)) = 2
  ∧ out_err out2 = None
  ∧ Forall (λ c, isCreate c = false ∧ isDelete c = false) (out_calls out2).
Proof.
  cbn zeta. split; [by vm_compute|].
  refine (second_run_neither_creates_nor_deletes dependencyOrder map_to_list toRecord
            (λ issues _, issues) dependencyOrder_NoDup (λ m, reflexivity _)
            toRecord_fieldID exOpts [exIssue] emptyStore
            _ _ emptyStore_wf dependencyOrder_names_inj _ _).
  - done.
  - done.
  - by vm_compute.
  - compute_done.
Defined.

Lemma cache_mirrors_remote_after_run_witness :
  let out := syncStore exOpts [exIssue] driftedStore in
  length (out_cache out AccountIndex) = 2
  ∧ tables (out_remote out) !! TableNames exOpts AccountIndex
    = Some (omap kept (out_cache out AccountIndex)).
Proof.
  cbn zeta. split; [by vm_compute|].
  refine (cache_mirrors_remote_after_run dependencyOrder map_to_list toRecord
            (λ issues _, issues) dependencyOrder_NoDup (λ m, reflexivity _)
            toRecord_fieldID exOpts [exIssue] driftedStore
            _ _ driftedStore_wf dependencyOrder_names_inj _ _ AccountIndex _).
  - done.
  - done.
  - by vm_compute.
  - compute_done.
  - compute_done.
Defined.

Lemma FindByID_columns (t t' : Table) id :
  Rec.ID <$> t = Rec.ID <$> t' → GetFieldID <$> t = GetFieldID <$> t' →
  FindByID t id = FindByID t' id.
Proof.
  unfold FindByID. revert t'.
  induction t as [|rec t IH]; intros [|rec' t'] Hids Hfids; try done.
  injection Hids as Hid Hids. injection Hfids as Hfid Hfids.
  specialize (IH t' Hids Hfids).
  cbn [list_find]. rewrite Hfid.
  destruct (decide (GetFieldID rec' = id)); [done|].
  destruct (list_find _ t) as [[i r]|], (list_find _ t') as [[i' r']|]; done.
Qed.

Lemma toRecord_columns f c c' :
  sameColumns c c' → Rec.Fields (toRecord f c) = Rec.Fields (toRecord f c').
Proof.
  intros Hsame.
  assert (Hfind : ∀ k id, FindByID (c k) id = FindByID (c' k) id).
  { intros k id. destruct (Hsame k). by apply FindByID_columns. }
  assert (Hfmap : ∀ {A} (g : A → string) k (l : list A),
            (λ a, FindByID (c k) (g a)) <$> l = (λ a, FindByID (c' k) (g a)) <$> l).
  { intros A g k l. apply list_fmap_ext. intros. apply Hfind. }
  destruct f; simpl; try done.
  - by rewrite !Hfind, (Hfmap _ Account.ID AccountIndex).
  - by rewrite (Hfmap _ Account.ID AccountIndex).
  - by rewrite !Hfind, (Hfmap _ Label.ID LabelIndex), (Hfmap _ Account.ID AccountIndex),
      (Hfmap _ Milestone.ID MilestoneIndex).
Qed.

Lemma third_run_is_idle_witness :
  let out1 := syncStore exOpts [exIssue] emptyStore in
  let out2 := syncStore exOpts [exIssue] (out_remote out1) in
  let out3 := syncStore exOpts [exIssue] (out_remote out2) in
  length (filter (λ c, isMutation c = true) (out_calls out1)) = 4
  ∧ length (filter (λ c, isMutation c = true) (out_calls out2)) = 2
  ∧ out_err out3 = None
  ∧ Forall (λ c, isMutation c = false) (out_calls out3).
Proof.
  cbn zeta. split; [by vm_compute|]. split; [by vm_compute|].
  refine (third_run_is_idle dependencyOrder map_to_list toRecord
            (λ issues _, issues) dependencyOrder_NoDup (λ m, reflexivity _)
            toRecord_fieldID toRecord_columns exOpts [exIssue] emptyStore
            _ _ emptyStore_wf dependencyOrder_names_inj _ _ _).
  - done.
  - done.
  - by vm_compute.
  - compute_done.
  - compute_done.
Defined.

(** ** The subcommand *)

Section Command.
Context {R : Type} `{Client R}.
Variable tableKinds : list TableKind.
Variable mapRange : gmap string Feature → list (string * Feature).
Variable ToRecord : Feature → DB → Rec.t.
Variable FilterByTargets : list Issue.t → list string → list Issue.t.
Variable ParseTargets : list string → error + list string.

Lemma airtableSync_options opts opts' loaded (r : R) :
  BaseID opts' = BaseID opts → Token opts' = Token opts →
  TableNames opts' = TableNames opts → Targets opts' = Targets opts →
  airtableSync tableKinds mapRange ToRecord FilterByTargets opts' loaded r
  = airtableSync tableKinds mapRange ToRecord FilterByTargets opts loaded r.
Proof.
  intros Hb Ht Hn Hg. unfold airtableSync. rewrite Hb, Ht, Hg.
  destruct (_ || _); [done|]. destruct loaded as [e|issues]; [done|].
  rewrite (fetchTables_names opts opts' tableKinds r Hn).
  destruct (fetchTables opts tableKinds r NewDB) as [[cache0 cs0] [e|]]; [done|].
  destruct (computeFields _ _ _ _ _) as [cache unmatched].
  by rewrite (updateAirtable_names opts opts' tableKinds unmatched Hn).
Qed.

(** X19: of its configured options the [sync] subcommand reads the base
    ID, the token and the table names only: the targets come from the
    arguments, whatever targets were configured, and the destruction
    flag is not read.  Arguments that do not parse return the error
    wrapped in "invalid targets" before any remote call, credentials
    checked or not. *)
Theorem command_reads_credentials_and_table_names cmd_opts cmd_opts' args loaded
    (r : R) :
  BaseID cmd_opts' = BaseID cmd_opts → Token cmd_opts' = Token cmd_opts →
  TableNames cmd_opts' = TableNames cmd_opts →
  let out :=
    airtableSyncCommand tableKinds mapRange ToRecord FilterByTargets ParseTargets
      cmd_opts args loaded r in
  airtableSyncCommand tableKinds mapRange ToRecord FilterByTargets ParseTargets
    cmd_opts' args loaded r = out
  ∧ (∀ e, ParseTargets args = inl e →
       out_calls out = [] ∧ out_remote out = r
       ∧ out_err out = Some (String.append "invalid targets: " e)).
Proof.
  intros Hb Ht Hn. cbn zeta. unfold airtableSyncCommand. split.
  - destruct (ParseTargets args) as [e|targets]; [done|].
    by apply airtableSync_options.
  - intros e ->. done.
Qed.

End Command.

Lemma command_reads_credentials_and_table_names_witness :
  let run opts args :=
    airtableSyncCommand dependencyOrder map_to_list toRecord (λ issues _, issues)
      exParseTargets opts args (inr [exIssue]) emptyStore in
  run (withDestroy true (withTargets ["moul/depviz"] exOpts)) ["moul/depviz#1"]
  = run exOpts ["moul/depviz#1"]
  ∧ (∀ e, exParseTargets [""] = inl e →
       out_calls (run exOpts [""]) = []
       ∧ out_remote (run exOpts [""]) = emptyStore
       ∧ out_err (run exOpts [""]) = Some (String.append "invalid targets: " e)).
Proof.
  cbn zeta. split.
  - apply (command_reads_credentials_and_table_names dependencyOrder map_to_list
             toRecord (λ issues _, issues) exParseTargets exOpts
             (withDestroy true (withTargets ["moul/depviz"] exOpts))
             ["moul/depviz#1"] (inr [exIssue]) emptyStore); reflexivity.
  - apply (command_reads_credentials_and_table_names dependencyOrder map_to_list
             toRecord (λ issues _, issues) exParseTargets exOpts exOpts
             [""] (inr [exIssue]) emptyStore); reflexivity.
Defined.
